(** * libfyaml: the document layer (src/lib/fy-doc.c)

    A shallow embedding of the node tree, the anchor list, semantic node
    comparison, the default mapping sort, the event-driven document loader,
    the mapping/sequence accessors and the anchor / merge-key resolver.

    Conventions.
    - A C pointer that may be NULL is an [option]; [None] is NULL.
    - A node is a [malloc]ed object: its identity is its address [fyn_addr].
      The children of a sequence or mapping are owned by it, so a node is a
      finite tree.  A pointer to a node held elsewhere (an anchor's [fyn],
      a [parent] link) is the address.
    - The intrusive lists of fy-types.h are Rocq lists, head first.
    - C [int] values are in [Z]; the loops below never leave the [int] range
      for inputs in it, so no wrap-around is written.
    - Allocation failures ([malloc] returning NULL) are not modelled. *)

From Stdlib Require Import List ZArith Lia Bool String Ascii Arith PeanoNat Permutation.
Import ListNotations.

Set Implicit Arguments.

(** ** Tokens (fy-token.c) *)

(** [struct fy_mark] of libfyaml.h. *)
Record fy_mark : Type := mk_mark {
  input_pos : Z;
  line : Z;
  column : Z
}.

(** The token types the document layer looks at. *)
Inductive fy_token_type : Type :=
| FYTT_SCALAR
| FYTT_ALIAS
| FYTT_ANCHOR
| FYTT_TAG
| FYTT_BLOCK_SEQUENCE_START
| FYTT_BLOCK_MAPPING_START
| FYTT_BLOCK_END
| FYTT_FLOW_SEQUENCE_START
| FYTT_FLOW_SEQUENCE_END
| FYTT_FLOW_MAPPING_START
| FYTT_FLOW_MAPPING_END.

(** [enum fy_scalar_style]. *)
Inductive fy_scalar_style : Type :=
| FYSS_ANY
| FYSS_PLAIN
| FYSS_SINGLE_QUOTED
| FYSS_DOUBLE_QUOTED
| FYSS_LITERAL
| FYSS_FOLDED.

(** A token: its type, the text [fy_token_get_text] materialises from its
    atom (the decoded, escape-processed bytes), the scalar style and the
    marks of the atom. *)
Record fy_token : Type := mk_token {
  fyt_type : fy_token_type;
  fyt_text : string;
  fyt_scalar_style : fy_scalar_style;
  fyt_start_mark : fy_mark;
  fyt_end_mark : fy_mark
}.

(** [fy_token_get_text]: a NULL token has the empty text. *)
Definition fy_token_get_text (fyt : option fy_token) : string :=
  match fyt with
  | None => EmptyString
  | Some t => fyt_text t
  end.

(** [fy_token_get_text_length]. *)
Definition fy_token_get_text_length (fyt : option fy_token) : nat :=
  match fyt with
  | None => 0
  | Some t => String.length (fyt_text t)
  end.

(** [fy_token_start_mark] and [fy_token_end_mark]: NULL for a NULL token. *)
Definition fy_token_start_mark (fyt : option fy_token) : option fy_mark :=
  option_map fyt_start_mark fyt.

Definition fy_token_end_mark (fyt : option fy_token) : option fy_mark :=
  option_map fyt_end_mark fyt.

(** Modelled from the spec: [fy_plain_atom_streq] lives in fy-atom.c, which is
    not among the sources.  Section 4.6 of the spec reads it as "a plain
    scalar equal to [<<]": the atom's text equals the string.  A NULL atom
    equals nothing. *)
Definition fy_plain_atom_streq (fyt : option fy_token) (str : string) : bool :=
  match fyt with
  | None => false
  | Some t => String.eqb (fyt_text t) str
  end.

(** ** C strings *)

Definition NUL : ascii := Ascii.zero.

(** [strlen]: the bytes before the first NUL of the buffer. *)
Fixpoint c_str (s : string) : string :=
  match s with
  | EmptyString => EmptyString
  | String c r => if Ascii.eqb c NUL then EmptyString else String c (c_str r)
  end.

Definition strlen (s : string) : nat := String.length (c_str s).

(** [strncmp]: bytes compare as [unsigned char]; the comparison stops after
    [n] bytes or at a NUL.  The C standard fixes the sign of the result only;
    the difference of the two bytes is what the usual libc returns.  The
    callers below never pass an [n] beyond either buffer. *)
Fixpoint strncmp (s1 s2 : string) (n : nat) : Z :=
  match n with
  | O => 0%Z
  | S n' =>
    match s1, s2 with
    | String c1 r1, String c2 r2 =>
      if Ascii.eqb c1 c2
      then (if Ascii.eqb c1 NUL then 0%Z else strncmp r1 r2 n')
      else (Z.of_N (N_of_ascii c1) - Z.of_N (N_of_ascii c2))%Z
    | _, _ => 0%Z
    end
  end.

(** ** Nodes *)

(** An address: what a C pointer to a node holds. *)
Definition ptr : Type := nat.

(** [enum fy_node_type]. *)
Inductive fy_node_type : Type :=
| FYNT_SCALAR
| FYNT_SEQUENCE
| FYNT_MAPPING.

(** [enum fy_node_style]. *)
Inductive fy_node_style : Type :=
| FYNS_ANY
| FYNS_FLOW
| FYNS_BLOCK
| FYNS_PLAIN
| FYNS_SINGLE_QUOTED
| FYNS_DOUBLE_QUOTED
| FYNS_LITERAL
| FYNS_FOLDED
| FYNS_ALIAS.

Definition fy_node_type_eqb (a b : fy_node_type) : bool :=
  match a, b with
  | FYNT_SCALAR, FYNT_SCALAR => true
  | FYNT_SEQUENCE, FYNT_SEQUENCE => true
  | FYNT_MAPPING, FYNT_MAPPING => true
  | _, _ => false
  end.

Definition fy_node_style_eqb (a b : fy_node_style) : bool :=
  match a, b with
  | FYNS_ANY, FYNS_ANY => true
  | FYNS_FLOW, FYNS_FLOW => true
  | FYNS_BLOCK, FYNS_BLOCK => true
  | FYNS_PLAIN, FYNS_PLAIN => true
  | FYNS_SINGLE_QUOTED, FYNS_SINGLE_QUOTED => true
  | FYNS_DOUBLE_QUOTED, FYNS_DOUBLE_QUOTED => true
  | FYNS_LITERAL, FYNS_LITERAL => true
  | FYNS_FOLDED, FYNS_FOLDED => true
  | FYNS_ALIAS, FYNS_ALIAS => true
  | _, _ => false
  end.

(** [fy_node_style_from_scalar_style] of libfyaml.h:
    [FYNS_PLAIN + (sstyle - FYSS_PLAIN)], and [FYNS_ANY] for [FYSS_ANY]. *)
Definition fy_node_style_from_scalar_style (sstyle : fy_scalar_style) : fy_node_style :=
  match sstyle with
  | FYSS_ANY => FYNS_ANY
  | FYSS_PLAIN => FYNS_PLAIN
  | FYSS_SINGLE_QUOTED => FYNS_SINGLE_QUOTED
  | FYSS_DOUBLE_QUOTED => FYNS_DOUBLE_QUOTED
  | FYSS_LITERAL => FYNS_LITERAL
  | FYSS_FOLDED => FYNS_FOLDED
  end.

(** The fields every [struct fy_node] has, whatever its type. *)
Record fy_node_hdr : Type := mk_hdr {
  fyn_addr : ptr;
  fyn_parent : option ptr;
  fyn_style : fy_node_style;
  fyn_tag : option fy_token
}.

(** [struct fy_node_pair]: key and value may be NULL.  The pair's own
    [parent] link is the mapping whose list holds it; the model keeps the
    pair in that list and has no separate field for it. *)
Record fy_node_pair_of (N : Type) : Type := mk_pair {
  key : option N;
  value : option N
}.

(** [struct fy_node]: the header and the union selected by [type]. *)
#[local] Unset Elimination Schemes.
Inductive fy_node : Type :=
| fy_scalar (h : fy_node_hdr) (scalar : option fy_token)
| fy_sequence (h : fy_node_hdr) (sequence : list fy_node)
              (sequence_start sequence_end : option fy_token)
| fy_mapping (h : fy_node_hdr) (mapping : list (fy_node_pair_of fy_node))
             (mapping_start mapping_end : option fy_token).
#[local] Set Elimination Schemes.

Abbreviation fy_node_pair := (fy_node_pair_of fy_node).

Definition fy_hdr (fyn : fy_node) : fy_node_hdr :=
  match fyn with
  | fy_scalar h _ => h
  | fy_sequence h _ _ _ => h
  | fy_mapping h _ _ _ => h
  end.

Definition fy_type (fyn : fy_node) : fy_node_type :=
  match fyn with
  | fy_scalar _ _ => FYNT_SCALAR
  | fy_sequence _ _ _ _ => FYNT_SEQUENCE
  | fy_mapping _ _ _ _ => FYNT_MAPPING
  end.

Definition fy_addr (fyn : fy_node) : ptr := fyn_addr (fy_hdr fyn).

Definition fy_style (fyn : fy_node) : fy_node_style := fyn_style (fy_hdr fyn).

(** [fyn->scalar], read on a node known to be a scalar. *)
Definition fy_scalar_token (fyn : fy_node) : option fy_token :=
  match fyn with
  | fy_scalar _ t => t
  | _ => None
  end.

(** [fy_node_get_type]: a NULL is a plain scalar node. *)
Definition fy_node_get_type (fyn : option fy_node) : fy_node_type :=
  match fyn with
  | None => FYNT_SCALAR
  | Some n => fy_type n
  end.

(** [fy_node_is_scalar] of libfyaml.h. *)
Definition fy_node_is_scalar (fyn : option fy_node) : bool :=
  fy_node_type_eqb (fy_node_get_type fyn) FYNT_SCALAR.

(** Pointer equality [fyn1 == fyn2]. *)
Definition fy_ptr_eqb (fyn1 fyn2 : option fy_node) : bool :=
  match fyn1, fyn2 with
  | None, None => true
  | Some a, Some b => Nat.eqb (fy_addr a) (fy_addr b)
  | _, _ => false
  end.

(** Writing [fyn->parent]. *)
Definition fy_set_parent (parent : option ptr) (fyn : fy_node) : fy_node :=
  let set h := mk_hdr (fyn_addr h) parent (fyn_style h) (fyn_tag h) in
  match fyn with
  | fy_scalar h t => fy_scalar (set h) t
  | fy_sequence h l s e => fy_sequence (set h) l s e
  | fy_mapping h l s e => fy_mapping (set h) l s e
  end.

(** The nesting depth of a node: the deepest chain of child links below it,
    counting the node itself. *)
Fixpoint fy_node_height (fyn : fy_node) : nat :=
  match fyn with
  | fy_scalar _ _ => 1
  | fy_sequence _ l _ _ =>
    S ((fix items (l : list fy_node) : nat :=
          match l with
          | [] => 0
          | x :: r => Nat.max (fy_node_height x) (items r)
          end) l)
  | fy_mapping _ l _ _ =>
    S ((fix pairs (l : list fy_node_pair) : nat :=
          match l with
          | [] => 0
          | mk_pair k v :: r =>
            Nat.max
              (Nat.max (match k with Some n => fy_node_height n | None => 0 end)
                       (match v with Some n => fy_node_height n | None => 0 end))
              (pairs r)
          end) l)
  end.

Definition fy_height (fyn : option fy_node) : nat :=
  match fyn with
  | None => 0
  | Some n => fy_node_height n
  end.

(** ** Item access (fy_node_sequence_get_by_index and friends) *)

(** [fy_node_sequence_item_count]: 0 for anything but a sequence. *)
Definition fy_node_sequence_item_count (fyn : option fy_node) : Z :=
  match fyn with
  | Some (fy_sequence _ l _ _) => Z.of_nat (List.length l)
  | _ => 0%Z
  end.

(** [fy_node_mapping_item_count]: -1 for anything but a mapping. *)
Definition fy_node_mapping_item_count (fyn : option fy_node) : Z :=
  match fyn with
  | Some (fy_mapping _ l _ _) => Z.of_nat (List.length l)
  | _ => (-1)%Z
  end.

(** An iterator [void *iterp]: NULL before the first call, afterwards the
    item returned last, named by its position in the list. *)
Definition fy_iter : Type := option nat.

(** The step shared by the forward iterators:
    [*prevp ? next(list, *prevp) : head(list)]. *)
Definition fy_list_iterate {A : Type} (l : list A) (prevp : fy_iter) : fy_iter :=
  let i := match prevp with None => 0 | Some p => S p end in
  if Nat.ltb i (List.length l) then Some i else None.

(** The step shared by the reverse iterators:
    [*prevp ? prev(list, *prevp) : tail(list)]. *)
Definition fy_list_reverse_iterate {A : Type} (l : list A) (prevp : fy_iter) : fy_iter :=
  match prevp with
  | None => match List.length l with O => None | S n => Some n end
  | Some O => None
  | Some (S p) => Some p
  end.

(** [fy_node_sequence_iterate]; the result is the new [*prevp]. *)
Definition fy_node_sequence_iterate (fyn : option fy_node) (prevp : fy_iter) : fy_iter :=
  match fyn with
  | Some (fy_sequence _ l _ _) => fy_list_iterate l prevp
  | _ => None
  end.

(** [fy_node_sequence_reverse_iterate]. *)
Definition fy_node_sequence_reverse_iterate (fyn : option fy_node) (prevp : fy_iter) : fy_iter :=
  match fyn with
  | Some (fy_sequence _ l _ _) => fy_list_reverse_iterate l prevp
  | _ => None
  end.

(** [fy_node_mapping_iterate]. *)
Definition fy_node_mapping_iterate (fyn : option fy_node) (prevp : fy_iter) : fy_iter :=
  match fyn with
  | Some (fy_mapping _ l _ _) => fy_list_iterate l prevp
  | _ => None
  end.

(** [fy_node_mapping_reverse_iterate]. *)
Definition fy_node_mapping_reverse_iterate (fyn : option fy_node) (prevp : fy_iter) : fy_iter :=
  match fyn with
  | Some (fy_mapping _ l _ _) => fy_list_reverse_iterate l prevp
  | _ => None
  end.

(** The loop [do { it = iterate(fyn, &iterp); } while (it && --index >= 0);]
    and its mirror [while (it && ++index < 0)].  [steps] bounds the number of
    rounds; one more than the item count is never exhausted. *)
Fixpoint fy_index_loop (iterate : fy_iter -> fy_iter) (next : Z -> Z)
         (again : Z -> bool) (steps : nat) (iterp : fy_iter) (index : Z) : fy_iter :=
  match steps with
  | O => None
  | S steps' =>
    match iterate iterp with
    | None => None
    | Some i =>
      let index' := next index in
      if again index' then fy_index_loop iterate next again steps' (Some i) index'
      else Some i
    end
  end.

(** The position [fy_node_sequence_get_by_index] stops at. *)
Definition fy_index_walk (fwd bwd : fy_iter -> fy_iter) (count : nat) (index : Z) : fy_iter :=
  if (index >=? 0)%Z
  then fy_index_loop fwd Z.pred (fun i => (i >=? 0)%Z) (S count) None index
  else fy_index_loop bwd Z.succ (fun i => (i <? 0)%Z) (S count) None index.

(** What an iterator has left: the items after it going forward, the items
    before it going backward. *)
Definition fy_iter_next (iterp : fy_iter) : nat :=
  match iterp with
  | None => 0
  | Some p => S p
  end.

Definition fy_iter_before (len : nat) (iterp : fy_iter) : nat :=
  match iterp with
  | None => len
  | Some p => p
  end.

(** [fy_node_sequence_get_by_index]. *)
Definition fy_node_sequence_get_by_index (fyn : option fy_node) (index : Z) : option fy_node :=
  match fyn with
  | Some (fy_sequence _ l _ _) =>
    match fy_index_walk (fy_node_sequence_iterate fyn)
                        (fy_node_sequence_reverse_iterate fyn)
                        (List.length l) index with
    | Some i => nth_error l i
    | None => None
    end
  | _ => None
  end.

(** [fy_node_mapping_get_by_index]. *)
Definition fy_node_mapping_get_by_index (fyn : option fy_node) (index : Z) : option fy_node_pair :=
  match fyn with
  | Some (fy_mapping _ l _ _) =>
    match fy_index_walk (fy_node_mapping_iterate fyn)
                        (fy_node_mapping_reverse_iterate fyn)
                        (List.length l) index with
    | Some i => nth_error l i
    | None => None
    end
  | _ => None
  end.

(** ** Anchors and documents *)

(** [struct fy_anchor]: the anchored node and the anchor's name token. *)
Record fy_anchor : Type := mk_anchor {
  fya_fyn : option ptr;
  fya_anchor : fy_token
}.

(** [struct fy_document], as far as the document layer reads it: the anchor
    list, the root and the allocator's next free address (every node of the
    document lies below it). *)
Record fy_document : Type := mk_document {
  fyd_anchors : list fy_anchor;
  fyd_root : option fy_node;
  fyd_brk : ptr
}.

(** [fy_anchor_get_text]. *)
Definition fy_anchor_get_text (fya : fy_anchor) : string :=
  fy_token_get_text (Some (fya_anchor fya)).

(** [!memcmp(a, b, n)] on buffers that hold at least [n] bytes. *)
Definition memcmp_eq (a b : string) (n : nat) : bool :=
  String.eqb (substring 0 n a) (substring 0 n b).

(** The list operations of fy-types.h that the anchor code uses.  The header
    is not among the sources; [fy_*_list_add] links the element in at the
    head (it is what [fy_node_sequence_prepend] and [fy_node_mapping_prepend]
    call) and [fy_*_list_add_tail] at the tail. *)
Definition fy_list_add {A : Type} (l : list A) (n : A) : list A := n :: l.

Definition fy_list_add_tail {A : Type} (l : list A) (n : A) : list A := l ++ [n].

(** The scan of [fy_document_lookup_anchor] over the anchor list. *)
Fixpoint fy_anchor_list_scan (fyal : list fy_anchor) (anchor : string) (len : nat)
  : option fy_anchor :=
  match fyal with
  | [] => None
  | fya :: rest =>
    let text := fy_anchor_get_text fya in
    if Nat.eqb len (String.length text) && memcmp_eq anchor text len
    then Some fya
    else fy_anchor_list_scan rest anchor len
  end.

(** [fy_document_lookup_anchor]; [anchor] is the NUL-terminated name. *)
Definition fy_document_lookup_anchor (fyd : fy_document) (anchor : string) : option fy_anchor :=
  fy_anchor_list_scan (fyd_anchors fyd) anchor (strlen anchor).

(** [fy_document_lookup_anchor_by_token]: the token's text is copied, a NUL
    is appended, and the name is looked up. *)
Definition fy_document_lookup_anchor_by_token (fyd : fy_document) (anchor : option fy_token)
  : option fy_anchor :=
  match anchor with
  | None => None
  | Some t => fy_document_lookup_anchor fyd (fyt_text t ++ String NUL EmptyString)
  end.

(** [fya->fyn == fyn]. *)
Definition fy_anchor_on (fyn : ptr) (fya : fy_anchor) : bool :=
  match fya_fyn fya with
  | Some p => Nat.eqb p fyn
  | None => false
  end.

(** [fy_document_lookup_anchor_by_node]. *)
Definition fy_document_lookup_anchor_by_node (fyd : fy_document) (fyn : option ptr)
  : option fy_anchor :=
  match fyn with
  | None => None
  | Some p => List.find (fy_anchor_on p) (fyd_anchors fyd)
  end.

(** [fy_anchor_list_del] of the anchor [fy_document_lookup_anchor_by_node]
    found: the first one on the node. *)
Fixpoint fy_anchor_list_del_node (fyal : list fy_anchor) (fyn : ptr) : list fy_anchor :=
  match fyal with
  | [] => []
  | fya :: rest =>
    if fy_anchor_on fyn fya then rest else fya :: fy_anchor_list_del_node rest fyn
  end.

Definition fy_document_with_anchors (fyd : fy_document) (fyal : list fy_anchor) : fy_document :=
  mk_document fyal (fyd_root fyd) (fyd_brk fyd).

(** [(size_t)-1]. *)
Definition SIZE_MAX : Z := (2 ^ 64 - 1)%Z.

Definition fy_zero_mark : fy_mark := mk_mark 0 0 0.

(** The [FYTT_ANCHOR] token [fy_document_set_anchor] creates over the bytes
    [text, text + len). *)
Definition fy_anchor_token (text : string) (len : nat) : fy_token :=
  mk_token FYTT_ANCHOR (substring 0 len text) FYSS_ANY fy_zero_mark fy_zero_mark.

(** [fy_document_set_anchor].  The anchor the node had is dropped; a NULL
    [text] stops there, otherwise a new anchor is added. *)
Definition fy_document_set_anchor (fyd : fy_document) (fyn : option ptr)
           (text : option string) (len : Z) : Z * fy_document :=
  let len :=
    match text with
    | Some t => if (len =? SIZE_MAX)%Z then strlen t else Z.to_nat len
    | None => Z.to_nat len
    end in
  let fyal :=
    match fy_document_lookup_anchor_by_node fyd fyn, fyn with
    | Some _, Some p => fy_anchor_list_del_node (fyd_anchors fyd) p
    | _, _ => fyd_anchors fyd
    end in
  match text with
  | None => (0%Z, fy_document_with_anchors fyd fyal)
  | Some t =>
    let fya := mk_anchor fyn (fy_anchor_token t len) in
    (0%Z, fy_document_with_anchors fyd (fy_list_add fyal fya))
  end.

(** [fy_parse_document_register_anchor]: a name already in the list is the
    error "duplicate anchor". *)
Definition fy_parse_document_register_anchor (fyd : fy_document) (fyn : ptr)
           (anchor : fy_token) : Z * fy_document :=
  match fy_document_lookup_anchor_by_token fyd (Some anchor) with
  | Some _ => ((-1)%Z, fyd)
  | None =>
    (0%Z, fy_document_with_anchors fyd (fy_list_add (fyd_anchors fyd) (mk_anchor (Some fyn) anchor)))
  end.

(** A run of anchor declarations through the public call
    [fy_document_set_anchor(fyd, fyn, text, (size_t)-1)], oldest first. *)
Definition fy_anchor_declare (fyd : fy_document) (d : ptr * string) : fy_document :=
  snd (fy_document_set_anchor fyd (Some (fst d)) (Some (snd d)) SIZE_MAX).

Definition fy_anchor_declare_all (fyd : fy_document) (ds : list (ptr * string)) : fy_document :=
  List.fold_left fy_anchor_declare ds fyd.

(** ** The mapping sort (fy_node_mapping_sort_cmp_default, fy_node_mapping_perform_sort) *)

(** An entry of the array [fynpp] that [fy_node_mapping_perform_sort] fills:
    a pointer to a pair of the mapping.  The entry carries the pair together
    with its position in the mapping's list, which is what
    [fy_node_mapping_get_pair_index(fynp->parent, fynp)] computes for a pair
    whose [parent] is the mapping being sorted. *)
Abbreviation fy_sort_entry := (nat * fy_node_pair)%type.

Abbreviation fy_sort_fn := (fy_sort_entry -> fy_sort_entry -> Z).

(** [str_a] and [len_a] of the default comparator: the empty string for a
    NULL key, the text for a scalar key, NULL for a sequence or mapping. *)
Definition fy_sort_str (fynp : fy_node_pair) : option string :=
  match key fynp with
  | None => Some EmptyString
  | Some k =>
    if fy_node_is_scalar (Some k)
    then Some (fy_token_get_text (fy_scalar_token k))
    else None
  end.

(** [fy_node_mapping_sort_cmp_default]. *)
Definition fy_node_mapping_sort_cmp_default (fynp_a fynp_b : fy_sort_entry) : Z :=
  let str_a := fy_sort_str (snd fynp_a) in
  let str_b := fy_sort_str (snd fynp_b) in
  let len_a := match str_a with Some s => String.length s | None => 0 end in
  let len_b := match str_b with Some s => String.length s | None => 0 end in
  let min_len := if Nat.ltb len_a len_b then len_a else len_b in
  match str_a, str_b with
  | Some sa, Some sb => strncmp sa sb min_len
  | None, Some _ => (-1)%Z
  | Some _, None => 1%Z
  | None, None =>
    let type_a := fy_node_get_type (key (snd fynp_a)) in
    let type_b := fy_node_get_type (key (snd fynp_b)) in
    if negb (fy_node_type_eqb type_a type_b)
    then (if fy_node_type_eqb type_a FYNT_MAPPING then (-1)%Z else 1%Z)
    else
      let idx_a := fst fynp_a in
      let idx_b := fst fynp_b in
      if Nat.ltb idx_b idx_a then 1%Z else if Nat.ltb idx_a idx_b then (-1)%Z else 0%Z
  end.

(** The pairs of a mapping with their positions. *)
Definition fy_index_pairs (mapping : list fy_node_pair) : list fy_sort_entry :=
  List.combine (List.seq 0 (List.length mapping)) mapping.

(** A stable insertion sort, the reading of [qsort_r] used to run the model
    on concrete documents: an entry moves before another only when the
    comparator returns a negative value for it. *)
Fixpoint fy_sort_insert {A : Type} (cmp : A -> A -> Z) (x : A) (l : list A) : list A :=
  match l with
  | [] => [x]
  | y :: r => if (cmp y x <=? 0)%Z then y :: fy_sort_insert cmp x r else x :: y :: r
  end.

Fixpoint fy_stable_sort {A : Type} (cmp : A -> A -> Z) (l : list A) : list A :=
  match l with
  | [] => []
  | x :: r => fy_sort_insert cmp x (fy_stable_sort cmp r)
  end.

(** The stable sort as [qsort_r]. *)
Definition fy_qsort : fy_sort_fn -> list fy_sort_entry -> list fy_sort_entry :=
  @fy_stable_sort fy_sort_entry.

(** Deciding that two address lists share nothing. *)
Definition fy_addrs_disjoint (l1 l2 : list ptr) : bool :=
  List.forallb (fun a => negb (List.existsb (Nat.eqb a) l2)) l1.

(** The heights of the children of a sequence and of a mapping. *)
Definition fy_items_height (l : list fy_node) : nat :=
  List.fold_right (fun x acc => Nat.max (fy_node_height x) acc) 0 l.

Definition fy_pairs_height (l : list fy_node_pair) : nat :=
  List.fold_right
    (fun p acc => Nat.max (Nat.max (fy_height (key p)) (fy_height (value p))) acc) 0 l.

Section Document.

(** [qsort_r] is the C library's.  All that the document layer relies on is
    that it is a function of the array and the comparator which returns the
    array's elements in some order. *)
Variable qsort_r : fy_sort_fn -> list fy_sort_entry -> list fy_sort_entry.

Hypothesis qsort_r_permutes : forall cmp l, Permutation (qsort_r cmp l) l.

(** [fy_node_mapping_perform_sort]: the first [count] pairs are put in the
    array and sorted; a NULL [key_cmp] selects the default comparator.  The
    callers pass the item count, so the array never needs the trailing NULL. *)
Definition fy_node_mapping_perform_sort (mapping : list fy_node_pair)
           (key_cmp : option fy_sort_fn) (count : nat) : list fy_sort_entry :=
  let fynpp := List.firstn count (fy_index_pairs mapping) in
  let cmp := match key_cmp with
             | Some f => f
             | None => fy_node_mapping_sort_cmp_default
             end in
  qsort_r cmp fynpp.

(** ** Semantic comparison (fy_node_compare) *)

(** [!fyn || (fyn->type == FYNT_SCALAR && fy_token_get_text_length(fyn->scalar) == 0)]. *)
Definition fy_node_is_null (fyn : option fy_node) : bool :=
  match fyn with
  | None => true
  | Some n =>
    fy_node_type_eqb (fy_type n) FYNT_SCALAR
    && Nat.eqb (fy_token_get_text_length (fy_scalar_token n)) 0
  end.

(** The sequence loop of [fy_node_compare]: items are compared in step until
    one differs or a list ends; lists of different lengths differ. *)
Fixpoint fy_compare_sequence (cmp : option fy_node -> option fy_node -> bool)
         (l1 l2 : list fy_node) : bool :=
  match l1, l2 with
  | fyni1 :: r1, fyni2 :: r2 =>
    if cmp (Some fyni1) (Some fyni2) then fy_compare_sequence cmp r1 r2 else false
  | [], [] => true
  | _, _ => false
  end.

(** The mapping loop of [fy_node_compare] over the two sorted arrays, which
    have [count1] entries each. *)
Fixpoint fy_compare_mapping (cmp : option fy_node -> option fy_node -> bool)
         (fynpp1 fynpp2 : list fy_sort_entry) : bool :=
  match fynpp1, fynpp2 with
  | fynp1 :: r1, fynp2 :: r2 =>
    if cmp (key (snd fynp1)) (key (snd fynp2))
    then (if cmp (value (snd fynp1)) (value (snd fynp2))
          then fy_compare_mapping cmp r1 r2
          else false)
    else false
  | [], _ => true
  | _ :: _, [] => false
  end.

(** [fy_node_compare], with the depth of the C recursion as an explicit
    budget: a call that would recurse deeper than [depth] returns false. *)
Fixpoint fy_node_compare_rec (depth : nat) (fyn1 fyn2 : option fy_node) : bool :=
  match depth with
  | O => false
  | S depth' =>
    if fy_ptr_eqb fyn1 fyn2 then true
    else
      let null1 := fy_node_is_null fyn1 in
      let null2 := fy_node_is_null fyn2 in
      if null1 && null2 then true
      else if null1 || null2 then false
      else
        match fyn1, fyn2 with
        | Some n1, Some n2 =>
          if negb (fy_node_type_eqb (fy_type n1) (fy_type n2)) then false
          else
          match n1, n2 with
          | fy_sequence _ l1 _ _, fy_sequence _ l2 _ _ =>
            fy_compare_sequence (fy_node_compare_rec depth') l1 l2
          | fy_mapping _ m1 _ _, fy_mapping _ m2 _ _ =>
            let count1 := List.length m1 in
            let count2 := List.length m2 in
            if negb (Nat.eqb count1 count2) then false
            else
              let fynpp1 := fy_node_mapping_perform_sort m1 None count1 in
              let fynpp2 := fy_node_mapping_perform_sort m2 None count2 in
              fy_compare_mapping (fy_node_compare_rec depth') fynpp1 fynpp2
          | fy_scalar _ s1, fy_scalar _ s2 =>
            let t1 := fy_token_get_text s1 in
            let t2 := fy_token_get_text s2 in
            if negb (Nat.eqb (String.length t1) (String.length t2)) then false
            else memcmp_eq t1 t2 (String.length t1)
          | _, _ => false
          end
        | _, _ => false
        end
  end.

(** [fy_node_compare]: the recursion never goes deeper than the first node
    is nested (lemma [fy_node_compare_rec_enough]), so this budget is never
    exhausted. *)
Definition fy_node_compare (fyn1 fyn2 : option fy_node) : bool :=
  fy_node_compare_rec (S (fy_height fyn1)) fyn1 fyn2.

(** Semantic equality as section 4.7 of the spec words it: (a) both nodes
    are null or empty scalars, or (b) they have the same kind and scalars
    have byte-equal decoded text, sequences have pairwise-equal items in
    order, mappings have equal item counts and, once both are sorted by the
    default key comparator, pairwise-equal keys and values. *)
#[local] Unset Elimination Schemes.
#[local] Set Elimination Schemes.

(** [fy_subnode x n]: [x] is [n] or one of the nodes below it. *)
Inductive fy_subnode (x : fy_node) : fy_node -> Prop :=
| fy_subnode_self : fy_subnode x x
| fy_subnode_item h l s e c :
    In c l -> fy_subnode x c -> fy_subnode x (fy_sequence h l s e)
| fy_subnode_key h l s e p c :
    In p l -> key p = Some c -> fy_subnode x c -> fy_subnode x (fy_mapping h l s e)
| fy_subnode_value h l s e p c :
    In p l -> value p = Some c -> fy_subnode x c -> fy_subnode x (fy_mapping h l s e).

Definition fy_subnode_opt (x : fy_node) (fyn : option fy_node) : Prop :=
  match fyn with
  | Some n => fy_subnode x n
  | None => False
  end.

(** Two trees lie in one memory: nodes at the same address are the same
    node. *)
Definition fy_same_heap (fyn1 fyn2 : option fy_node) : Prop :=
  forall x y, fy_subnode_opt x fyn1 -> fy_subnode_opt y fyn2 ->
              fy_addr x = fy_addr y -> x = y.

(** ** Mapping lookup and mutation *)

(** [fyn->mapping]; the document layer reads it on mappings only. *)
Definition fy_mapping_of (fyn : fy_node) : list fy_node_pair :=
  match fyn with
  | fy_mapping _ l _ _ => l
  | _ => []
  end.

(** [fyn->sequence]; read on sequences only. *)
Definition fy_sequence_of (fyn : fy_node) : list fy_node :=
  match fyn with
  | fy_sequence _ l _ _ => l
  | _ => []
  end.

(** Storing a new pair list in a mapping node. *)
Definition fy_with_mapping (fyn : fy_node) (l : list fy_node_pair) : fy_node :=
  match fyn with
  | fy_mapping h _ s e => fy_mapping h l s e
  | _ => fyn
  end.

(** The scan of [fy_node_mapping_lookup_pair]: the position (counted from
    [i]) of the first pair whose key compares equal to [fyn_key]. *)
Fixpoint fy_pair_list_lookup (mapping : list fy_node_pair) (fyn_key : option fy_node)
         (i : nat) : option nat :=
  match mapping with
  | [] => None
  | fynpi :: rest =>
    if fy_node_compare (key fynpi) fyn_key then Some i
    else fy_pair_list_lookup rest fyn_key (S i)
  end.

(** [fy_node_mapping_lookup_pair]; the pair found is named by its position. *)
Definition fy_node_mapping_lookup_pair (fyn : fy_node) (fyn_key : option fy_node) : option nat :=
  fy_pair_list_lookup (fy_mapping_of fyn) fyn_key 0.

(** [fy_node_mapping_key_is_duplicate]. *)
Definition fy_node_mapping_key_is_duplicate (fyn : fy_node) (fyn_key : option fy_node) : bool :=
  match fy_node_mapping_lookup_pair fyn fyn_key with
  | Some _ => true
  | None => false
  end.

(** [fy_*_list_del] and [fy_*_list_insert_after] of fy-types.h, the element
    named by its position. *)
Definition fy_list_del {A : Type} (l : list A) (i : nat) : list A :=
  List.firstn i l ++ List.skipn (S i) l.

Definition fy_list_insert_after {A : Type} (l : list A) (i : nat) (n : A) : list A :=
  List.firstn (S i) l ++ n :: List.skipn (S i) l.

(** [fy_node_mapping_pair_insert_prepare]: NULL for a NULL or non-mapping
    target and for a key the mapping already has; otherwise the new pair,
    the key's parent cleared and the value's parent set to the mapping. *)
Definition fy_node_mapping_pair_insert_prepare (fyn_map : option fy_node)
           (fyn_key fyn_value : option fy_node) : option fy_node_pair :=
  match fyn_map with
  | None => None
  | Some m =>
    if negb (fy_node_type_eqb (fy_type m) FYNT_MAPPING)
       || fy_node_mapping_key_is_duplicate m fyn_key
    then None
    else Some (mk_pair (option_map (fy_set_parent None) fyn_key)
                       (option_map (fy_set_parent (Some (fy_addr m))) fyn_value))
  end.

(** [fy_node_mapping_append]: the return code and the mapping afterwards. *)
Definition fy_node_mapping_append (fyn_map : option fy_node)
           (fyn_key fyn_value : option fy_node) : Z * option fy_node :=
  match fy_node_mapping_pair_insert_prepare fyn_map fyn_key fyn_value with
  | None => ((-1)%Z, fyn_map)
  | Some fynp =>
    (0%Z, option_map (fun m => fy_with_mapping m (fy_list_add_tail (fy_mapping_of m) fynp)) fyn_map)
  end.

(** [fy_node_mapping_prepend]. *)
Definition fy_node_mapping_prepend (fyn_map : option fy_node)
           (fyn_key fyn_value : option fy_node) : Z * option fy_node :=
  match fy_node_mapping_pair_insert_prepare fyn_map fyn_key fyn_value with
  | None => ((-1)%Z, fyn_map)
  | Some fynp =>
    (0%Z, option_map (fun m => fy_with_mapping m (fy_list_add (fy_mapping_of m) fynp)) fyn_map)
  end.

(** [fy_node_mapping_remove_by_key]: the value returned (its parent
    cleared) and the mapping afterwards.  The pair and its key are freed, and
    so is [fyn_key] when it is another node than the pair's key; freeing is
    not part of the model. *)
Definition fy_node_mapping_remove_by_key (fyn_map : fy_node) (fyn_key : option fy_node)
  : option fy_node * fy_node :=
  match fy_node_mapping_lookup_pair fyn_map fyn_key with
  | None => (None, fyn_map)
  | Some i =>
    match List.nth_error (fy_mapping_of fyn_map) i with
    | None => (None, fyn_map)
    | Some fynp =>
      (option_map (fy_set_parent None) (value fynp),
       fy_with_mapping fyn_map (fy_list_del (fy_mapping_of fyn_map) i))
    end
  end.

(** ** Start and end marks of a node (fy_node_get_start_mark, fy_node_get_end_mark) *)

(** [fy_node_get_start_mark]: the start token's mark, and without a start
    token the mark of the first item or of the first key.  (The C function
    asserts the result is not NULL.) *)
Fixpoint fy_node_get_start_mark_node (fyn : fy_node) : option fy_mark :=
  match fyn with
  | fy_scalar _ s => fy_token_start_mark s
  | fy_sequence _ l ss _ =>
    match fy_token_start_mark ss with
    | Some m => Some m
    | None =>
      match l with
      | fyni :: _ => fy_node_get_start_mark_node fyni
      | [] => None
      end
    end
  | fy_mapping _ l ms _ =>
    match fy_token_start_mark ms with
    | Some m => Some m
    | None =>
      match l with
      | mk_pair (Some k) _ :: _ => fy_node_get_start_mark_node k
      | _ => None
      end
    end
  end.

Definition fy_node_get_start_mark (fyn : option fy_node) : option fy_mark :=
  match fyn with
  | None => None
  | Some n => fy_node_get_start_mark_node n
  end.

(** [fy_node_get_end_mark]: the end token's mark, and without an end token
    the mark of the last item or of the last value. *)
Fixpoint fy_node_get_end_mark_node (fyn : fy_node) : option fy_mark :=
  match fyn with
  | fy_scalar _ s => fy_token_end_mark s
  | fy_sequence _ l _ se =>
    match fy_token_end_mark se with
    | Some m => Some m
    | None =>
      (fix tail (l : list fy_node) : option fy_mark :=
         match l with
         | [] => None
         | [fyni] => fy_node_get_end_mark_node fyni
         | _ :: r => tail r
         end) l
    end
  | fy_mapping _ l _ me =>
    match fy_token_end_mark me with
    | Some m => Some m
    | None =>
      (fix tail (l : list fy_node_pair) : option fy_mark :=
         match l with
         | [] => None
         | [mk_pair _ (Some v)] => fy_node_get_end_mark_node v
         | [_] => None
         | _ :: r => tail r
         end) l
    end
  end.

Definition fy_node_get_end_mark (fyn : option fy_node) : option fy_mark :=
  match fyn with
  | None => None
  | Some n => fy_node_get_end_mark_node n
  end.

(** ** Loading a document from events (fy_parse_document_load_node and callees) *)

(** [struct fy_event], the part of the union each event type carries; the
    document start event's state and the stream tokens are left out. *)
Inductive fy_event : Type :=
| FYET_NONE
| FYET_STREAM_START
| FYET_STREAM_END
| FYET_DOCUMENT_START
| FYET_DOCUMENT_END
| FYET_MAPPING_START (anchor tag mapping_start : option fy_token)
| FYET_MAPPING_END (mapping_end : option fy_token)
| FYET_SEQUENCE_START (anchor tag sequence_start : option fy_token)
| FYET_SEQUENCE_END (sequence_end : option fy_token)
| FYET_SCALAR (anchor tag value : option fy_token)
| FYET_ALIAS (anchor : option fy_token).

(** What [fy_error_report] is given: the message and the marks of
    [struct fy_error_ctx] when the code sets them itself. *)
Record fy_error_ctx : Type := mk_error_ctx {
  ec_msg : string;
  ec_start_mark : option fy_mark;
  ec_end_mark : option fy_mark
}.

(** A status with its result: [fy_ok] is the return code 0, [fy_error] a
    negative one together with the diagnostic. *)
Inductive fy_result (A : Type) : Type :=
| fy_ok (a : A)
| fy_error (ec : fy_error_ctx).

Arguments fy_ok {A} a.
Arguments fy_error {A} ec.

Definition fy_error_msg {A : Type} (msg : string) : fy_result A :=
  fy_error (mk_error_ctx msg None None).

(** [fy_node_alloc]: the node is zeroed, its style is [FYNS_ANY]; the address
    is the allocator's next one. *)
Definition fy_node_alloc_hdr (fyd : fy_document) : fy_node_hdr * fy_document :=
  (mk_hdr (fyd_brk fyd) None FYNS_ANY None,
   mk_document (fyd_anchors fyd) (fyd_root fyd) (S (fyd_brk fyd))).

Definition fy_hdr_with (h : fy_node_hdr) (style : fy_node_style) (tag : option fy_token)
  : fy_node_hdr :=
  mk_hdr (fyn_addr h) (fyn_parent h) style tag.

(** The anchor registration shared by the three loaders: nothing to do
    without an anchor token. *)
Definition fy_load_register_anchor (fyd : fy_document) (fyn : ptr) (anchor : option fy_token)
  : Z * fy_document :=
  match anchor with
  | None => (0%Z, fyd)
  | Some t => fy_parse_document_register_anchor fyd fyn t
  end.

(** [fy_parse_document_load_scalar], for a scalar or an alias event. *)
Definition fy_parse_document_load_scalar (fyd : fy_document) (fye : fy_event)
  : fy_result fy_node * fy_document :=
  let (h, fyd) := fy_node_alloc_hdr fyd in
  match fye with
  | FYET_SCALAR anchor tag value =>
    let style := match value with
                 | Some v => fy_node_style_from_scalar_style (fyt_scalar_style v)
                 | None => FYNS_PLAIN
                 end in
    let fyn := fy_scalar (fy_hdr_with h style tag) value in
    let (rc, fyd) := fy_load_register_anchor fyd (fyn_addr h) anchor in
    if (rc =? 0)%Z then (fy_ok fyn, fyd)
    else (fy_error_msg "duplicate anchor", fyd)
  | FYET_ALIAS anchor =>
    (fy_ok (fy_scalar (fy_hdr_with h FYNS_ALIAS None) anchor), fyd)
  | _ => (fy_error_msg "bad event", fyd)
  end.

Definition fy_token_is (ty : fy_token_type) (fyt : option fy_token) : bool :=
  match fyt with
  | Some t =>
    match fyt_type t, ty with
    | FYTT_FLOW_SEQUENCE_START, FYTT_FLOW_SEQUENCE_START => true
    | FYTT_FLOW_MAPPING_START, FYTT_FLOW_MAPPING_START => true
    | _, _ => false
    end
  | None => false
  end.

(** The answer of a loader: the node or the error, the document and the
    events left in the parser. *)
Abbreviation fy_load := (fy_result fy_node * fy_document * list fy_event)%type.

(** The loaders.  [fuel] counts calls and loop rounds: a loader that is not
    done within [fuel] of them answers [None].  [fyp] holds the events
    [fy_parse_private] has yet to return, [fyep] the event in hand.
    - [fy_parse_document_load_node] dispatches on the event type;
    - [fy_parse_document_load_sequence] and [fy_parse_document_load_mapping]
      allocate the node, attach tag and anchor and run their loop;
    - the loops pull events until the matching end event.  A stream that
      runs dry inside a collection leaves the loop as an end event with no
      token would. *)
Fixpoint fy_parse_document_load_node (fuel : nat) (fyd : fy_document)
         (fyp : list fy_event) (fyep : option fy_event) {struct fuel} : option fy_load :=
  match fuel with
  | O => None
  | S fuel =>
    match fyep with
    | None => Some (fy_error_msg "premature end of event stream", fyd, fyp)
    | Some fye =>
      match fye with
      | FYET_ALIAS _ | FYET_SCALAR _ _ _ =>
        let (r, fyd) := fy_parse_document_load_scalar fyd fye in Some (r, fyd, fyp)
      | FYET_SEQUENCE_START anchor tag ss =>
        fy_parse_document_load_sequence fuel fyd fyp anchor tag ss
      | FYET_MAPPING_START anchor tag ms =>
        fy_parse_document_load_mapping fuel fyd fyp anchor tag ms
      | _ => Some (fy_error_msg "bad event", fyd, fyp)
      end
    end
  end

with fy_parse_document_load_sequence (fuel : nat) (fyd : fy_document)
         (fyp : list fy_event) (anchor tag ss : option fy_token) {struct fuel}
  : option fy_load :=
  match fuel with
  | O => None
  | S fuel =>
    let (h, fyd) := fy_node_alloc_hdr fyd in
    let style := if fy_token_is FYTT_FLOW_SEQUENCE_START ss then FYNS_FLOW else FYNS_BLOCK in
    let h := fy_hdr_with h style tag in
    let (rc, fyd) := fy_load_register_anchor fyd (fyn_addr h) anchor in
    if negb (rc =? 0)%Z then Some (fy_error_msg "duplicate anchor", fyd, fyp)
    else fy_load_sequence_loop fuel fyd fyp h ss []
  end

with fy_load_sequence_loop (fuel : nat) (fyd : fy_document) (fyp : list fy_event)
         (h : fy_node_hdr) (ss : option fy_token) (items : list fy_node) {struct fuel}
  : option fy_load :=
  match fuel with
  | O => None
  | S fuel =>
    match fyp with
    | [] => Some (fy_ok (fy_sequence h items ss None), fyd, [])
    | FYET_SEQUENCE_END se :: fyp => Some (fy_ok (fy_sequence h items ss se), fyd, fyp)
    | fye :: fyp =>
      match fy_parse_document_load_node fuel fyd fyp (Some fye) with
      | None => None
      | Some (fy_error ec, fyd, fyp) => Some (fy_error ec, fyd, fyp)
      | Some (fy_ok fyn_item, fyd, fyp) =>
        fy_load_sequence_loop fuel fyd fyp h ss (fy_list_add_tail items fyn_item)
      end
    end
  end

with fy_parse_document_load_mapping (fuel : nat) (fyd : fy_document)
         (fyp : list fy_event) (anchor tag ms : option fy_token) {struct fuel}
  : option fy_load :=
  match fuel with
  | O => None
  | S fuel =>
    let (h, fyd) := fy_node_alloc_hdr fyd in
    let style := if fy_token_is FYTT_FLOW_MAPPING_START ms then FYNS_FLOW else FYNS_BLOCK in
    let h := fy_hdr_with h style tag in
    let (rc, fyd) := fy_load_register_anchor fyd (fyn_addr h) anchor in
    if negb (rc =? 0)%Z then Some (fy_error_msg "duplicate anchor", fyd, fyp)
    else fy_load_mapping_loop fuel fyd fyp h ms []
  end

with fy_load_mapping_loop (fuel : nat) (fyd : fy_document) (fyp : list fy_event)
         (h : fy_node_hdr) (ms : option fy_token) (pairs : list fy_node_pair) {struct fuel}
  : option fy_load :=
  match fuel with
  | O => None
  | S fuel =>
    match fyp with
    | [] => Some (fy_ok (fy_mapping h pairs ms None), fyd, [])
    | FYET_MAPPING_END me :: fyp => Some (fy_ok (fy_mapping h pairs ms me), fyd, fyp)
    | fye :: fyp =>
      match fy_parse_document_load_node fuel fyd fyp (Some fye) with
      | None => None
      | Some (fy_error ec, fyd, fyp) => Some (fy_error ec, fyd, fyp)
      | Some (fy_ok fyn_key, fyd, fyp) =>
        (* make sure we don't add an already existing key *)
        if fy_node_mapping_key_is_duplicate (fy_mapping h pairs ms None) (Some fyn_key)
        then Some (fy_error (mk_error_ctx "duplicate key"
                                          (fy_node_get_start_mark (Some fyn_key))
                                          (fy_node_get_end_mark (Some fyn_key))),
                   fyd, fyp)
        else
          match fyp with
          | [] => Some (fy_error_msg "missing mapping value", fyd, [])
          | fye :: fyp =>
            match fy_parse_document_load_node fuel fyd fyp (Some fye) with
            | None => None
            | Some (fy_error ec, fyd, fyp) => Some (fy_error ec, fyd, fyp)
            | Some (fy_ok fyn_value, fyd, fyp) =>
              fy_load_mapping_loop fuel fyd fyp h ms
                (fy_list_add_tail pairs (mk_pair (Some fyn_key) (Some fyn_value)))
            end
          end
      end
    end
  end.

(** ** Deep copy (fy_node_copy, fy_node_copy_to_scalar) *)

(** Dereferencing a node pointer: the node at address [p] in the tree. *)
Fixpoint fy_find_node (p : ptr) (fyn : fy_node) : option fy_node :=
  if Nat.eqb (fy_addr fyn) p then Some fyn
  else
    match fyn with
    | fy_scalar _ _ => None
    | fy_sequence _ l _ _ =>
      (fix items (l : list fy_node) : option fy_node :=
         match l with
         | [] => None
         | x :: r =>
           match fy_find_node p x with
           | Some n => Some n
           | None => items r
           end
         end) l
    | fy_mapping _ l _ _ =>
      (fix pairs (l : list fy_node_pair) : option fy_node :=
         match l with
         | [] => None
         | mk_pair k v :: r =>
           match (match k with Some n => fy_find_node p n | None => None end) with
           | Some n => Some n
           | None =>
             match (match v with Some n => fy_find_node p n | None => None end) with
             | Some n => Some n
             | None => pairs r
             end
           end
         end) l
    end.

(** [*p] for a pointer into the tree below [root]; NULL stays NULL. *)
Definition fy_deref (root : fy_node) (p : option ptr) : option fy_node :=
  match p with
  | Some a => fy_find_node a root
  | None => None
  end.

(** The tail of [fy_node_copy]: "drop an anchor to the copy".  When the
    source node carries an anchor whose name the document does not have yet,
    the copy is registered under it; within one document the name is there
    already and nothing happens.  A failed registration fails the copy. *)
Definition fy_node_copy_anchor (fyd : fy_document) (fyn_from : fy_node) (fyn : fy_node)
  : option fy_node * fy_document :=
  match List.find (fy_anchor_on (fy_addr fyn_from)) (fyd_anchors fyd) with
  | None => (Some fyn, fyd)
  | Some fya_from =>
    match fy_document_lookup_anchor_by_token fyd (Some (fya_anchor fya_from)) with
    | Some _ => (Some fyn, fyd)
    | None =>
      let (rc, fyd) :=
        fy_parse_document_register_anchor fyd (fy_addr fyn) (fya_anchor fya_from) in
      if (rc =? 0)%Z then (Some fyn, fyd) else (None, fyd)
    end
  end.

(** [fy_node_copy] of a node of the same document: a new node of the same
    type, tag and style, a scalar sharing the token, a sequence or mapping
    holding copies of the items, keys and values.  The copy and everything
    in it is freshly allocated; no parent link is set. *)
Fixpoint fy_node_copy_node (fyn_from : fy_node) (fyd : fy_document) {struct fyn_from}
  : option fy_node * fy_document :=
  let (h, fyd) := fy_node_alloc_hdr fyd in
  let h := fy_hdr_with h (fy_style fyn_from) (fyn_tag (fy_hdr fyn_from)) in
  match fyn_from with
  | fy_scalar _ s => fy_node_copy_anchor fyd fyn_from (fy_scalar h s)
  | fy_sequence _ l _ _ =>
    let '(items, fyd) :=
      (fix items (l : list fy_node) (fyd : fy_document)
         : option (list fy_node) * fy_document :=
         match l with
         | [] => (Some [], fyd)
         | fyni :: r =>
           match fy_node_copy_node fyni fyd with
           | (None, fyd) => (None, fyd)
           | (Some fynit, fyd) =>
             match items r fyd with
             | (None, fyd) => (None, fyd)
             | (Some rest, fyd) => (Some (fynit :: rest), fyd)
             end
           end
         end) l fyd in
    match items with
    | None => (None, fyd)
    | Some items => fy_node_copy_anchor fyd fyn_from (fy_sequence h items None None)
    end
  | fy_mapping _ l _ _ =>
    let '(pairs, fyd) :=
      (fix pairs (l : list fy_node_pair) (fyd : fy_document)
         : list fy_node_pair * fy_document :=
         match l with
         | [] => ([], fyd)
         | mk_pair k v :: r =>
           let '(kt, fyd) :=
             match k with
             | Some n => fy_node_copy_node n fyd
             | None => (None, fyd)
             end in
           let '(vt, fyd) :=
             match v with
             | Some n => fy_node_copy_node n fyd
             | None => (None, fyd)
             end in
           let '(rest, fyd) := pairs r fyd in
           (mk_pair kt vt :: rest, fyd)
         end) l fyd in
    fy_node_copy_anchor fyd fyn_from (fy_mapping h pairs None None)
  end.

(** [fy_node_copy]: NULL for a NULL source. *)
Definition fy_node_copy (fyd : fy_document) (fyn_from : option fy_node)
  : option fy_node * fy_document :=
  match fyn_from with
  | None => (None, fyd)
  | Some n => fy_node_copy_node n fyd
  end.

(** What freeing a single node does to the anchor list: the anchors located
    on the freed node go. *)
Definition fy_anchors_drop_node (fyd : fy_document) (fyn : ptr) : fy_document :=
  fy_document_with_anchors fyd
    (List.filter (fun fya => negb (fy_anchor_on fyn fya)) (fyd_anchors fyd)).

(** The addresses of a node and of all nodes below it. *)
Fixpoint fy_node_addrs (fyn : fy_node) : list ptr :=
  fy_addr fyn ::
  match fyn with
  | fy_scalar _ _ => []
  | fy_sequence _ l _ _ => List.flat_map fy_node_addrs l
  | fy_mapping _ l _ _ =>
    List.flat_map
      (fun p : fy_node_pair =>
         let (k, v) := p in
         (match k with Some n => fy_node_addrs n | None => [] end)
         ++ (match v with Some n => fy_node_addrs n | None => [] end))
      l
  end.

(** [fy_node_free], as far as the document sees it: the anchors located on
    the node or below it are removed. *)
Definition fy_node_free (fyd : fy_document) (fyn : option fy_node) : fy_document :=
  match fyn with
  | None => fyd
  | Some n => List.fold_left fy_anchors_drop_node (fy_node_addrs n) fyd
  end.

(** [fy_node_pair_free]. *)
Definition fy_node_pair_free (fyd : fy_document) (fynp : fy_node_pair) : fy_document :=
  fy_node_free (fy_node_free fyd (key fynp)) (value fynp).

(** [fy_node_copy_to_scalar]: the alias node [fyn_to] takes over type, tag,
    style and content of a copy of [fyn_from]; it stays where it is (address
    and parent), and the emptied copy is freed. *)
Definition fy_node_copy_to_scalar (fyd : fy_document) (fyn_to : fy_node)
           (fyn_from : option fy_node) : Z * fy_node * fy_document :=
  match fy_node_copy fyd fyn_from with
  | (None, fyd) => ((-1)%Z, fyn_to, fyd)
  | (Some fyn, fyd) =>
    let h := mk_hdr (fy_addr fyn_to) (fyn_parent (fy_hdr fyn_to))
                    (fy_style fyn) (fyn_tag (fy_hdr fyn)) in
    let fyn_to :=
      match fyn with
      | fy_scalar _ s => fy_scalar h s
      | fy_sequence _ l _ _ => fy_sequence h l None None
      | fy_mapping _ l _ _ => fy_mapping h l None None
      end in
    (0%Z, fyn_to, fy_anchors_drop_node fyd (fy_addr fyn))
  end.

(** ** The resolver (fy_resolve_alias, fy_resolve_merge_key, fy_resolve_anchor_node) *)

(** The resolver rewrites nodes in place while anchors point into the tree.
    A call on a node is therefore given, besides the node, the way back to
    the root: [ctx fyn'] is the whole tree as it is when the node reads
    [fyn'].  Dereferencing an anchor's [fyn] goes through it. *)
Abbreviation fy_ctx := (fy_node -> fy_node).

(** Storing a new item list in a sequence node. *)
Definition fy_with_sequence (fyn : fy_node) (l : list fy_node) : fy_node :=
  match fyn with
  | fy_sequence h _ s e => fy_sequence h l s e
  | _ => fyn
  end.

(** Overwriting the element at position [i]. *)
Definition fy_list_set {A : Type} (l : list A) (i : nat) (x : A) : list A :=
  List.firstn i l ++ x :: List.skipn (S i) l.

(** [fy_node_is_alias]. *)
Definition fy_node_is_alias (fyn : option fy_node) : bool :=
  match fyn with
  | Some n => fy_node_type_eqb (fy_type n) FYNT_SCALAR && fy_node_style_eqb (fy_style n) FYNS_ALIAS
  | None => false
  end.

(** [fy_resolve_alias]: an alias without an anchor is the error "invalid
    alias"; otherwise the anchored node is copied over the alias node. *)
Definition fy_resolve_alias (fyd : fy_document) (root : fy_node) (fyn : fy_node)
  : Z * fy_node * fy_document :=
  match fy_document_lookup_anchor_by_token fyd (fy_scalar_token fyn) with
  | None => ((-1)%Z, fyn, fyd)
  | Some fya => fy_node_copy_to_scalar fyd fyn (fy_deref root (fya_fyn fya))
  end.

(** [fy_node_pair_is_merge_key]. *)
Definition fy_node_pair_is_merge_key (fynp : fy_node_pair) : bool :=
  match key fynp with
  | Some fyn =>
    fy_node_type_eqb (fy_type fyn) FYNT_SCALAR
    && fy_node_style_eqb (fy_style fyn) FYNS_PLAIN
    && fy_plain_atom_streq (fy_scalar_token fyn) "<<"
  | None => false
  end.

(** [fy_alias_get_merge_mapping]: the mapping an alias node names, or NULL. *)
Definition fy_alias_get_merge_mapping (fyd : fy_document) (root : fy_node)
           (fyn : option fy_node) : option fy_node :=
  if negb (fy_node_is_alias fyn) then None
  else
    match fyn with
    | None => None
    | Some n =>
      match fy_document_lookup_anchor_by_token fyd (fy_scalar_token n) with
      | None => None
      | Some fya =>
        match fy_deref root (fya_fyn fya) with
        | Some m => if fy_node_type_eqb (fy_type m) FYNT_MAPPING then Some m else None
        | None => None
        end
      end
    end.

(** [fy_node_pair_is_valid_merge_key]. *)
Definition fy_node_pair_is_valid_merge_key (fyd : fy_document) (root : fy_node)
           (fynp : fy_node_pair) : bool :=
  match value fynp with
  | None => false
  | Some fyn =>
    match fy_alias_get_merge_mapping fyd root (Some fyn) with
    | Some _ => true
    | None =>
      if negb (fy_node_type_eqb (fy_type fyn) FYNT_SEQUENCE) then false
      else
        List.forallb
          (fun fyni =>
             match fy_alias_get_merge_mapping fyd root (Some fyni) with
             | Some _ => true
             | None => false
             end)
          (fy_sequence_of fyn)
    end
  end.

(** One round of the loop of [fy_resolve_merge_key_populate], for the pair
    [fynpi] of the merged mapping: a key the target [fyn] already has is
    passed over, otherwise copies of key and value are linked in right after
    the merge pair, which stands at position [i]. *)
Definition fy_resolve_merge_key_populate_pair (fyd : fy_document) (fyn : fy_node)
           (i : nat) (fynpi : fy_node_pair) : fy_node * fy_document :=
  (* make sure we don't override an already existing key *)
  if fy_node_mapping_key_is_duplicate fyn (key fynpi) then (fyn, fyd)
  else
    let (k, fyd) := fy_node_copy fyd (key fynpi) in
    let (v, fyd) := fy_node_copy fyd (value fynpi) in
    (fy_with_mapping fyn (fy_list_insert_after (fy_mapping_of fyn) i (mk_pair k v)), fyd).

(** The loop of [fy_resolve_merge_key_populate] over the pairs of the
    mapping [fynm], taken by position ([js]).  [fyn] is the target mapping,
    [i] the position of the merge pair in it, [pm] the address of [fynm];
    each round reads its pair through the tree as it is then. *)
Fixpoint fy_resolve_merge_key_populate_loop (fyd : fy_document) (ctx : fy_ctx)
         (fyn : fy_node) (i : nat) (pm : ptr) (js : list nat)
  : fy_node * fy_document :=
  match js with
  | [] => (fyn, fyd)
  | j :: js =>
    match option_map fy_mapping_of (fy_find_node pm (ctx fyn)) with
    | None => (fyn, fyd)
    | Some m =>
      match List.nth_error m j with
      | None => (fyn, fyd)
      | Some fynpi =>
        let (fyn, fyd) := fy_resolve_merge_key_populate_pair fyd fyn i fynpi in
        fy_resolve_merge_key_populate_loop fyd ctx fyn i pm js
      end
    end
  end.

(** [fy_resolve_merge_key_populate]. *)
Definition fy_resolve_merge_key_populate (fyd : fy_document) (ctx : fy_ctx)
           (fyn : fy_node) (i : nat) (fynm : fy_node) : Z * fy_node * fy_document :=
  if negb (fy_node_type_eqb (fy_type fyn) FYNT_MAPPING
           && fy_node_type_eqb (fy_type fynm) FYNT_MAPPING)
  then ((-1)%Z, fyn, fyd)
  else
    let (fyn, fyd) :=
      fy_resolve_merge_key_populate_loop fyd ctx fyn i (fy_addr fynm)
        (List.seq 0 (List.length (fy_mapping_of fynm))) in
    (0%Z, fyn, fyd).

(** The loop of [fy_resolve_merge_key] over a sequence of aliases. *)
Fixpoint fy_resolve_merge_key_loop (fyd : fy_document) (ctx : fy_ctx)
         (fyn : fy_node) (i : nat) (items : list fy_node) : Z * fy_node * fy_document :=
  match items with
  | [] => (0%Z, fyn, fyd)
  | fyni :: items =>
    match fy_alias_get_merge_mapping fyd (ctx fyn) (Some fyni) with
    | None => ((-1)%Z, fyn, fyd)
    | Some fynm =>
      let '(rc, fyn, fyd) := fy_resolve_merge_key_populate fyd ctx fyn i fynm in
      if negb (rc =? 0)%Z then (rc, fyn, fyd)
      else fy_resolve_merge_key_loop fyd ctx fyn i items
    end
  end.

(** [fy_resolve_merge_key] for the pair at position [i] of the mapping
    [fyn]: an invalid value is the error "invalid merge key value". *)
Definition fy_resolve_merge_key (fyd : fy_document) (ctx : fy_ctx)
           (fyn : fy_node) (i : nat) : Z * fy_node * fy_document :=
  match List.nth_error (fy_mapping_of fyn) i with
  | None => ((-1)%Z, fyn, fyd)
  | Some fynp =>
    if negb (fy_node_pair_is_valid_merge_key fyd (ctx fyn) fynp) then ((-1)%Z, fyn, fyd)
    else
      let fynv := value fynp in
      match fy_alias_get_merge_mapping fyd (ctx fyn) fynv with
      | Some fynm => fy_resolve_merge_key_populate fyd ctx fyn i fynm
      | None =>
        match fynv with
        | Some (fy_sequence _ items _ _) => fy_resolve_merge_key_loop fyd ctx fyn i items
        | _ => ((-1)%Z, fyn, fyd)
        end
      end
  end.

(** [if (rc && !ret_rc) ret_rc = rc]. *)
Definition fy_keep_rc (ret_rc rc : Z) : Z :=
  if negb (rc =? 0)%Z && (ret_rc =? 0)%Z then rc else ret_rc.

(** The answer of a resolver call: the return code, the node as the call
    leaves it, and the document. *)
Abbreviation fy_resolved := (Z * fy_node * fy_document)%type.

(** The sequence loop of [fy_resolve_anchor_node].  [todo] items are still
    to visit; the item in hand is at position [length - todo]. *)
Fixpoint fy_resolve_sequence_loop
         (resolve : fy_document -> fy_ctx -> fy_node -> option fy_resolved)
         (fyd : fy_document) (ctx : fy_ctx) (fyn : fy_node) (todo : nat) (ret_rc : Z)
  : option fy_resolved :=
  match todo with
  | O => Some (ret_rc, fyn, fyd)
  | S todo =>
    let l := fy_sequence_of fyn in
    let i := List.length l - S todo in
    match List.nth_error l i with
    | None => Some (ret_rc, fyn, fyd)
    | Some fyni =>
      let ctx_i := fun c => ctx (fy_with_sequence fyn (fy_list_set l i c)) in
      match resolve fyd ctx_i fyni with
      | None => None
      | Some (rc, fyni, fyd) =>
        fy_resolve_sequence_loop resolve fyd ctx
          (fy_with_sequence fyn (fy_list_set l i fyni)) todo (fy_keep_rc ret_rc rc)
      end
    end
  end.

(** Resolving a key or a value, which may be NULL. *)
Definition fy_resolve_opt
           (resolve : fy_document -> fy_ctx -> fy_node -> option fy_resolved)
           (fyd : fy_document) (ctx : option fy_node -> fy_node) (fyn : option fy_node)
  : option (Z * option fy_node * fy_document) :=
  match fyn with
  | None => Some (0%Z, None, fyd)
  | Some n =>
    match resolve fyd (fun c => ctx (Some c)) n with
    | None => None
    | Some (rc, n, fyd) => Some (rc, Some n, fyd)
    end
  end.

(** The mapping loop of [fy_resolve_anchor_node].  [todo] pairs are still to
    visit: the pair in hand is at position [length - todo], and [fynpi], the
    pair the loop goes to next, is the one with [todo - 1] pairs from it to
    the tail.  A merge pair is expanded and, when that succeeded, unlinked;
    the pairs it brought in stand before [fynpi] and are not visited. *)
Fixpoint fy_resolve_mapping_loop
         (resolve : fy_document -> fy_ctx -> fy_node -> option fy_resolved)
         (fyd : fy_document) (ctx : fy_ctx) (fyn : fy_node) (todo : nat) (ret_rc : Z)
  : option fy_resolved :=
  match todo with
  | O => Some (ret_rc, fyn, fyd)
  | S todo =>
    let l := fy_mapping_of fyn in
    let i := List.length l - S todo in
    match List.nth_error l i with
    | None => Some (ret_rc, fyn, fyd)
    | Some fynp =>
      if fy_node_pair_is_merge_key fynp then
        let '(rc, fyn, fyd) := fy_resolve_merge_key fyd ctx fyn i in
        let ret_rc := fy_keep_rc ret_rc rc in
        (* remove this node pair *)
        if (rc =? 0)%Z
        then fy_resolve_mapping_loop resolve (fy_node_pair_free fyd fynp) ctx
               (fy_with_mapping fyn (fy_list_del (fy_mapping_of fyn) i)) todo ret_rc
        else fy_resolve_mapping_loop resolve fyd ctx fyn todo ret_rc
      else
        let ctx_k := fun k => ctx (fy_with_mapping fyn (fy_list_set l i (mk_pair k (value fynp)))) in
        match fy_resolve_opt resolve fyd ctx_k (key fynp) with
        | None => None
        | Some (rc, k, fyd) =>
          let ret_rc := fy_keep_rc ret_rc rc in
          let ctx_v := fun v => ctx (fy_with_mapping fyn (fy_list_set l i (mk_pair k v))) in
          match fy_resolve_opt resolve fyd ctx_v (value fynp) with
          | None => None
          | Some (rc, v, fyd) =>
            fy_resolve_mapping_loop resolve fyd ctx
              (fy_with_mapping fyn (fy_list_set l i (mk_pair k v))) todo (fy_keep_rc ret_rc rc)
          end
        end
    end
  end.

(** [fy_resolve_anchor_node] on a node that is not NULL.  [depth] is the
    budget of nested calls; [None] is a call that would go deeper. *)
Fixpoint fy_resolve_anchor_node (depth : nat) (fyd : fy_document) (ctx : fy_ctx)
         (fyn : fy_node) {struct depth} : option fy_resolved :=
  match depth with
  | O => None
  | S depth =>
    if fy_node_is_alias (Some fyn) then Some (fy_resolve_alias fyd (ctx fyn) fyn)
    else
      match fyn with
      | fy_sequence _ l _ _ =>
        fy_resolve_sequence_loop (fy_resolve_anchor_node depth) fyd ctx fyn (List.length l) 0%Z
      | fy_mapping _ l _ _ =>
        fy_resolve_mapping_loop (fy_resolve_anchor_node depth) fyd ctx fyn (List.length l) 0%Z
      | fy_scalar _ _ => Some (0%Z, fyn, fyd)
      end
  end.

(** [fy_resolve_parent_node]: a mapping key has no parent, the other
    children have the node they hang on. *)
Fixpoint fy_resolve_parent_node (fyn : fy_node) (fyn_parent : option ptr) : fy_node :=
  let set h := mk_hdr (fyn_addr h) fyn_parent (fyn_style h) (fyn_tag h) in
  match fyn with
  | fy_scalar h s => fy_scalar (set h) s
  | fy_sequence h l s e =>
    fy_sequence (set h)
      (List.map (fun c => fy_resolve_parent_node c (Some (fyn_addr h))) l) s e
  | fy_mapping h l s e =>
    fy_mapping (set h)
      (List.map (fun p : fy_node_pair =>
                   let (k, v) := p in
                   mk_pair
                     (match k with
                      | Some n => Some (fy_resolve_parent_node n None)
                      | None => None
                      end)
                     (match v with
                      | Some n => Some (fy_resolve_parent_node n (Some (fyn_addr h)))
                      | None => None
                      end))
                l) s e
  end.

(** [fy_document_resolve], run with a budget of [depth] nested calls. *)
Definition fy_document_resolve (depth : nat) (fyd : fy_document) : option (Z * fy_document) :=
  match fyd_root fyd with
  | None => Some (0%Z, fyd)
  | Some root =>
    match fy_resolve_anchor_node depth fyd (fun r => r) root with
    | None => None
    | Some (rc, root, fyd) =>
      Some (rc, mk_document (fyd_anchors fyd)
                            (Some (fy_resolve_parent_node root None)) (fyd_brk fyd))
    end
  end.

(** The steps of [fy_parse_load_document] that follow the document start
    event: the root is loaded, the next event must end the document, the
    parent links are set, and with [FYPCF_RESOLVE_DOCUMENT] the document is
    resolved.  [fuel] bounds the loaders, [depth] the resolver. *)
Definition fy_parse_load_document_root (fuel depth : nat) (resolve : bool)
           (fyd : fy_document) (fyp : list fy_event) : option (fy_result fy_document) :=
  match fyp with
  | [] => Some (fy_error_msg "premature end of event stream")
  | fye :: fyp =>
    match fy_parse_document_load_node fuel fyd fyp (Some fye) with
    | None => None
    | Some (fy_error ec, _, _) => Some (fy_error ec)
    | Some (fy_ok root, fyd, fyp) =>
      match fyp with
      | FYET_DOCUMENT_END :: _ =>
        let fyd := mk_document (fyd_anchors fyd)
                               (Some (fy_resolve_parent_node root None)) (fyd_brk fyd) in
        if resolve then
          match fy_document_resolve depth fyd with
          | None => None
          | Some (rc, fyd) =>
            if (rc =? 0)%Z then Some (fy_ok fyd)
            else Some (fy_error_msg "fy_document_resolve() failed")
          end
        else Some (fy_ok fyd)
      | [] => Some (fy_error_msg "premature end of event stream")
      | _ => Some (fy_error_msg "bad event")
      end
    end
  end.

(** ** Reading a tree back *)




(** Some pair in the tree has a plain [<<] key. *)
Fixpoint fy_node_has_merge_key (fyn : fy_node) : bool :=
  match fyn with
  | fy_scalar _ _ => false
  | fy_sequence _ l _ _ => List.existsb fy_node_has_merge_key l
  | fy_mapping _ l _ _ =>
    List.existsb
      (fun p : fy_node_pair =>
         fy_node_pair_is_merge_key p
         || (let (k, v) := p in
             (match k with Some n => fy_node_has_merge_key n | None => false end)
             || (match v with Some n => fy_node_has_merge_key n | None => false end)))
      l
  end.

(** Some node in the tree is an alias. *)
Fixpoint fy_node_has_alias (fyn : fy_node) : bool :=
  fy_node_is_alias (Some fyn)
  || match fyn with
     | fy_scalar _ _ => false
     | fy_sequence _ l _ _ => List.existsb fy_node_has_alias l
     | fy_mapping _ l _ _ =>
       List.existsb
         (fun p : fy_node_pair =>
            let (k, v) := p in
            (match k with Some n => fy_node_has_alias n | None => false end)
            || (match v with Some n => fy_node_has_alias n | None => false end))
         l
     end.

(** ** Scenario documents, as the event streams the parser produces *)

Definition fy_tok (ty : fy_token_type) (text : string) : option fy_token :=
  Some (mk_token ty text FYSS_PLAIN fy_zero_mark fy_zero_mark).

(** A plain scalar event with no anchor and no tag. *)
Definition ev_scalar (text : string) : fy_event :=
  FYET_SCALAR None None (fy_tok FYTT_SCALAR text).

(** A plain scalar event whose token starts and ends at the given marks. *)
Definition ev_scalar_at (text : string) (sm em : fy_mark) : fy_event :=
  FYET_SCALAR None None (Some (mk_token FYTT_SCALAR text FYSS_PLAIN sm em)).

Definition ev_flow_map (anchor : option string) : fy_event :=
  FYET_MAPPING_START (match anchor with Some a => fy_tok FYTT_ANCHOR a | None => None end)
                     None (fy_tok FYTT_FLOW_MAPPING_START "{").

Definition ev_flow_seq (anchor : option string) : fy_event :=
  FYET_SEQUENCE_START (match anchor with Some a => fy_tok FYTT_ANCHOR a | None => None end)
                      None (fy_tok FYTT_FLOW_SEQUENCE_START "[").

Definition ev_block_map (anchor : option string) : fy_event :=
  FYET_MAPPING_START (match anchor with Some a => fy_tok FYTT_ANCHOR a | None => None end)
                     None (fy_tok FYTT_BLOCK_MAPPING_START "").

Definition ev_map_end : fy_event := FYET_MAPPING_END None.

Definition ev_seq_end : fy_event := FYET_SEQUENCE_END None.

Definition ev_alias (name : string) : fy_event := FYET_ALIAS (fy_tok FYTT_ALIAS name).

Definition fy_empty_document : fy_document := mk_document [] None 0.


(** Scenario S5, a duplicate key; the second [k] starts line 1:
      k: 1
      k: 2 *)
Definition s5_events : list fy_event :=
  [ ev_block_map None;
    ev_scalar_at "k" (mk_mark 0 0 0) (mk_mark 1 0 1); ev_scalar "1";
    ev_scalar_at "k" (mk_mark 5 1 0) (mk_mark 6 1 1); ev_scalar "2";
    ev_map_end;
    FYET_DOCUMENT_END ].

(** An alias used as a key, naming a plain [<<] scalar:
      [ &m <<, { *m : 1 } ] *)
Definition alias_key_events : list fy_event :=
  [ ev_flow_seq None;
    FYET_SCALAR (fy_tok FYTT_ANCHOR "m") None (fy_tok FYTT_SCALAR "<<");
    ev_flow_map None; ev_alias "m"; ev_scalar "1"; ev_map_end;
    ev_seq_end;
    FYET_DOCUMENT_END ].


(** The anchor [fy_document_set_anchor(fyd, fyn, text, (size_t)-1)] adds. *)
Definition fy_declared_anchor (d : ptr * string) : fy_anchor :=
  mk_anchor (Some (fst d)) (fy_anchor_token (snd d) (strlen (snd d))).

(** ** Mappings without duplicate keys *)


(** Every mapping in the tree, at any depth and also inside keys, is free of
    duplicate keys. *)
#[local] Unset Elimination Schemes.
#[local] Set Elimination Schemes.

(** The pairs the default sort is tried on: scalar keys [a] and [ab], in
    this order, and two mappings holding them in either order. *)
Definition fy_scalar_at (a : ptr) (text : string) : option fy_node :=
  Some (fy_scalar (mk_hdr a None FYNS_PLAIN None) (fy_tok FYTT_SCALAR text)).

Definition prefix_pair_a : fy_node_pair := mk_pair (fy_scalar_at 1 "a") (fy_scalar_at 2 "1").

Definition prefix_pair_ab : fy_node_pair := mk_pair (fy_scalar_at 3 "ab") (fy_scalar_at 4 "2").

Definition prefix_map_1 : option fy_node :=
  Some (fy_mapping (mk_hdr 0 None FYNS_FLOW None) [prefix_pair_a; prefix_pair_ab] None None).

Definition prefix_map_2 : option fy_node :=
  Some (fy_mapping (mk_hdr 10 None FYNS_FLOW None)
          [mk_pair (fy_scalar_at 13 "ab") (fy_scalar_at 14 "2");
           mk_pair (fy_scalar_at 11 "a") (fy_scalar_at 12 "1")] None None).

(** No pair of the list is a merge pair. *)
Definition fy_no_merge_pairs (l : list fy_node_pair) : Prop :=
  Forall (fun p : fy_node_pair => fy_node_pair_is_merge_key p = false) l.

(** The shape every step of the expansion keeps: the pairs before the merge
    pair and those after it stay as they are and where they are; what is
    linked in stands between the merge pair and its old successor, and next
    to a merge pair it holds no merge pair. *)
Definition fy_expands (h : fy_node_hdr) (pre : list fy_node_pair) (mp : fy_node_pair)
           (rest : list fy_node_pair) (s e : option fy_token) (fyn' : fy_node) : Prop :=
  exists ins,
    fyn' = fy_mapping h (pre ++ mp :: ins ++ rest) s e /\
    (fy_node_pair_is_merge_key mp = true -> fy_no_merge_pairs ins).


(** A document built by hand, with the merge pair in its root:
      { d: &d { a: 1 }, <<: *d, b: 3 } *)
Definition merge_defaults : fy_node :=
  fy_mapping (mk_hdr 32 (Some 20) FYNS_FLOW None)
             [mk_pair (fy_scalar_at 33 "a") (fy_scalar_at 34 "1")] None None.

Definition merge_pair_d : fy_node_pair :=
  mk_pair (fy_scalar_at 21 "<<")
          (Some (fy_scalar (mk_hdr 22 (Some 20) FYNS_ALIAS None) (fy_tok FYTT_ALIAS "d"))).

Definition merge_pair_b : fy_node_pair := mk_pair (fy_scalar_at 23 "b") (fy_scalar_at 24 "3").

Definition merge_hdr : fy_node_hdr := mk_hdr 20 None FYNS_FLOW None.

Definition merge_root_pairs : list fy_node_pair :=
  [mk_pair (fy_scalar_at 31 "d") (Some merge_defaults); merge_pair_d; merge_pair_b].

Definition merge_root : fy_node := fy_mapping merge_hdr merge_root_pairs None None.

Definition merge_document : fy_document :=
  mk_document [fy_declared_anchor (32, "d"%string)] (Some merge_root) 100.

(** The mapping [{a: 1, ab: 2}] with its nodes at the addresses from [a] on. *)
Definition prefix_map_at (a : ptr) : option fy_node :=
  Some (fy_mapping (mk_hdr a None FYNS_FLOW None)
          [mk_pair (fy_scalar_at (a + 1) "a") (fy_scalar_at (a + 2) "1");
           mk_pair (fy_scalar_at (a + 3) "ab") (fy_scalar_at (a + 4) "2")] None None).

(** A plain scalar node at an address, and the alias node [*d] of the
    hand-built document. *)
Definition fy_plain_scalar (a : ptr) (text : string) : fy_node :=
  fy_scalar (mk_hdr a None FYNS_PLAIN None) (fy_tok FYTT_SCALAR text).


(** ** Lookup of a value (fy_node_mapping_lookup_value_by_key) *)

(** The scan of [fy_node_mapping_lookup_value_by_key]: the value of the
    first pair whose key compares equal to [fyn_key]. *)
Fixpoint fy_pair_list_lookup_value (mapping : list fy_node_pair) (fyn_key : option fy_node)
  : option fy_node :=
  match mapping with
  | [] => None
  | fynpi :: rest =>
    if fy_node_compare (key fynpi) fyn_key then value fynpi
    else fy_pair_list_lookup_value rest fyn_key
  end.

(** [fy_node_mapping_lookup_value_by_key]: NULL for a NULL node and for a
    node that is no mapping. *)
Definition fy_node_mapping_lookup_value_by_key (fyn fyn_key : option fy_node)
  : option fy_node :=
  match fyn with
  | None => None
  | Some n =>
    if negb (fy_node_type_eqb (fy_type n) FYNT_MAPPING) then None
    else fy_pair_list_lookup_value (fy_mapping_of n) fyn_key
  end.

(** ** The sequence calls (fy_node_sequence_append and friends) *)

(** [fy_node_sequence_insert_prepare]: -1 (here [None]) for a NULL target, a
    NULL node and a target that is no sequence; otherwise the node with its
    parent set to the sequence. *)
Definition fy_node_sequence_insert_prepare (fyn_seq fyn : option fy_node) : option fy_node :=
  match fyn_seq, fyn with
  | Some s, Some n =>
    if negb (fy_node_type_eqb (fy_type s) FYNT_SEQUENCE) then None
    else Some (fy_set_parent (Some (fy_addr s)) n)
  | _, _ => None
  end.

(** [fy_node_sequence_append]: the return code and the sequence afterwards.
    The node is one that hangs in no list. *)
Definition fy_node_sequence_append (fyn_seq fyn : option fy_node) : Z * option fy_node :=
  match fy_node_sequence_insert_prepare fyn_seq fyn with
  | None => ((-1)%Z, fyn_seq)
  | Some n =>
    (0%Z, option_map (fun s => fy_with_sequence s (fy_list_add_tail (fy_sequence_of s) n)) fyn_seq)
  end.

(** [fy_node_sequence_prepend]. *)
Definition fy_node_sequence_prepend (fyn_seq fyn : option fy_node) : Z * option fy_node :=
  match fy_node_sequence_insert_prepare fyn_seq fyn with
  | None => ((-1)%Z, fyn_seq)
  | Some n =>
    (0%Z, option_map (fun s => fy_with_sequence s (fy_list_add (fy_sequence_of s) n)) fyn_seq)
  end.

(** The position of the first item that is the node at address [p]
    ([fyni == fyn]), counted from [i]. *)
Fixpoint fy_node_list_index (l : list fy_node) (p : ptr) (i : nat) : option nat :=
  match l with
  | [] => None
  | fyni :: rest =>
    if Nat.eqb (fy_addr fyni) p then Some i else fy_node_list_index rest p (S i)
  end.

(** [fy_node_sequence_contains_node]; the node looked for is given by its
    address.  The function is declared [bool] and returns -1, which is
    [true], for a NULL sequence, a NULL node and a node that is no
    sequence. *)
Definition fy_node_sequence_contains_node (fyn_seq : option fy_node) (fyn : option ptr) : bool :=
  match fyn_seq, fyn with
  | Some s, Some p =>
    if negb (fy_node_type_eqb (fy_type s) FYNT_SEQUENCE) then true
    else match fy_node_list_index (fy_sequence_of s) p 0 with
         | Some _ => true
         | None => false
         end
  | _, _ => true
  end.

(** [fy_*_list_insert_before] of fy-types.h, the mark named by its position. *)
Definition fy_list_insert_before {A : Type} (l : list A) (i : nat) (n : A) : list A :=
  List.firstn i l ++ n :: List.skipn i l.

(** [fy_node_sequence_insert_before].  [None] stands for the calls the model
    does not follow: the membership test has answered -1 for a NULL mark and
    the list primitive is then called with that NULL. *)
Definition fy_node_sequence_insert_before (fyn_seq : option fy_node) (fyn_mark : option ptr)
           (fyn : option fy_node) : option (Z * option fy_node) :=
  if negb (fy_node_sequence_contains_node fyn_seq fyn_mark) then Some ((-1)%Z, fyn_seq)
  else
    match fy_node_sequence_insert_prepare fyn_seq fyn with
    | None => Some ((-1)%Z, fyn_seq)
    | Some n =>
      match fyn_seq, fyn_mark with
      | Some s, Some p =>
        match fy_node_list_index (fy_sequence_of s) p 0 with
        | Some i =>
          Some (0%Z, Some (fy_with_sequence s (fy_list_insert_before (fy_sequence_of s) i n)))
        | None => None
        end
      | _, _ => None
      end
    end.

(** [fy_node_sequence_insert_after]. *)
Definition fy_node_sequence_insert_after (fyn_seq : option fy_node) (fyn_mark : option ptr)
           (fyn : option fy_node) : option (Z * option fy_node) :=
  if negb (fy_node_sequence_contains_node fyn_seq fyn_mark) then Some ((-1)%Z, fyn_seq)
  else
    match fy_node_sequence_insert_prepare fyn_seq fyn with
    | None => Some ((-1)%Z, fyn_seq)
    | Some n =>
      match fyn_seq, fyn_mark with
      | Some s, Some p =>
        match fy_node_list_index (fy_sequence_of s) p 0 with
        | Some i =>
          Some (0%Z, Some (fy_with_sequence s (fy_list_insert_after (fy_sequence_of s) i n)))
        | None => None
        end
      | _, _ => None
      end
    end.

(** [fy_node_sequence_remove]: the node returned (its parent cleared) and
    the sequence afterwards.  [None] again stands for the calls that go on
    to the list primitive with a NULL or with a node that is no sequence. *)
Definition fy_node_sequence_remove (fyn_seq : option fy_node) (fyn : option ptr)
  : option (option fy_node * option fy_node) :=
  if negb (fy_node_sequence_contains_node fyn_seq fyn) then Some (None, fyn_seq)
  else
    match fyn_seq, fyn with
    | Some s, Some p =>
      if negb (fy_node_type_eqb (fy_type s) FYNT_SEQUENCE) then None
      else
        match fy_node_list_index (fy_sequence_of s) p 0 with
        | Some i =>
          match List.nth_error (fy_sequence_of s) i with
          | Some x =>
            Some (Some (fy_set_parent None x),
                  Some (fy_with_sequence s (fy_list_del (fy_sequence_of s) i)))
          | None => None
          end
        | None => None
        end
    | _, _ => None
    end.

(** ** Sorting (fy_node_mapping_sort_array, fy_node_mapping_sort, fy_node_sort) *)

(** [fy_node_mapping_sort_array]: NULL for a node whose item count is
    negative, that is for a NULL and for a node that is no mapping;
    otherwise the sorted array and the count stored through [countp]. *)
Definition fy_node_mapping_sort_array (fyn_map : option fy_node) (key_cmp : option fy_sort_fn)
  : option (list fy_sort_entry * Z) :=
  let count := fy_node_mapping_item_count fyn_map in
  if (count <? 0)%Z then None
  else
    match fyn_map with
    | Some m =>
      Some (fy_node_mapping_perform_sort (fy_mapping_of m) key_cmp (Z.to_nat count), count)
    | None => None
    end.

(** [fy_node_mapping_sort]: the list is emptied and the first [count]
    entries of the array are linked in at the tail, one after the other. *)
Definition fy_node_mapping_sort (fyn_map : option fy_node) (key_cmp : option fy_sort_fn)
  : Z * option fy_node :=
  match fy_node_mapping_sort_array fyn_map key_cmp with
  | None => ((-1)%Z, fyn_map)
  | Some (fynpp, count) =>
    (0%Z,
     option_map
       (fun m =>
          fy_with_mapping m
            (List.fold_left (fun mapping (fynpi : fy_sort_entry) =>
                               fy_list_add_tail mapping (snd fynpi))
                            (List.firstn (Z.to_nat count) fynpp) []))
       fyn_map)
  end.

(** A call on a key or a value, which may be NULL: [fy_node_sort] returns 0
    for a NULL. *)
Definition fy_sort_opt (sort : fy_node -> option (Z * fy_node)) (fyn : option fy_node)
  : option (Z * option fy_node) :=
  match fyn with
  | None => Some (0%Z, None)
  | Some n =>
    match sort n with
    | None => None
    | Some (rc, n) => Some (rc, Some n)
    end
  end.

(** The sequence loop of [fy_node_sort]; it does not look at what the calls
    return. *)
Fixpoint fy_sort_items_loop (sort : fy_node -> option (Z * fy_node)) (l : list fy_node)
  : option (list fy_node) :=
  match l with
  | [] => Some []
  | fyni :: rest =>
    match sort fyni with
    | None => None
    | Some (_, fyni) =>
      match fy_sort_items_loop sort rest with
      | None => None
      | Some rest => Some (fyni :: rest)
      end
    end
  end.

(** The mapping loop of [fy_node_sort]: key, then value; a call that does
    not return 0 ends the loop with what has been sorted so far. *)
Fixpoint fy_sort_pairs_loop (sort : fy_node -> option (Z * fy_node)) (l : list fy_node_pair)
  : option (Z * list fy_node_pair) :=
  match l with
  | [] => Some (0%Z, [])
  | fynp :: rest =>
    match fy_sort_opt sort (key fynp) with
    | None => None
    | Some (ret, k) =>
      if negb (ret =? 0)%Z then Some (ret, mk_pair k (value fynp) :: rest)
      else
        match fy_sort_opt sort (value fynp) with
        | None => None
        | Some (ret, v) =>
          if negb (ret =? 0)%Z then Some (ret, mk_pair k v :: rest)
          else
            match fy_sort_pairs_loop sort rest with
            | None => None
            | Some (ret, rest) => Some (ret, mk_pair k v :: rest)
            end
        end
    end
  end.

(** [fy_node_sort] on a node that is not NULL, with the depth of the C
    recursion as a budget ([None] is a call that would go deeper). *)
Fixpoint fy_node_sort_rec (depth : nat) (key_cmp : option fy_sort_fn) (fyn : fy_node)
  : option (Z * fy_node) :=
  match depth with
  | O => None
  | S depth =>
    match fyn with
    | fy_scalar _ _ => Some (0%Z, fyn)
    | fy_sequence h l s e =>
      match fy_sort_items_loop (fy_node_sort_rec depth key_cmp) l with
      | None => None
      | Some l => Some (0%Z, fy_sequence h l s e)
      end
    | fy_mapping _ _ _ _ =>
      match fy_node_mapping_sort (Some fyn) key_cmp with
      | (ret, Some fyn) =>
        if negb (ret =? 0)%Z then Some (ret, fyn)
        else
          match fy_sort_pairs_loop (fy_node_sort_rec depth key_cmp) (fy_mapping_of fyn) with
          | None => None
          | Some (ret, l) => Some (ret, fy_with_mapping fyn l)
          end
      | (ret, None) => Some (ret, fyn)
      end
    end
  end.

(** [fy_node_sort]; the recursion goes as deep as the node is high. *)
Definition fy_node_sort (fyn : option fy_node) (key_cmp : option fy_sort_fn)
  : option (Z * option fy_node) :=
  fy_sort_opt (fy_node_sort_rec (fy_height fyn) key_cmp) fyn.

(** [fy_reordered a b]: [b] is [a] with the pairs of its mappings, at any
    depth, in another order; nothing else differs. *)
#[local] Unset Elimination Schemes.
Inductive fy_reordered : fy_node -> fy_node -> Prop :=
| fy_reordered_scalar h t : fy_reordered (fy_scalar h t) (fy_scalar h t)
| fy_reordered_sequence h l l' s e :
    Forall2 fy_reordered l l' ->
    fy_reordered (fy_sequence h l s e) (fy_sequence h l' s e)
| fy_reordered_mapping h l l0 l' s e :
    Permutation l0 l ->
    Forall2 (fun p q : fy_node_pair =>
               fy_reordered_opt (key p) (key q) /\ fy_reordered_opt (value p) (value q))
            l0 l' ->
    fy_reordered (fy_mapping h l s e) (fy_mapping h l' s e)
with fy_reordered_opt : option fy_node -> option fy_node -> Prop :=
| fy_reordered_none : fy_reordered_opt None None
| fy_reordered_some a b : fy_reordered a b -> fy_reordered_opt (Some a) (Some b).
#[local] Set Elimination Schemes.

(** ** Anchors by node (fy_node_set_anchor, fy_node_remove_anchor, fy_node_get_anchor) *)

(** [fy_node_set_anchor]; the node is given by its address and the document
    is the one it belongs to. *)
Definition fy_node_set_anchor (fyd : fy_document) (fyn : option ptr)
           (text : option string) (len : Z) : Z * fy_document :=
  match fyn with
  | None => ((-1)%Z, fyd)
  | Some _ => fy_document_set_anchor fyd fyn text len
  end.

(** [fy_node_remove_anchor]. *)
Definition fy_node_remove_anchor (fyd : fy_document) (fyn : option ptr) : Z * fy_document :=
  fy_node_set_anchor fyd fyn None 0.

(** [fy_node_get_anchor]. *)
Definition fy_node_get_anchor (fyd : fy_document) (fyn : option ptr) : option fy_anchor :=
  match fyn with
  | None => None
  | Some _ => fy_document_lookup_anchor_by_node fyd fyn
  end.

(** No node of the document carries two anchors. *)
Definition fy_anchors_one_per_node (fyd : fy_document) : Prop :=
  NoDup (List.map fya_fyn (fyd_anchors fyd)).

(** No two anchors of the document have the same name. *)
Definition fy_anchor_names_distinct (fyd : fy_document) : Prop :=
  NoDup (List.map fy_anchor_get_text (fyd_anchors fyd)).

(** ** What a copy is *)

(** The two inner loops of [fy_node_copy], over the items of a sequence and
    over the pairs of a mapping. *)
Definition fy_copy_items (copy : fy_node -> fy_document -> option fy_node * fy_document)
  : list fy_node -> fy_document -> option (list fy_node) * fy_document :=
  fix items (l : list fy_node) (fyd : fy_document)
    : option (list fy_node) * fy_document :=
    match l with
    | [] => (Some [], fyd)
    | fyni :: r =>
      match copy fyni fyd with
      | (None, fyd) => (None, fyd)
      | (Some fynit, fyd) =>
        match items r fyd with
        | (None, fyd) => (None, fyd)
        | (Some rest, fyd) => (Some (fynit :: rest), fyd)
        end
      end
    end.

Definition fy_copy_pairs (copy : fy_node -> fy_document -> option fy_node * fy_document)
  : list fy_node_pair -> fy_document -> list fy_node_pair * fy_document :=
  fix pairs (l : list fy_node_pair) (fyd : fy_document)
    : list fy_node_pair * fy_document :=
    match l with
    | [] => ([], fyd)
    | mk_pair k v :: r =>
      let '(kt, fyd) :=
        match k with
        | Some n => copy n fyd
        | None => (None, fyd)
        end in
      let '(vt, fyd) :=
        match v with
        | Some n => copy n fyd
        | None => (None, fyd)
        end in
      let '(rest, fyd) := pairs r fyd in
      (mk_pair kt vt :: rest, fyd)
    end.

(** [fy_same_content a b]: the two trees have the same shape, and scalars at
    the same place hold the same token.  Addresses, parents, styles and tags
    may differ. *)
#[local] Unset Elimination Schemes.
Inductive fy_same_content : fy_node -> fy_node -> Prop :=
| fy_same_scalar h1 h2 t : fy_same_content (fy_scalar h1 t) (fy_scalar h2 t)
| fy_same_sequence h1 l1 s1 e1 h2 l2 s2 e2 :
    Forall2 fy_same_content l1 l2 ->
    fy_same_content (fy_sequence h1 l1 s1 e1) (fy_sequence h2 l2 s2 e2)
| fy_same_mapping h1 l1 s1 e1 h2 l2 s2 e2 :
    Forall2 (fun p q : fy_node_pair =>
               fy_same_content_opt (key p) (key q) /\
               fy_same_content_opt (value p) (value q)) l1 l2 ->
    fy_same_content (fy_mapping h1 l1 s1 e1) (fy_mapping h2 l2 s2 e2)
with fy_same_content_opt : option fy_node -> option fy_node -> Prop :=
| fy_same_none : fy_same_content_opt None None
| fy_same_some a b : fy_same_content a b -> fy_same_content_opt (Some a) (Some b).
#[local] Set Elimination Schemes.

(** No anchor name of the document holds a NUL byte. *)
Definition fy_anchor_names_c_strings (fyd : fy_document) : Prop :=
  Forall (fun fya => c_str (fy_anchor_get_text fya) = fy_anchor_get_text fya)
         (fyd_anchors fyd).

(** The addresses below a key or a value. *)
Definition fy_opt_addrs (fyn : option fy_node) : list ptr :=
  match fyn with
  | Some n => fy_node_addrs n
  | None => []
  end.

(** [fy_fresh_nodes fyd addrs fyd']: going from [fyd] to [fyd'] the
    document has allocated the nodes at [addrs], each once, and nothing else
    about it has changed. *)
Definition fy_fresh_nodes (fyd : fy_document) (addrs : list ptr) (fyd' : fy_document) : Prop :=
  fyd_anchors fyd' = fyd_anchors fyd /\
  fyd_root fyd' = fyd_root fyd /\
  fyd_brk fyd <= fyd_brk fyd' /\
  (forall a, In a addrs -> fyd_brk fyd <= a < fyd_brk fyd') /\
  NoDup addrs.

(** ** Inserting into the root (fy_node_insert) *)








(** ** Anchors in an event stream *)

(** The anchor token an event declares. *)
Definition fy_event_anchor (fye : fy_event) : option fy_token :=
  match fye with
  | FYET_MAPPING_START anchor _ _ => anchor
  | FYET_SEQUENCE_START anchor _ _ => anchor
  | FYET_SCALAR anchor _ _ => anchor
  | _ => None
  end.

(** The name of a declared anchor holds no NUL byte. *)
Definition fy_token_c_string (fyt : option fy_token) : Prop :=
  match fyt with
  | Some t => c_str (fyt_text t) = fyt_text t
  | None => True
  end.

Definition fy_event_c_string (fye : fy_event) : Prop :=
  fy_token_c_string (fy_event_anchor fye).

(** * Properties *)

(** ** Heights *)

Lemma fy_node_height_sequence h l s e :
  fy_node_height (fy_sequence h l s e) = S (fy_items_height l).
Proof.
  reflexivity.
Qed.

Lemma fy_node_height_mapping h l s e :
  fy_node_height (fy_mapping h l s e) = S (fy_pairs_height l).
Proof.
  simpl. f_equal. induction l as [|[k v] r IH]; simpl; [reflexivity|].
  rewrite IH. destruct k, v; reflexivity.
Qed.

Lemma fy_items_height_In x l : In x l -> fy_node_height x <= fy_items_height l.
Proof.
  induction l as [|y r IH]; simpl; [tauto|].
  intros [->|H]; [lia|]. specialize (IH H). lia.
Qed.

Lemma fy_pairs_height_In p l :
  In p l ->
  fy_height (key p) <= fy_pairs_height l /\ fy_height (value p) <= fy_pairs_height l.
Proof.
  induction l as [|q r IH]; simpl; [tauto|].
  intros [->|H]; [lia|]. specialize (IH H). lia.
Qed.

Lemma fy_node_height_pos n : 0 < fy_node_height n.
Proof. destruct n; simpl; lia. Qed.

(** ** The sorted array holds the mapping's pairs *)

Lemma fy_index_pairs_In e l : In e (fy_index_pairs l) -> In (snd e) l.
Proof.
  unfold fy_index_pairs. destruct e as [i p]. intros H.
  apply in_combine_r in H. exact H.
Qed.

Lemma fy_index_pairs_length l : List.length (fy_index_pairs l) = List.length l.
Proof.
  unfold fy_index_pairs. rewrite length_combine, length_seq. lia.
Qed.

Lemma fy_firstn_In (A : Type) (x : A) n l : In x (List.firstn n l) -> In x l.
Proof.
  intros H. rewrite <- (firstn_skipn n l). apply in_or_app. now left.
Qed.

Lemma fy_perform_sort_In e m c :
  In e (fy_node_mapping_perform_sort m None c) -> In (snd e) m.
Proof.
  unfold fy_node_mapping_perform_sort. intros H.
  apply (Permutation_in _ (qsort_r_permutes _ _)) in H.
  apply fy_index_pairs_In. eapply fy_firstn_In; exact H.
Qed.

Lemma fy_perform_sort_length m :
  List.length (fy_node_mapping_perform_sort m None (List.length m)) = List.length m.
Proof.
  unfold fy_node_mapping_perform_sort.
  rewrite (Permutation_length (qsort_r_permutes _ _)).
  rewrite firstn_all2; [apply fy_index_pairs_length|].
  rewrite fy_index_pairs_length. lia.
Qed.

(** ** The recursion budget of [fy_node_compare] *)

Lemma fy_compare_sequence_ext cmp1 cmp2 l1 l2 :
  (forall x y, In x l1 -> cmp1 (Some x) y = cmp2 (Some x) y) ->
  fy_compare_sequence cmp1 l1 l2 = fy_compare_sequence cmp2 l1 l2.
Proof.
  revert l2. induction l1 as [|x r IH]; intros [|y r2] H; simpl; try reflexivity.
  rewrite (H x (Some y)) by now left.
  destruct (cmp2 (Some x) (Some y)); [|reflexivity].
  apply IH. intros; apply H; now right.
Qed.

Lemma fy_compare_mapping_ext cmp1 cmp2 pp1 pp2 :
  (forall e o, In e pp1 ->
               cmp1 (key (snd e)) o = cmp2 (key (snd e)) o /\
               cmp1 (value (snd e)) o = cmp2 (value (snd e)) o) ->
  fy_compare_mapping cmp1 pp1 pp2 = fy_compare_mapping cmp2 pp1 pp2.
Proof.
  revert pp2. induction pp1 as [|e r IH]; intros [|e2 r2] H; try reflexivity.
  cbn [fy_compare_mapping].
  destruct (H e (key (snd e2)) (or_introl eq_refl)) as [-> _].
  destruct (H e (value (snd e2)) (or_introl eq_refl)) as [_ ->].
  destruct (cmp2 (key (snd e)) (key (snd e2))); [|reflexivity].
  destruct (cmp2 (value (snd e)) (value (snd e2))); [|reflexivity].
  apply IH. intros; apply H; now right.
Qed.

(** Any two budgets above the nesting depth of the first node give the same
    answer: the recursion only ever descends into that node's children. *)
Lemma fy_node_compare_rec_enough d1 :
  forall d2 fyn1 fyn2,
    fy_height fyn1 < d1 -> fy_height fyn1 < d2 ->
    fy_node_compare_rec d1 fyn1 fyn2 = fy_node_compare_rec d2 fyn1 fyn2.
Proof.
  induction d1 as [|d1 IH]; intros d2 fyn1 fyn2 H1 H2; [lia|].
  destruct d2 as [|d2]; [lia|].
  simpl.
  destruct (fy_ptr_eqb fyn1 fyn2); [reflexivity|].
  destruct (fy_node_is_null fyn1 && fy_node_is_null fyn2); [reflexivity|].
  destruct (fy_node_is_null fyn1 || fy_node_is_null fyn2); [reflexivity|].
  destruct fyn1 as [n1|]; [|reflexivity].
  destruct fyn2 as [n2|]; [|reflexivity].
  destruct (negb (fy_node_type_eqb (fy_type n1) (fy_type n2))); [reflexivity|].
  destruct n1 as [h1 s1|h1 l1 ss1 se1|h1 m1 ms1 me1];
    destruct n2 as [h2 s2|h2 l2 ss2 se2|h2 m2 ms2 me2]; try reflexivity.
  - apply fy_compare_sequence_ext. intros x y Hx.
    unfold fy_height in H1, H2. rewrite fy_node_height_sequence in H1, H2.
    pose proof (fy_items_height_In x l1 Hx).
    apply IH; simpl; lia.
  - destruct (negb (Nat.eqb (List.length m1) (List.length m2))); [reflexivity|].
    apply fy_compare_mapping_ext. intros e o He.
    apply fy_perform_sort_In in He.
    unfold fy_height in H1, H2. rewrite fy_node_height_mapping in H1, H2.
    destruct (fy_pairs_height_In _ _ He).
    split; apply IH; lia.
Qed.

(** [fy_node_compare] satisfies the equation the C function is written as:
    the recursive calls are [fy_node_compare] itself. *)
Lemma fy_node_compare_eq fyn1 fyn2 :
  fy_node_compare fyn1 fyn2 =
  if fy_ptr_eqb fyn1 fyn2 then true
  else if fy_node_is_null fyn1 && fy_node_is_null fyn2 then true
  else if fy_node_is_null fyn1 || fy_node_is_null fyn2 then false
  else
    match fyn1, fyn2 with
    | Some n1, Some n2 =>
      if negb (fy_node_type_eqb (fy_type n1) (fy_type n2)) then false
      else
      match n1, n2 with
      | fy_sequence _ l1 _ _, fy_sequence _ l2 _ _ =>
        fy_compare_sequence fy_node_compare l1 l2
      | fy_mapping _ m1 _ _, fy_mapping _ m2 _ _ =>
        if negb (Nat.eqb (List.length m1) (List.length m2)) then false
        else fy_compare_mapping fy_node_compare
               (fy_node_mapping_perform_sort m1 None (List.length m1))
               (fy_node_mapping_perform_sort m2 None (List.length m2))
      | fy_scalar _ s1, fy_scalar _ s2 =>
        let t1 := fy_token_get_text s1 in
        let t2 := fy_token_get_text s2 in
        if negb (Nat.eqb (String.length t1) (String.length t2)) then false
        else memcmp_eq t1 t2 (String.length t1)
      | _, _ => false
      end
    | _, _ => false
    end.
Proof.
  unfold fy_node_compare at 1. simpl fy_node_compare_rec.
  destruct (fy_ptr_eqb fyn1 fyn2); [reflexivity|].
  destruct (fy_node_is_null fyn1 && fy_node_is_null fyn2); [reflexivity|].
  destruct (fy_node_is_null fyn1 || fy_node_is_null fyn2); [reflexivity|].
  destruct fyn1 as [n1|]; [|reflexivity].
  destruct fyn2 as [n2|]; [|reflexivity].
  destruct (negb (fy_node_type_eqb (fy_type n1) (fy_type n2))); [reflexivity|].
  destruct n1 as [h1 s1|h1 l1 ss1 se1|h1 m1 ms1 me1];
    destruct n2 as [h2 s2|h2 l2 ss2 se2|h2 m2 ms2 me2]; try reflexivity.
  - apply fy_compare_sequence_ext. intros x y Hx. unfold fy_node_compare.
    change (fy_height (Some (fy_sequence h1 l1 ss1 se1)))
      with (fy_node_height (fy_sequence h1 l1 ss1 se1)).
    rewrite fy_node_height_sequence.
    pose proof (fy_items_height_In x l1 Hx).
    apply fy_node_compare_rec_enough; simpl; lia.
  - destruct (negb (Nat.eqb (List.length m1) (List.length m2))); [reflexivity|].
    apply fy_compare_mapping_ext. intros e o He.
    apply fy_perform_sort_In in He.
    change (fy_height (Some (fy_mapping h1 m1 ms1 me1)))
      with (fy_node_height (fy_mapping h1 m1 ms1 me1)).
    rewrite fy_node_height_mapping.
    destruct (fy_pairs_height_In _ _ He).
    unfold fy_node_compare.
    split; apply fy_node_compare_rec_enough; lia.
Qed.

(** ** [fy_node_compare] against the spec's equality *)

Lemma fy_substring_all s : substring 0 (String.length s) s = s.
Proof. induction s as [|c r IH]; simpl; [reflexivity|now rewrite IH]. Qed.

Lemma fy_memcmp_eq_text t1 t2 :
  String.length t1 = String.length t2 ->
  memcmp_eq t1 t2 (String.length t1) = true <-> t1 = t2.
Proof.
  intros Hlen. unfold memcmp_eq.
  rewrite fy_substring_all. rewrite Hlen, fy_substring_all.
  apply String.eqb_eq.
Qed.




Lemma fy_same_heap_item h1 l1 ss1 se1 h2 l2 ss2 se2 x y :
  fy_same_heap (Some (fy_sequence h1 l1 ss1 se1)) (Some (fy_sequence h2 l2 ss2 se2)) ->
  In x l1 -> In y l2 -> fy_same_heap (Some x) (Some y).
Proof.
  intros H Hx Hy a b Ha Hb. apply H; simpl in *.
  - eapply fy_subnode_item; eauto.
  - eapply fy_subnode_item; eauto.
Qed.

Lemma fy_subnode_opt_key h m ms me p x :
  In p m -> fy_subnode_opt x (key p) -> fy_subnode x (fy_mapping h m ms me).
Proof.
  intros Hp Hx. destruct (key p) as [c|] eqn:E; [|contradiction].
  eapply fy_subnode_key; eauto.
Qed.

Lemma fy_subnode_opt_value h m ms me p x :
  In p m -> fy_subnode_opt x (value p) -> fy_subnode x (fy_mapping h m ms me).
Proof.
  intros Hp Hx. destruct (value p) as [c|] eqn:E; [|contradiction].
  eapply fy_subnode_value; eauto.
Qed.

Lemma fy_same_heap_pair h1 m1 ms1 me1 h2 m2 ms2 me2 p q :
  fy_same_heap (Some (fy_mapping h1 m1 ms1 me1)) (Some (fy_mapping h2 m2 ms2 me2)) ->
  In p m1 -> In q m2 ->
  fy_same_heap (key p) (key q) /\ fy_same_heap (value p) (value q).
Proof.
  intros H Hp Hq. split; intros a b Ha Hb; apply H; simpl.
  - eapply fy_subnode_opt_key; eauto.
  - eapply fy_subnode_opt_key; eauto.
  - eapply fy_subnode_opt_value; eauto.
  - eapply fy_subnode_opt_value; eauto.
Qed.

Lemma fy_ptr_eqb_same fyn1 fyn2 :
  fy_same_heap fyn1 fyn2 -> fy_ptr_eqb fyn1 fyn2 = true -> fyn1 = fyn2.
Proof.
  intros H E. destruct fyn1 as [a|], fyn2 as [b|]; simpl in E; try discriminate; [|reflexivity].
  apply Nat.eqb_eq in E. f_equal. apply H; simpl; try apply fy_subnode_self. exact E.
Qed.





Lemma fy_node_is_null_scalar h s :
  fy_node_is_null (Some (fy_scalar h s)) = Nat.eqb (String.length (fy_token_get_text s)) 0.
Proof. destruct s; reflexivity. Qed.




(** ** [fy_node_compare] is an equivalence *)

Lemma fy_ptr_eqb_refl fyn : fy_ptr_eqb fyn fyn = true.
Proof. destruct fyn; simpl; [apply Nat.eqb_refl|reflexivity]. Qed.

Lemma fy_ptr_eqb_sym fyn1 fyn2 : fy_ptr_eqb fyn1 fyn2 = fy_ptr_eqb fyn2 fyn1.
Proof. destruct fyn1, fyn2; simpl; try reflexivity. apply Nat.eqb_sym. Qed.

Lemma fy_node_type_eqb_sym a b : fy_node_type_eqb a b = fy_node_type_eqb b a.
Proof. destruct a, b; reflexivity. Qed.

Lemma fy_memcmp_eq_sym t1 t2 :
  String.length t1 = String.length t2 ->
  memcmp_eq t1 t2 (String.length t1) = memcmp_eq t2 t1 (String.length t2).
Proof.
  intros L. unfold memcmp_eq. rewrite L. apply String.eqb_sym.
Qed.

Lemma fy_compare_sequence_sym cmp l1 l2 :
  (forall x y, In x l1 -> In y l2 -> cmp (Some x) (Some y) = cmp (Some y) (Some x)) ->
  fy_compare_sequence cmp l1 l2 = fy_compare_sequence cmp l2 l1.
Proof.
  revert l2. induction l1 as [|x r IH]; intros [|y r2] H; simpl; try reflexivity.
  rewrite (H x y) by (simpl; auto).
  destruct (cmp (Some y) (Some x)); [|reflexivity].
  apply IH. intros; apply H; simpl; auto.
Qed.

Lemma fy_compare_mapping_sym cmp (pp1 pp2 : list fy_sort_entry) :
  List.length pp1 = List.length pp2 ->
  (forall a b, In a pp1 -> In b pp2 ->
     cmp (key (snd a)) (key (snd b)) = cmp (key (snd b)) (key (snd a)) /\
     cmp (value (snd a)) (value (snd b)) = cmp (value (snd b)) (value (snd a))) ->
  fy_compare_mapping cmp pp1 pp2 = fy_compare_mapping cmp pp2 pp1.
Proof.
  revert pp2. induction pp1 as [|a r IH]; intros [|b r2] L H;
    simpl in L; try discriminate; try reflexivity.
  cbn [fy_compare_mapping].
  destruct (H a b (or_introl eq_refl) (or_introl eq_refl)) as [-> ->].
  destruct (cmp (key (snd b)) (key (snd a))); [|reflexivity].
  destruct (cmp (value (snd b)) (value (snd a))); [|reflexivity].
  apply IH; [lia|]. intros; apply H; simpl; auto.
Qed.

Lemma fy_node_compare_rec_sym d :
  forall fyn1 fyn2, fy_node_compare_rec d fyn1 fyn2 = fy_node_compare_rec d fyn2 fyn1.
Proof.
  induction d as [|d IH]; intros fyn1 fyn2; [reflexivity|].
  simpl. rewrite (fy_ptr_eqb_sym fyn2 fyn1).
  destruct (fy_ptr_eqb fyn1 fyn2); [reflexivity|].
  rewrite (andb_comm (fy_node_is_null fyn2)), (orb_comm (fy_node_is_null fyn2)).
  destruct (fy_node_is_null fyn1 && fy_node_is_null fyn2); [reflexivity|].
  destruct (fy_node_is_null fyn1 || fy_node_is_null fyn2); [reflexivity|].
  destruct fyn1 as [n1|], fyn2 as [n2|]; try reflexivity.
  rewrite (fy_node_type_eqb_sym (fy_type n2)).
  destruct (negb (fy_node_type_eqb (fy_type n1) (fy_type n2))); [reflexivity|].
  destruct n1 as [h1 s1|h1 l1 ss1 se1|h1 m1 ms1 me1];
    destruct n2 as [h2 s2|h2 l2 ss2 se2|h2 m2 ms2 me2]; try reflexivity.
  - rewrite (Nat.eqb_sym (String.length (fy_token_get_text s2))).
    destruct (Nat.eqb (String.length (fy_token_get_text s1))
                      (String.length (fy_token_get_text s2))) eqn:L; simpl; [|reflexivity].
    apply Nat.eqb_eq in L. now apply fy_memcmp_eq_sym.
  - apply fy_compare_sequence_sym. intros; apply IH.
  - rewrite (Nat.eqb_sym (List.length m2)).
    destruct (Nat.eqb (List.length m1) (List.length m2)) eqn:L; simpl; [|reflexivity].
    apply Nat.eqb_eq in L.
    apply fy_compare_mapping_sym.
    + rewrite !fy_perform_sort_length. exact L.
    + intros; split; apply IH.
Qed.

Lemma fy_node_compare_at d fyn1 fyn2 :
  fy_height fyn1 < d ->
  fy_node_compare fyn1 fyn2 = fy_node_compare_rec d fyn1 fyn2.
Proof.
  intros H. unfold fy_node_compare. apply fy_node_compare_rec_enough; lia.
Qed.

Lemma fy_node_compare_sym fyn1 fyn2 :
  fy_node_compare fyn1 fyn2 = fy_node_compare fyn2 fyn1.
Proof.
  rewrite (@fy_node_compare_at (S (Nat.max (fy_height fyn1) (fy_height fyn2))) fyn1) by lia.
  rewrite (@fy_node_compare_at (S (Nat.max (fy_height fyn1) (fy_height fyn2))) fyn2) by lia.
  apply fy_node_compare_rec_sym.
Qed.

Lemma fy_compare_sequence_trans cmp l1 :
  forall l2 l3,
  (forall x y z, In x l1 -> In y l2 -> In z l3 ->
     cmp (Some x) (Some y) = true -> cmp (Some y) (Some z) = true ->
     cmp (Some x) (Some z) = true) ->
  fy_compare_sequence cmp l1 l2 = true ->
  fy_compare_sequence cmp l2 l3 = true ->
  fy_compare_sequence cmp l1 l3 = true.
Proof.
  induction l1 as [|x r IH]; intros [|y r2] [|z r3] H E1 E2;
    simpl in *; try discriminate; try reflexivity.
  destruct (cmp (Some x) (Some y)) eqn:C1; [|discriminate].
  destruct (cmp (Some y) (Some z)) eqn:C2; [|discriminate].
  rewrite (H x y z) by auto.
  eapply IH; eauto.
Qed.

Lemma fy_compare_mapping_trans cmp (pp1 : list fy_sort_entry) :
  forall pp2 pp3 : list fy_sort_entry,
  (forall a b c o1 o2 o3, In a pp1 -> In b pp2 -> In c pp3 ->
     (o1 = key (snd a) /\ o2 = key (snd b) /\ o3 = key (snd c)) \/
     (o1 = value (snd a) /\ o2 = value (snd b) /\ o3 = value (snd c)) ->
     cmp o1 o2 = true -> cmp o2 o3 = true -> cmp o1 o3 = true) ->
  fy_compare_mapping cmp pp1 pp2 = true ->
  fy_compare_mapping cmp pp2 pp3 = true ->
  fy_compare_mapping cmp pp1 pp3 = true.
Proof.
  induction pp1 as [|a r IH]; intros [|b r2] [|c r3] H E1 E2;
    cbn [fy_compare_mapping] in *; try discriminate; try reflexivity.
  destruct (cmp (key (snd a)) (key (snd b))) eqn:K1; [|discriminate].
  destruct (cmp (value (snd a)) (value (snd b))) eqn:V1; [|discriminate].
  destruct (cmp (key (snd b)) (key (snd c))) eqn:K2; [|discriminate].
  destruct (cmp (value (snd b)) (value (snd c))) eqn:V2; [|discriminate].
  rewrite (H a b c _ _ _ (or_introl eq_refl) (or_introl eq_refl) (or_introl eq_refl)
             (or_introl (conj eq_refl (conj eq_refl eq_refl))) K1 K2).
  rewrite (H a b c _ _ _ (or_introl eq_refl) (or_introl eq_refl) (or_introl eq_refl)
             (or_intror (conj eq_refl (conj eq_refl eq_refl))) V1 V2).
  eapply IH; eauto; intros; eapply H; simpl; eauto.
Qed.

Lemma fy_node_compare_rec_trans d :
  forall a b c,
    fy_same_heap a b -> fy_same_heap b c ->
    fy_node_compare_rec d a b = true ->
    fy_node_compare_rec d b c = true ->
    fy_node_compare_rec d a c = true.
Proof.
  induction d as [|d IH]; intros a b c Hab Hbc E1 E2; [discriminate|].
  destruct (fy_ptr_eqb a b) eqn:Pab.
  { apply fy_ptr_eqb_same in Pab; [|exact Hab]. subst. exact E2. }
  destruct (fy_ptr_eqb b c) eqn:Pbc.
  { apply fy_ptr_eqb_same in Pbc; [|exact Hbc]. subst. exact E1. }
  simpl in *. rewrite Pab in E1. rewrite Pbc in E2.
  destruct (fy_ptr_eqb a c); [reflexivity|].
  destruct (fy_node_is_null a) eqn:Na, (fy_node_is_null b) eqn:Nb,
           (fy_node_is_null c) eqn:Nc; simpl in *; try discriminate; try reflexivity.
  destruct a as [n1|]; [|discriminate].
  destruct b as [n2|]; [|discriminate].
  destruct c as [n3|]; [|discriminate].
  destruct n1 as [h1 s1|h1 l1 ss1 se1|h1 m1 ms1 me1];
    destruct n2 as [h2 s2|h2 l2 ss2 se2|h2 m2 ms2 me2]; try discriminate;
    destruct n3 as [h3 s3|h3 l3 ss3 se3|h3 m3 ms3 me3]; try discriminate;
    simpl in *.
  - destruct (Nat.eqb (String.length (fy_token_get_text s1))
                      (String.length (fy_token_get_text s2))) eqn:L1;
      simpl in E1; [|discriminate].
    destruct (Nat.eqb (String.length (fy_token_get_text s2))
                      (String.length (fy_token_get_text s3))) eqn:L2;
      simpl in E2; [|discriminate].
    apply Nat.eqb_eq in L1, L2.
    apply fy_memcmp_eq_text in E1; [|exact L1].
    apply fy_memcmp_eq_text in E2; [|exact L2].
    rewrite E1, E2, Nat.eqb_refl. simpl. apply fy_memcmp_eq_text; reflexivity.
  - eapply fy_compare_sequence_trans; [|exact E1|exact E2].
    intros x y z Hx Hy Hz.
    apply IH; eapply fy_same_heap_item;
      [exact Hab|exact Hx|exact Hy|exact Hbc|exact Hy|exact Hz].
  - destruct (Nat.eqb (List.length m1) (List.length m2)) eqn:L1;
      simpl in E1; [|discriminate].
    destruct (Nat.eqb (List.length m2) (List.length m3)) eqn:L2;
      simpl in E2; [|discriminate].
    apply Nat.eqb_eq in L1, L2.
    replace (Nat.eqb (List.length m1) (List.length m3)) with true
      by (symmetry; apply Nat.eqb_eq; lia).
    simpl.
    eapply fy_compare_mapping_trans; [|exact E1|exact E2].
    intros x y z o1 o2 o3 Hx Hy Hz Ho.
    apply fy_perform_sort_In in Hx, Hy, Hz.
    destruct (@fy_same_heap_pair h1 m1 ms1 me1 h2 m2 ms2 me2 _ _ Hab Hx Hy) as [K1 V1].
    destruct (@fy_same_heap_pair h2 m2 ms2 me2 h3 m3 ms3 me3 _ _ Hbc Hy Hz) as [K2 V2].
    destruct Ho as [(-> & -> & ->)|(-> & -> & ->)]; apply IH; assumption.
Qed.

(** C6.  Semantic equality is reflexive, symmetric and transitive.  The
    nodes compared live in one memory ([fy_same_heap]), which is what makes
    the pointer test [fyn1 == fyn2] of the C function an identity test. *)
Theorem fy_node_compare_equivalence :
  (forall a, fy_node_compare a a = true) /\
  (forall a b, fy_node_compare a b = true -> fy_node_compare b a = true) /\
  (forall a b c,
      fy_same_heap a b -> fy_same_heap b c ->
      fy_node_compare a b = true -> fy_node_compare b c = true ->
      fy_node_compare a c = true).
Proof.
  split; [|split].
  - intros a. unfold fy_node_compare. simpl. now rewrite fy_ptr_eqb_refl.
  - intros a b H. now rewrite fy_node_compare_sym.
  - intros a b c Hab Hbc E1 E2.
    set (D := S (Nat.max (fy_height a) (Nat.max (fy_height b) (fy_height c)))).
    rewrite (@fy_node_compare_at D) in * by (unfold D; lia).
    eapply fy_node_compare_rec_trans; eauto.
Qed.

(** ** Item access by index *)

Lemma fy_index_loop_forward (A : Type) (l : list A) steps :
  forall iterp index,
    (0 <= index)%Z ->
    List.length l - fy_iter_next iterp < steps ->
    fy_index_loop (fy_list_iterate l) Z.pred (fun i => (i >=? 0)%Z) steps iterp index =
    if Nat.ltb (fy_iter_next iterp + Z.to_nat index) (List.length l)
    then Some (fy_iter_next iterp + Z.to_nat index)
    else None.
Proof.
  induction steps as [|steps IH]; intros iterp index Hi Hs; [lia|].
  simpl. unfold fy_list_iterate at 1.
  fold (fy_iter_next iterp).
  destruct (Nat.ltb (fy_iter_next iterp) (List.length l)) eqn:Lt.
  - apply Nat.ltb_lt in Lt.
    destruct (Z.pred index >=? 0)%Z eqn:G; rewrite Z.geb_leb in G;
      [apply Z.leb_le in G|apply Z.leb_gt in G].
    + rewrite IH by (simpl; lia).
      replace (fy_iter_next (Some (fy_iter_next iterp)) + Z.to_nat (Z.pred index))
        with (fy_iter_next iterp + Z.to_nat index) by (simpl; lia).
      reflexivity.
    + assert (index = 0%Z) by lia. subst index. simpl.
      rewrite Nat.add_0_r. apply Nat.ltb_lt in Lt. now rewrite Lt.
  - apply Nat.ltb_ge in Lt.
    destruct (Nat.ltb (fy_iter_next iterp + Z.to_nat index) (List.length l)) eqn:Lt2;
      [|reflexivity].
    apply Nat.ltb_lt in Lt2. lia.
Qed.

Lemma fy_index_loop_backward (A : Type) (l : list A) steps :
  forall iterp index,
    (index < 0)%Z ->
    fy_iter_before (List.length l) iterp < steps ->
    fy_index_loop (fy_list_reverse_iterate l) Z.succ (fun i => (i <? 0)%Z) steps iterp index =
    if Nat.leb (Z.to_nat (- index)) (fy_iter_before (List.length l) iterp)
    then Some (fy_iter_before (List.length l) iterp - Z.to_nat (- index))
    else None.
Proof.
  induction steps as [|steps IH]; intros iterp index Hi Hs; [lia|].
  simpl.
  assert (Hstep : fy_list_reverse_iterate l iterp =
                  match fy_iter_before (List.length l) iterp with
                  | O => None
                  | S n => Some n
                  end).
  { destruct iterp as [[|p]|]; reflexivity. }
  rewrite Hstep.
  destruct (fy_iter_before (List.length l) iterp) as [|n] eqn:B.
  - destruct (Nat.leb (Z.to_nat (- index)) 0) eqn:Le; [|reflexivity].
    apply Nat.leb_le in Le. lia.
  - destruct (Z.succ index <? 0)%Z eqn:G;
      [apply Z.ltb_lt in G|apply Z.ltb_ge in G].
    + rewrite IH by (cbn [fy_iter_before]; lia). cbn [fy_iter_before].
      destruct (Nat.leb (Z.to_nat (- Z.succ index)) n) eqn:L1;
        destruct (Nat.leb (Z.to_nat (- index)) (S n)) eqn:L2;
        try apply Nat.leb_le in L1; try apply Nat.leb_le in L2;
        try apply Nat.leb_gt in L1; try apply Nat.leb_gt in L2; try lia.
      * f_equal. lia.
      * reflexivity.
    + assert (index = (-1)%Z) by lia. subst index.
      change (Z.to_nat (- -1)) with 1. cbn [Nat.leb]. f_equal. lia.
Qed.

Lemma fy_index_walk_spec (A : Type) (l : list A) index :
  match fy_index_walk (fy_list_iterate l) (fy_list_reverse_iterate l) (List.length l) index with
  | Some i => List.nth_error l i
  | None => None
  end =
  if (index >=? 0)%Z
  then List.nth_error l (Z.to_nat index)
  else List.nth_error (List.rev l) (Z.to_nat (- index - 1)).
Proof.
  unfold fy_index_walk. destruct (index >=? 0)%Z eqn:G; rewrite Z.geb_leb in G;
    [apply Z.leb_le in G|apply Z.leb_gt in G].
  - rewrite fy_index_loop_forward by (simpl; lia). simpl.
    destruct (Nat.ltb (Z.to_nat index) (List.length l)) eqn:Lt; [reflexivity|].
    apply Nat.ltb_ge in Lt. symmetry. now apply nth_error_None.
  - rewrite fy_index_loop_backward by (simpl; lia). simpl.
    rewrite nth_error_rev.
    destruct (Nat.leb (Z.to_nat (- index)) (List.length l)) eqn:Le.
    + apply Nat.leb_le in Le.
      replace (Nat.ltb (Z.to_nat (- index - 1)) (List.length l)) with true
        by (symmetry; apply Nat.ltb_lt; lia).
      f_equal. lia.
    + apply Nat.leb_gt in Le.
      replace (Nat.ltb (Z.to_nat (- index - 1)) (List.length l)) with false
        by (symmetry; apply Nat.ltb_ge; lia).
      reflexivity.
Qed.

(** C9.  Get-by-index counts from the front for an index that is not
    negative and from the back for a negative one ([-1] is the last item);
    an index outside the list gives NULL.  [nth_error] is the item at a
    position, [None] beyond the end. *)
Theorem fy_get_by_index_spec :
  (forall h l s e index,
      fy_node_sequence_get_by_index (Some (fy_sequence h l s e)) index =
      if (index >=? 0)%Z
      then List.nth_error l (Z.to_nat index)
      else List.nth_error (List.rev l) (Z.to_nat (- index - 1))) /\
  (forall h l s e index,
      fy_node_mapping_get_by_index (Some (fy_mapping h l s e)) index =
      if (index >=? 0)%Z
      then List.nth_error l (Z.to_nat index)
      else List.nth_error (List.rev l) (Z.to_nat (- index - 1))).
Proof.
  split; intros h l s e index.
  - unfold fy_node_sequence_get_by_index.
    change (fy_node_sequence_iterate (Some (fy_sequence h l s e))) with (fy_list_iterate l).
    change (fy_node_sequence_reverse_iterate (Some (fy_sequence h l s e)))
      with (fy_list_reverse_iterate l).
    apply fy_index_walk_spec.
  - unfold fy_node_mapping_get_by_index.
    change (fy_node_mapping_iterate (Some (fy_mapping h l s e))) with (fy_list_iterate l).
    change (fy_node_mapping_reverse_iterate (Some (fy_mapping h l s e)))
      with (fy_list_reverse_iterate l).
    apply fy_index_walk_spec.
Qed.

(** ** Anchor lookup *)

Lemma fy_substring_c_str s : substring 0 (strlen s) s = c_str s.
Proof.
  unfold strlen. induction s as [|c r IH]; simpl; [reflexivity|].
  destruct (Ascii.eqb c NUL); simpl; [reflexivity|]. now rewrite IH.
Qed.

Lemma fy_c_str_idem s : c_str (c_str s) = c_str s.
Proof.
  induction s as [|c r IH]; simpl; [reflexivity|].
  destruct (Ascii.eqb c NUL) eqn:E; simpl; [reflexivity|]. now rewrite E, IH.
Qed.

(** The scan compares the looked-up name with each anchor's text. *)
Lemma fy_anchor_list_scan_find fyal anchor :
  fy_anchor_list_scan fyal anchor (strlen anchor) =
  List.find (fun fya => String.eqb (c_str anchor) (fy_anchor_get_text fya)) fyal.
Proof.
  induction fyal as [|fya r IH]; simpl; [reflexivity|].
  rewrite IH.
  replace (Nat.eqb (strlen anchor) (String.length (fy_anchor_get_text fya))
           && memcmp_eq anchor (fy_anchor_get_text fya) (strlen anchor))
    with (String.eqb (c_str anchor) (fy_anchor_get_text fya)); [reflexivity|].
  unfold memcmp_eq. rewrite fy_substring_c_str.
  destruct (Nat.eqb (strlen anchor) (String.length (fy_anchor_get_text fya))) eqn:L; simpl.
  - apply Nat.eqb_eq in L. rewrite L, fy_substring_all. reflexivity.
  - apply Nat.eqb_neq in L. apply String.eqb_neq. intros E. apply L.
    unfold strlen. now rewrite E.
Qed.

Lemma fy_find_app (A : Type) (f : A -> bool) l1 l2 :
  List.find f (l1 ++ l2) =
  match List.find f l1 with
  | Some x => Some x
  | None => List.find f l2
  end.
Proof.
  induction l1 as [|x r IH]; simpl; [reflexivity|].
  destruct (f x); [reflexivity|exact IH].
Qed.

Lemma fy_find_map (A B : Type) (g : A -> B) (f : B -> bool) l :
  List.find f (List.map g l) = option_map g (List.find (fun x => f (g x)) l).
Proof.
  induction l as [|x r IH]; simpl; [reflexivity|].
  destruct (f (g x)); [reflexivity|exact IH].
Qed.

Lemma fy_find_ext (A : Type) (f g : A -> bool) l :
  (forall x, f x = g x) -> List.find f l = List.find g l.
Proof.
  intros H. induction l as [|x r IH]; simpl; [reflexivity|].
  rewrite H, IH. reflexivity.
Qed.

Lemma fy_declare_fresh fyd d :
  fy_document_lookup_anchor_by_node fyd (Some (fst d)) = None ->
  fyd_anchors (fy_anchor_declare fyd d) = fy_declared_anchor d :: fyd_anchors fyd.
Proof.
  intros H. unfold fy_anchor_declare, fy_document_set_anchor.
  rewrite H. reflexivity.
Qed.

Lemma fy_declare_all_anchors ds :
  forall fyd,
    NoDup (List.map fst ds) ->
    Forall (fun d => fy_document_lookup_anchor_by_node fyd (Some (fst d)) = None) ds ->
    fyd_anchors (fy_anchor_declare_all fyd ds) =
    List.rev (List.map fy_declared_anchor ds) ++ fyd_anchors fyd.
Proof.
  induction ds as [|d r IH]; intros fyd Hnd Hfresh; [reflexivity|].
  simpl. inversion Hnd as [|x xs Hnotin Hnd']; subst.
  inversion Hfresh as [|y ys Hd Hr]; subst.
  unfold fy_anchor_declare_all in *. simpl.
  rewrite IH; [|exact Hnd'|].
  - rewrite fy_declare_fresh by exact Hd. rewrite <- app_assoc. reflexivity.
  - rewrite Forall_forall in *. intros e He.
    unfold fy_document_lookup_anchor_by_node.
    rewrite fy_declare_fresh by exact Hd. simpl.
    destruct (fy_anchor_on (fst e) (fy_declared_anchor d)) eqn:On.
    + exfalso. unfold fy_anchor_on in On. simpl in On. apply Nat.eqb_eq in On.
      apply Hnotin. rewrite On. now apply in_map.
    + apply (Hr e He).
Qed.

(** C7.  Lookup by name returns the most recently declared anchor of that
    name.  Anchors are declared on distinct nodes that carried none, oldest
    first; whichever anchors share the name, the lookup answers with the
    last declaration of it, and falls back to the older anchors of the
    document when the run declares none. *)
Theorem fy_document_lookup_anchor_most_recent fyd ds name :
  NoDup (List.map fst ds) ->
  Forall (fun d => fy_document_lookup_anchor_by_node fyd (Some (fst d)) = None) ds ->
  fy_document_lookup_anchor (fy_anchor_declare_all fyd ds) name =
  match List.find (fun d => String.eqb (c_str name) (c_str (snd d))) (List.rev ds) with
  | Some d => Some (fy_declared_anchor d)
  | None => fy_document_lookup_anchor fyd name
  end.
Proof.
  intros Hnd Hfresh. unfold fy_document_lookup_anchor.
  rewrite !fy_anchor_list_scan_find, fy_declare_all_anchors by assumption.
  rewrite fy_find_app, <- map_rev, fy_find_map.
  assert (E : forall d, fy_anchor_get_text (fy_declared_anchor d) = c_str (snd d)).
  { intros d. unfold fy_declared_anchor, fy_anchor_get_text, fy_anchor_token. simpl.
    apply fy_substring_c_str. }
  rewrite (@fy_find_ext _
             (fun x => String.eqb (c_str name) (fy_anchor_get_text (fy_declared_anchor x)))
             (fun d => String.eqb (c_str name) (c_str (snd d))))
    by (intros d; now rewrite E).
  destruct (List.find _ (List.rev ds)); reflexivity.
Qed.

(** ** Lookup, insertion and removal by key *)

Lemma fy_pair_list_lookup_found pre :
  forall i fynp post fyn_key,
    Forall (fun q : fy_node_pair => fy_node_compare (key q) fyn_key = false) pre ->
    fy_node_compare (key fynp) fyn_key = true ->
    fy_pair_list_lookup (pre ++ fynp :: post) fyn_key i = Some (i + List.length pre).
Proof.
  induction pre as [|q r IH]; intros i fynp post fyn_key Hpre Hk; simpl.
  - rewrite Hk. f_equal. lia.
  - inversion Hpre as [|x xs Hq Hr]; subst. rewrite Hq.
    rewrite IH by assumption. f_equal. lia.
Qed.

Lemma fy_pair_list_lookup_none l :
  forall i fyn_key,
    Forall (fun q : fy_node_pair => fy_node_compare (key q) fyn_key = false) l <->
    fy_pair_list_lookup l fyn_key i = None.
Proof.
  induction l as [|q r IH]; intros i fyn_key; simpl.
  - split; [reflexivity|constructor].
  - destruct (fy_node_compare (key q) fyn_key) eqn:E.
    + split; [|discriminate]. intros H. inversion H; subst. congruence.
    + rewrite <- IH. split.
      * intros H. now inversion H.
      * intros H. now constructor.
Qed.

Lemma fy_pair_list_lookup_some l :
  forall i fyn_key n,
    fy_pair_list_lookup l fyn_key i = Some n ->
    exists pre fynp post,
      l = pre ++ fynp :: post /\ n = i + List.length pre /\
      Forall (fun q : fy_node_pair => fy_node_compare (key q) fyn_key = false) pre /\
      fy_node_compare (key fynp) fyn_key = true.
Proof.
  induction l as [|q r IH]; intros i fyn_key n H; simpl in H; [discriminate|].
  destruct (fy_node_compare (key q) fyn_key) eqn:E.
  - inversion H; subst. exists [], q, r. repeat split; auto; simpl; lia.
  - destruct (IH _ _ _ H) as (pre & p & post & -> & -> & Hpre & Hk).
    exists (q :: pre), p, post. repeat split; auto; simpl; lia.
Qed.

Lemma fy_list_del_middle (A : Type) (pre : list A) x post :
  fy_list_del (pre ++ x :: post) (List.length pre) = pre ++ post.
Proof.
  unfold fy_list_del. induction pre as [|y r IH]; simpl; [reflexivity|].
  f_equal. exact IH.
Qed.

Lemma fy_nth_error_middle (A : Type) (pre : list A) x post :
  List.nth_error (pre ++ x :: post) (List.length pre) = Some x.
Proof.
  rewrite nth_error_app2 by lia. now rewrite Nat.sub_diag.
Qed.

(** C10.  [fy_node_mapping_remove_by_key] unlinks the first pair whose key
    compares equal to the given key and returns that pair's value with its
    parent link cleared; when no key of the mapping compares equal it
    returns NULL and the mapping is as it was. *)
Theorem fy_node_mapping_remove_by_key_spec h l s e fyn_key :
  (forall pre fynp post,
      l = pre ++ fynp :: post ->
      Forall (fun q : fy_node_pair => fy_node_compare (key q) fyn_key = false) pre ->
      fy_node_compare (key fynp) fyn_key = true ->
      fy_node_mapping_remove_by_key (fy_mapping h l s e) fyn_key =
      (option_map (fy_set_parent None) (value fynp), fy_mapping h (pre ++ post) s e)) /\
  (Forall (fun q : fy_node_pair => fy_node_compare (key q) fyn_key = false) l ->
   fy_node_mapping_remove_by_key (fy_mapping h l s e) fyn_key =
   (None, fy_mapping h l s e)).
Proof.
  split.
  - intros pre fynp post -> Hpre Hk.
    unfold fy_node_mapping_remove_by_key, fy_node_mapping_lookup_pair. simpl.
    rewrite fy_pair_list_lookup_found by assumption. simpl.
    rewrite fy_nth_error_middle, fy_list_del_middle. reflexivity.
  - intros Hall.
    unfold fy_node_mapping_remove_by_key, fy_node_mapping_lookup_pair. simpl.
    apply (fy_pair_list_lookup_none l 0) in Hall. now rewrite Hall.
Qed.


(** ** Addresses *)

Lemma fy_subnode_addr x n : fy_subnode x n -> In (fy_addr x) (fy_node_addrs n).
Proof.
  induction 1 as [|h l s e c Hc Hx IH|h l s e p c Hp Hk Hx IH|h l s e p c Hp Hv Hx IH].
  - destruct x; simpl; auto.
  - simpl. right. apply in_flat_map. exists c. split; assumption.
  - simpl. right. apply in_flat_map. exists p. split; [assumption|].
    destruct p as [k v]. simpl in Hk. subst k. apply in_or_app. now left.
  - simpl. right. apply in_flat_map. exists p. split; [assumption|].
    destruct p as [k v]. simpl in Hv. subst v. apply in_or_app. now right.
Qed.

(** Trees at disjoint addresses lie in one memory. *)
Lemma fy_same_heap_disjoint n1 n2 :
  (forall a, In a (fy_node_addrs n1) -> In a (fy_node_addrs n2) -> False) ->
  fy_same_heap (Some n1) (Some n2).
Proof.
  intros H x y Hx Hy E. exfalso. simpl in Hx, Hy.
  apply (H (fy_addr x)).
  - now apply fy_subnode_addr.
  - rewrite E. now apply fy_subnode_addr.
Qed.

(** ** The loader never links a duplicate key *)



Lemma fy_key_is_duplicate_false h l s e fyn_key :
  fy_node_mapping_key_is_duplicate (fy_mapping h l s e) fyn_key = false ->
  Forall (fun q : fy_node_pair => fy_node_compare (key q) fyn_key = false) l.
Proof.
  unfold fy_node_mapping_key_is_duplicate, fy_node_mapping_lookup_pair. simpl.
  destruct (fy_pair_list_lookup l fyn_key 0) eqn:E; [discriminate|].
  intros _. now apply (fy_pair_list_lookup_none l 0).
Qed.

Lemma fy_key_is_duplicate_true h l s e fyn_key :
  Exists (fun q : fy_node_pair => fy_node_compare (key q) fyn_key = true) l ->
  fy_node_mapping_key_is_duplicate (fy_mapping h l s e) fyn_key = true.
Proof.
  intros Hex. unfold fy_node_mapping_key_is_duplicate, fy_node_mapping_lookup_pair. simpl.
  destruct (fy_pair_list_lookup l fyn_key 0) eqn:E; [reflexivity|].
  apply fy_pair_list_lookup_none in E. rewrite Forall_forall in E.
  apply Exists_exists in Hex. destruct Hex as (q & Hq & Hc).
  rewrite (E q Hq) in Hc. discriminate.
Qed.






(** ** Scenario S3 *)


(** ** Merge-key expansion *)

Lemma fy_list_set_middle (A : Type) (pre : list A) x y post :
  fy_list_set (pre ++ x :: post) (List.length pre) y = pre ++ y :: post.
Proof.
  unfold fy_list_set. induction pre as [|z r IH]; simpl; [reflexivity|].
  f_equal. exact IH.
Qed.

Lemma fy_list_insert_after_middle (A : Type) (pre : list A) x n post :
  fy_list_insert_after (pre ++ x :: post) (List.length pre) n = pre ++ x :: n :: post.
Proof.
  unfold fy_list_insert_after. induction pre as [|z r IH]; simpl; [reflexivity|].
  f_equal. exact IH.
Qed.

Lemma fy_node_copy_anchor_some fyd fyn_from fyn x fyd' :
  fy_node_copy_anchor fyd fyn_from fyn = (Some x, fyd') -> x = fyn.
Proof.
  unfold fy_node_copy_anchor.
  destruct (List.find _ _); [|now inversion 1].
  destruct (fy_document_lookup_anchor_by_token _ _); [now inversion 1|].
  destruct (fy_parse_document_register_anchor _ _ _) as [rc fyd1].
  destruct (rc =? 0)%Z; now inversion 1.
Qed.

(** A copy is a node of the same type and style, and a copied scalar holds
    the same token. *)
Lemma fy_node_copy_node_same n fyd x fyd' :
  fy_node_copy_node n fyd = (Some x, fyd') ->
  fy_type x = fy_type n /\ fy_style x = fy_style n /\ fy_scalar_token x = fy_scalar_token n.
Proof.
  destruct n as [h s|h l ss se|h m ms me]; simpl.
  - intros H. apply fy_node_copy_anchor_some in H. subst. auto.
  - match goal with
    | |- context [let '(_, _) := ?t in _] => destruct t as [[items|] fyd1]
    end.
    + intros H. apply fy_node_copy_anchor_some in H. subst. auto.
    + discriminate.
  - match goal with
    | |- context [let '(_, _) := ?t in _] => destruct t as [pairs fyd1]
    end.
    intros H. apply fy_node_copy_anchor_some in H. subst. auto.
Qed.

Lemma fy_plain_atom_streq_text fyt str :
  fy_plain_atom_streq fyt str = true -> fy_token_get_text fyt = str.
Proof.
  destruct fyt as [t|]; simpl; [|discriminate]. apply String.eqb_eq.
Qed.

(** What makes a pair a merge pair is the type, style and text of its key. *)
Lemma fy_merge_key_iff (fynp : fy_node_pair) :
  fy_node_pair_is_merge_key fynp = true <->
  exists k, key fynp = Some k /\ fy_type k = FYNT_SCALAR /\ fy_style k = FYNS_PLAIN /\
            fy_plain_atom_streq (fy_scalar_token k) "<<" = true.
Proof.
  unfold fy_node_pair_is_merge_key. destruct (key fynp) as [k|].
  - rewrite !andb_true_iff. split.
    + intros [[T S] P]. exists k. repeat split; auto.
      * destruct (fy_type k); simpl in T; congruence.
      * destruct (fy_style k); simpl in S; congruence.
    + intros (k' & E & T & S & P). inversion E; subst k'.
      rewrite T, S. auto.
  - split; [discriminate|]. intros (k & E & _). discriminate.
Qed.

(** A scalar whose text is [<<] compares equal to the key of a merge pair,
    whatever its style. *)
Lemma fy_merge_key_compare (mp : fy_node_pair) k :
  fy_node_pair_is_merge_key mp = true ->
  fy_type k = FYNT_SCALAR ->
  fy_plain_atom_streq (fy_scalar_token k) "<<" = true ->
  fy_node_compare (key mp) (Some k) = true.
Proof.
  intros Hm Tk Pk. apply fy_merge_key_iff in Hm.
  destruct Hm as (m & Em & Tm & _ & Pm). rewrite Em.
  rewrite fy_node_compare_eq.
  destruct (fy_ptr_eqb (Some m) (Some k)); [reflexivity|].
  destruct m as [hm sm| |]; try discriminate.
  destruct k as [hk sk| |]; try discriminate.
  simpl in Pm, Pk.
  apply fy_plain_atom_streq_text in Pm. apply fy_plain_atom_streq_text in Pk.
  rewrite !fy_node_is_null_scalar, Pm, Pk. reflexivity.
Qed.

(** One round of the populate loop: a key the target has is passed over and
    the target stays as it is; otherwise copies of key and value go in
    right after the merge pair.  Next to a merge pair no pair that goes in
    is a merge pair itself. *)
Lemma fy_populate_pair_spec fyd h pre mp rest s e fynpi :
  let fyn := fy_mapping h (pre ++ mp :: rest) s e in
  (Exists (fun q : fy_node_pair => fy_node_compare (key q) (key fynpi) = true)
          (pre ++ mp :: rest) ->
   fy_resolve_merge_key_populate_pair fyd fyn (List.length pre) fynpi = (fyn, fyd)) /\
  (Forall (fun q : fy_node_pair => fy_node_compare (key q) (key fynpi) = false)
          (pre ++ mp :: rest) ->
   exists k v fyd1 fyd2,
     fy_node_copy fyd (key fynpi) = (k, fyd1) /\
     fy_node_copy fyd1 (value fynpi) = (v, fyd2) /\
     fy_resolve_merge_key_populate_pair fyd fyn (List.length pre) fynpi =
     (fy_mapping h (pre ++ mp :: mk_pair k v :: rest) s e, fyd2) /\
     (fy_node_pair_is_merge_key mp = true ->
      fy_node_pair_is_merge_key (mk_pair k v) = false)).
Proof.
  intros fyn. unfold fy_resolve_merge_key_populate_pair. split.
  - intros Hex. unfold fyn. now rewrite (@fy_key_is_duplicate_true h _ s e _ Hex).
  - intros Hall.
    assert (Hdup : fy_node_mapping_key_is_duplicate fyn (key fynpi) = false).
    { unfold fy_node_mapping_key_is_duplicate, fy_node_mapping_lookup_pair, fyn. simpl.
      apply (fy_pair_list_lookup_none _ 0) in Hall. now rewrite Hall. }
    rewrite Hdup.
    destruct (fy_node_copy fyd (key fynpi)) as [k fyd1] eqn:Ek.
    destruct (fy_node_copy fyd1 (value fynpi)) as [v fyd2] eqn:Ev.
    exists k, v, fyd1, fyd2.
    split; [reflexivity|]. split; [exact Ev|]. split.
    + unfold fyn. simpl. now rewrite fy_list_insert_after_middle.
    + intros Hm.
      destruct (fy_node_pair_is_merge_key (mk_pair k v)) eqn:Hk; [|reflexivity].
      exfalso. apply fy_merge_key_iff in Hk.
      destruct Hk as (k' & E & T & _ & P). simpl in E. subst k.
      destruct (key fynpi) as [src|] eqn:Es; simpl in Ek; [|discriminate].
      apply fy_node_copy_node_same in Ek. destruct Ek as (Ty & _ & Tok).
      rewrite Forall_forall in Hall.
      assert (Hin : In mp (pre ++ mp :: rest)) by (apply in_or_app; right; now left).
      specialize (Hall mp Hin).
      rewrite fy_merge_key_compare in Hall; congruence.
Qed.

Lemma fy_expands_refl h pre mp rest s e :
  fy_expands h pre mp rest s e (fy_mapping h (pre ++ mp :: rest) s e).
Proof. exists []. split; [reflexivity|constructor]. Qed.

Lemma fy_expands_trans h pre mp rest s e ins fyn' :
  (fy_node_pair_is_merge_key mp = true -> fy_no_merge_pairs ins) ->
  fy_expands h pre mp (ins ++ rest) s e fyn' ->
  fy_expands h pre mp rest s e fyn'.
Proof.
  intros Hins (ins2 & -> & H2). exists (ins2 ++ ins). split.
  - now rewrite <- app_assoc.
  - intros Hm. unfold fy_no_merge_pairs in *. apply Forall_app. split; auto.
Qed.

Lemma fy_populate_pair_shape fyd h pre mp rest s e fynpi :
  forall fyn' fyd',
    fy_resolve_merge_key_populate_pair fyd (fy_mapping h (pre ++ mp :: rest) s e)
                                       (List.length pre) fynpi = (fyn', fyd') ->
    fy_expands h pre mp rest s e fyn'.
Proof.
  intros fyn' fyd' H.
  destruct (fy_populate_pair_spec fyd h pre mp rest s e fynpi) as [Hdup Hnew].
  destruct (fy_node_mapping_key_is_duplicate (fy_mapping h (pre ++ mp :: rest) s e)
                                             (key fynpi)) eqn:D.
  - unfold fy_resolve_merge_key_populate_pair in H. rewrite D in H.
    inversion H; subst. apply fy_expands_refl.
  - apply fy_key_is_duplicate_false in D.
    destruct (Hnew D) as (k & v & fyd1 & fyd2 & _ & _ & E & Hk).
    rewrite E in H. inversion H; subst.
    exists [mk_pair k v]. split; [reflexivity|].
    intros Hm. constructor; [auto|constructor].
Qed.

Lemma fy_populate_loop_shape ctx pm js :
  forall fyd h pre mp rest s e fyn' fyd',
    fy_resolve_merge_key_populate_loop fyd ctx (fy_mapping h (pre ++ mp :: rest) s e)
                                       (List.length pre) pm js = (fyn', fyd') ->
    fy_expands h pre mp rest s e fyn'.
Proof.
  induction js as [|j js IH]; intros fyd h pre mp rest s e fyn' fyd' H; simpl in H.
  { inversion H; subst. apply fy_expands_refl. }
  destruct (option_map fy_mapping_of _) as [m|];
    [|inversion H; subst; apply fy_expands_refl].
  destruct (List.nth_error m j) as [fynpi|];
    [|inversion H; subst; apply fy_expands_refl].
  destruct (fy_resolve_merge_key_populate_pair fyd _ _ fynpi) as [fyn1 fyd1] eqn:E.
  apply fy_populate_pair_shape in E. destruct E as (ins & -> & Hins).
  eapply fy_expands_trans; [exact Hins|]. eapply IH. exact H.
Qed.

Lemma fy_populate_shape fyd ctx h pre mp rest s e fynm :
  forall rc fyn' fyd',
    fy_resolve_merge_key_populate fyd ctx (fy_mapping h (pre ++ mp :: rest) s e)
                                  (List.length pre) fynm = (rc, fyn', fyd') ->
    fy_expands h pre mp rest s e fyn'.
Proof.
  intros rc fyn' fyd' H. unfold fy_resolve_merge_key_populate in H.
  destruct (negb _); [inversion H; subst; apply fy_expands_refl|].
  destruct (fy_resolve_merge_key_populate_loop _ _ _ _ _ _) as [fyn1 fyd1] eqn:E.
  inversion H; subst. eapply fy_populate_loop_shape; eauto.
Qed.

Lemma fy_merge_key_loop_shape ctx items :
  forall fyd h pre mp rest s e rc fyn' fyd',
    fy_resolve_merge_key_loop fyd ctx (fy_mapping h (pre ++ mp :: rest) s e)
                              (List.length pre) items = (rc, fyn', fyd') ->
    fy_expands h pre mp rest s e fyn'.
Proof.
  induction items as [|fyni items IH]; intros fyd h pre mp rest s e rc fyn' fyd' H;
    simpl in H.
  { inversion H; subst. apply fy_expands_refl. }
  destruct (fy_alias_get_merge_mapping _ _ _) as [fynm|];
    [|inversion H; subst; apply fy_expands_refl].
  destruct (fy_resolve_merge_key_populate _ _ _ _ fynm) as [[rc1 fyn1] fyd1] eqn:E.
  apply fy_populate_shape in E. destruct E as (ins & -> & Hins).
  destruct (negb (rc1 =? 0)%Z).
  - inversion H; subst. exists ins. auto.
  - eapply fy_expands_trans; [exact Hins|]. eapply IH. exact H.
Qed.

(** [fy_resolve_merge_key], whatever it returns, keeps that shape. *)
Lemma fy_resolve_merge_key_shape fyd ctx h pre mp rest s e :
  forall rc fyn' fyd',
    fy_resolve_merge_key fyd ctx (fy_mapping h (pre ++ mp :: rest) s e)
                         (List.length pre) = (rc, fyn', fyd') ->
    fy_expands h pre mp rest s e fyn'.
Proof.
  intros rc fyn' fyd' H. unfold fy_resolve_merge_key in H.
  cbn [fy_mapping_of] in H. rewrite fy_nth_error_middle in H.
  destruct (negb _); [inversion H; subst; apply fy_expands_refl|].
  destruct (fy_alias_get_merge_mapping _ _ _) as [fynm|].
  - eapply fy_populate_shape; eauto.
  - destruct (value mp) as [[| |]|];
      try (inversion H; subst; apply fy_expands_refl).
    eapply fy_merge_key_loop_shape; eauto.
Qed.





(** ** The resolver's loops *)

Lemma fy_keep_rc_zero ret_rc rc :
  fy_keep_rc ret_rc rc = 0%Z -> ret_rc = 0%Z /\ rc = 0%Z.
Proof.
  unfold fy_keep_rc.
  destruct (Z.eqb_spec rc 0), (Z.eqb_spec ret_rc 0); simpl; intros; subst; auto;
    contradiction.
Qed.

(** A loop that ends with return code 0 was entered with 0. *)
Lemma fy_resolve_mapping_loop_rc resolve todo :
  forall fyd ctx fyn ret_rc fyn' fyd',
    fy_resolve_mapping_loop resolve fyd ctx fyn todo ret_rc = Some (0%Z, fyn', fyd') ->
    ret_rc = 0%Z.
Proof.
  induction todo as [|todo IH]; intros fyd ctx fyn ret_rc fyn' fyd' H.
  - simpl in H. congruence.
  - cbn [fy_resolve_mapping_loop] in H.
    destruct (List.nth_error _ _) as [fynp|]; [|congruence].
    destruct (fy_node_pair_is_merge_key fynp).
    + destruct (fy_resolve_merge_key _ _ _ _) as [[rc fyn1] fyd1].
      destruct (rc =? 0)%Z; apply IH in H; apply fy_keep_rc_zero in H; tauto.
    + destruct (fy_resolve_opt _ _ _ (key fynp)) as [[[rc k] fyd1]|]; [|discriminate].
      destruct (fy_resolve_opt _ _ _ (value fynp)) as [[[rc2 v] fyd2]|]; [|discriminate].
      apply IH in H. apply fy_keep_rc_zero in H. destruct H as [H _].
      apply fy_keep_rc_zero in H. tauto.
Qed.

(** The loops hand back the node they were given, with a new list. *)
Lemma fy_resolve_sequence_loop_type resolve h s e todo :
  forall fyd ctx l ret_rc r,
    fy_resolve_sequence_loop resolve fyd ctx (fy_sequence h l s e) todo ret_rc = Some r ->
    exists l', snd (fst r) = fy_sequence h l' s e.
Proof.
  induction todo as [|todo IH]; intros fyd ctx l ret_rc r H.
  - simpl in H. inversion H; subst. exists l. auto.
  - cbn [fy_resolve_sequence_loop fy_sequence_of] in H.
    destruct (List.nth_error _ _) as [fyni|].
    + destruct (resolve _ _ _) as [[[rc fyni'] fyd1]|]; [|discriminate].
      cbn [fy_with_sequence] in H. eapply IH; eauto.
    + inversion H; subst. exists l. auto.
Qed.

Lemma fy_resolve_merge_key_type fyd ctx h l s e i rc fyn1 fyd1 :
  fy_resolve_merge_key fyd ctx (fy_mapping h l s e) i = (rc, fyn1, fyd1) ->
  exists l', fyn1 = fy_mapping h l' s e.
Proof.
  intros H.
  destruct (List.nth_error l i) as [p|] eqn:E.
  - destruct (nth_error_split _ _ E) as (pre & post & -> & <-).
    destruct (fy_resolve_merge_key_shape _ _ _ _ _ _ _ _ H) as (ins & -> & _).
    eauto.
  - unfold fy_resolve_merge_key in H. cbn [fy_mapping_of] in H. rewrite E in H.
    inversion H; subst. eauto.
Qed.

Lemma fy_resolve_mapping_loop_type resolve h s e todo :
  forall fyd ctx l ret_rc r,
    fy_resolve_mapping_loop resolve fyd ctx (fy_mapping h l s e) todo ret_rc = Some r ->
    exists l', snd (fst r) = fy_mapping h l' s e.
Proof.
  induction todo as [|todo IH]; intros fyd ctx l ret_rc r H.
  - simpl in H. inversion H; subst. exists l. auto.
  - cbn [fy_resolve_mapping_loop fy_mapping_of] in H.
    destruct (List.nth_error _ _) as [fynp|].
    + destruct (fy_node_pair_is_merge_key fynp).
      * destruct (fy_resolve_merge_key _ _ _ _) as [[rc fyn1] fyd1] eqn:E.
        destruct (@fy_resolve_merge_key_type _ _ _ _ _ _ _ _ _ _ E) as [l1 ->].
        destruct (rc =? 0)%Z; cbn [fy_with_mapping] in H; eapply IH; eauto.
      * destruct (fy_resolve_opt _ _ _ (key fynp)) as [[[rc k] fyd1]|]; [|discriminate].
        destruct (fy_resolve_opt _ _ _ (value fynp)) as [[[rc2 v] fyd2]|]; [|discriminate].
        cbn [fy_with_mapping] in H. eapply IH; eauto.
    + inversion H; subst. exists l. auto.
Qed.

(** Resolving a node that is no alias leaves a scalar as it is, and a
    sequence or a mapping the node it was. *)
Lemma fy_resolve_anchor_node_kind depth fyd ctx fyn r :
  fy_node_is_alias (Some fyn) = false ->
  fy_resolve_anchor_node depth fyd ctx fyn = Some r ->
  match fyn with
  | fy_scalar _ _ => snd (fst r) = fyn
  | fy_sequence h _ s e => exists l', snd (fst r) = fy_sequence h l' s e
  | fy_mapping h _ s e => exists l', snd (fst r) = fy_mapping h l' s e
  end.
Proof.
  intros Ha H. destruct depth as [|depth]; [discriminate|].
  cbn [fy_resolve_anchor_node] in H. rewrite Ha in H.
  destruct fyn as [h t|h l s e|h l s e].
  - inversion H; subst. reflexivity.
  - eapply fy_resolve_sequence_loop_type; eauto.
  - eapply fy_resolve_mapping_loop_type; eauto.
Qed.

(** So a key that is no alias is a merge key after the resolver's visit only
    if it was one before. *)
Lemma fy_resolve_key_not_merge depth fyd ctx k rc k' fyd' v v' :
  fy_node_is_alias k = false ->
  fy_resolve_opt (fy_resolve_anchor_node depth) fyd ctx k = Some (rc, k', fyd') ->
  fy_node_pair_is_merge_key (mk_pair k' v') = fy_node_pair_is_merge_key (mk_pair k v).
Proof.
  intros Ha H. destruct k as [n|]; cbn [fy_resolve_opt] in H.
  - destruct (fy_resolve_anchor_node _ _ _ _) as [[[rc1 n1] fyd1]|] eqn:E; [|discriminate].
    inversion H; subst.
    pose proof (fy_resolve_anchor_node_kind _ _ _ _ Ha E) as K.
    destruct n as [h t|h l s e|h l s e]; cbn [fst snd] in K.
    + subst. reflexivity.
    + destruct K as [l' ->]. reflexivity.
    + destruct K as [l' ->]. reflexivity.
  - inversion H; subst. reflexivity.
Qed.

(** The mapping loop, with the pairs [pre] behind it and the pairs [post]
    still to visit: when no key to visit is an alias and the loop ends with
    return code 0, it leaves no merge pair. *)
Lemma fy_resolve_mapping_loop_no_merge depth h s e :
  forall post pre fyd ctx ret_rc fyn' fyd',
    fy_no_merge_pairs pre ->
    Forall (fun p : fy_node_pair => fy_node_is_alias (key p) = false) post ->
    fy_resolve_mapping_loop (fy_resolve_anchor_node depth) fyd ctx
      (fy_mapping h (pre ++ post) s e) (List.length post) ret_rc = Some (0%Z, fyn', fyd') ->
    exists l', fyn' = fy_mapping h l' s e /\ fy_no_merge_pairs l'.
Proof.
  induction post as [|p post IH]; intros pre fyd ctx ret_rc fyn' fyd' Hpre Hpost H.
  - simpl in H. inversion H; subst. rewrite app_nil_r. eauto.
  - cbn [fy_resolve_mapping_loop fy_mapping_of List.length] in H.
    replace (List.length (pre ++ p :: post) - S (List.length post)) with (List.length pre) in H
      by (rewrite length_app; simpl; lia).
    rewrite fy_nth_error_middle in H.
    inversion Hpost as [|? ? Hk Hrest]; subst.
    destruct (fy_node_pair_is_merge_key p) eqn:Hm.
    + destruct (fy_resolve_merge_key _ _ _ _) as [[rc fyn1] fyd1] eqn:E.
      destruct (Z.eqb_spec rc 0) as [->|Hrc].
      * destruct (fy_resolve_merge_key_shape _ _ _ _ _ _ _ _ E) as (ins & -> & Hins).
        cbn [fy_with_mapping fy_mapping_of] in H. rewrite fy_list_del_middle in H.
        rewrite app_assoc in H. apply IH in H; auto.
        apply Forall_app; split; auto. apply Hins; exact Hm.
      * apply fy_resolve_mapping_loop_rc in H. apply fy_keep_rc_zero in H. tauto.
    + destruct (fy_resolve_opt _ _ _ (key p)) as [[[rc k] fyd1]|] eqn:Ek; [|discriminate].
      destruct (fy_resolve_opt _ _ _ (value p)) as [[[rc2 v] fyd2]|] eqn:Ev; [|discriminate].
      cbn [fy_with_mapping] in H. rewrite fy_list_set_middle in H.
      change (pre ++ mk_pair k v :: post) with (pre ++ [mk_pair k v] ++ post) in H.
      rewrite app_assoc in H. apply IH in H; auto.
      apply Forall_app; split; auto. constructor; [|constructor].
      rewrite (@fy_resolve_key_not_merge depth _ _ (key p) rc k fyd1 (value p) v Hk Ek).
      destruct p; exact Hm.
Qed.

Lemma fy_resolve_parent_pairs_no_merge (f g : fy_node -> fy_node) (l : list fy_node_pair) :
  (forall n, fy_type (f n) = fy_type n /\ fy_style (f n) = fy_style n
             /\ fy_scalar_token (f n) = fy_scalar_token n) ->
  fy_no_merge_pairs l ->
  fy_no_merge_pairs
    (List.map (fun p : fy_node_pair =>
                 let (k, v) := p in
                 mk_pair (match k with Some n => Some (f n) | None => None end)
                         (match v with Some n => Some (g n) | None => None end)) l).
Proof.
  intros Hf H. unfold fy_no_merge_pairs in *. apply Forall_map.
  eapply Forall_impl; [|exact H].
  intros [[n|] v] Hp; [|reflexivity].
  unfold fy_node_pair_is_merge_key in *. cbn [key] in *.
  destruct (Hf n) as (-> & -> & ->). exact Hp.
Qed.

Lemma fy_resolve_parent_node_key n pp :
  fy_type (fy_resolve_parent_node n pp) = fy_type n /\
  fy_style (fy_resolve_parent_node n pp) = fy_style n /\
  fy_scalar_token (fy_resolve_parent_node n pp) = fy_scalar_token n.
Proof.
  destruct n; simpl; auto.
Qed.

(** C3.  Merge-key normalisation, as far as the resolver gives it.  A
    mapping the resolver visits, none of whose keys is an alias, holds no
    pair with the plain scalar key << among its own pairs once the visit has
    returned 0, the pairs that the expansion linked in included; the same for
    the root mapping of a document that [fy_document_resolve] resolved with
    return code 0.  (A key that is an alias may turn into such a scalar, and
    what a copy brings along below it is not visited.) *)
Theorem fy_resolve_no_merge_key :
  (forall depth fyd ctx h l s e fyn' fyd',
      Forall (fun p : fy_node_pair => fy_node_is_alias (key p) = false) l ->
      fy_resolve_anchor_node depth fyd ctx (fy_mapping h l s e) = Some (0%Z, fyn', fyd') ->
      exists l', fyn' = fy_mapping h l' s e /\ fy_no_merge_pairs l') /\
  (forall depth fyd h l s e fyd',
      fyd_root fyd = Some (fy_mapping h l s e) ->
      Forall (fun p : fy_node_pair => fy_node_is_alias (key p) = false) l ->
      fy_document_resolve depth fyd = Some (0%Z, fyd') ->
      exists h' l', fyd_root fyd' = Some (fy_mapping h' l' s e) /\ fy_no_merge_pairs l').
Proof.
  assert (N : forall depth fyd ctx h l s e fyn' fyd',
             Forall (fun p : fy_node_pair => fy_node_is_alias (key p) = false) l ->
             fy_resolve_anchor_node depth fyd ctx (fy_mapping h l s e) = Some (0%Z, fyn', fyd') ->
             exists l', fyn' = fy_mapping h l' s e /\ fy_no_merge_pairs l').
  { intros depth fyd ctx h l s e fyn' fyd' Hl H.
    destruct depth as [|depth]; [discriminate|].
    cbn [fy_resolve_anchor_node] in H.
    replace (fy_node_is_alias (Some (fy_mapping h l s e))) with false in H by reflexivity.
    apply (@fy_resolve_mapping_loop_no_merge depth h s e l [] fyd ctx 0%Z fyn' fyd');
      [constructor|exact Hl|exact H]. }
  split; [exact N|].
  intros depth fyd h l s e fyd' Hr Hl H.
  unfold fy_document_resolve in H. rewrite Hr in H.
  destruct (fy_resolve_anchor_node _ _ _ _) as [[[rc root] fyd1]|] eqn:E; [|discriminate].
  inversion H; subst.
  destruct (N _ _ _ _ _ _ _ _ _ Hl E) as (l' & -> & Hl').
  cbn [fyd_root fy_resolve_parent_node]. eexists _, _. split; [reflexivity|].
  apply fy_resolve_parent_pairs_no_merge; [|exact Hl'].
  intros n. apply fy_resolve_parent_node_key.
Qed.

(** ** The resolver answers *)

Section ResolveTotal.

Variable resolve : fy_document -> fy_ctx -> fy_node -> option fy_resolved.
Variable d : nat.
Hypothesis resolve_total :
  forall fyd ctx fyn, fy_node_height fyn <= d -> exists r, resolve fyd ctx fyn = Some r.




End ResolveTotal.

Lemma fy_items_height_Forall l d :
  fy_items_height l <= d -> Forall (fun x => fy_node_height x <= d) l.
Proof.
  intros H. apply Forall_forall. intros x Hx.
  pose proof (fy_items_height_In x l Hx). lia.
Qed.

Lemma fy_pairs_height_Forall l d :
  fy_pairs_height l <= d ->
  Forall (fun p : fy_node_pair => fy_height (key p) <= d /\ fy_height (value p) <= d) l.
Proof.
  intros H. apply Forall_forall. intros p Hp.
  destruct (fy_pairs_height_In _ _ Hp). lia.
Qed.


Section ResolveBudget.

Variables resolve1 resolve2 : fy_document -> fy_ctx -> fy_node -> option fy_resolved.
Hypothesis resolve_le :
  forall fyd ctx fyn r, resolve1 fyd ctx fyn = Some r -> resolve2 fyd ctx fyn = Some r.




End ResolveBudget.




(** * Further properties of the node calls *)

(** ** Item access by position *)

Lemma fy_sequence_at h l s e index :
  fy_node_sequence_get_by_index (Some (fy_sequence h l s e)) index =
  if (index >=? 0)%Z
  then List.nth_error l (Z.to_nat index)
  else List.nth_error (List.rev l) (Z.to_nat (- index - 1)).
Proof.
  unfold fy_node_sequence_get_by_index.
  change (fy_node_sequence_iterate (Some (fy_sequence h l s e))) with (fy_list_iterate l).
  change (fy_node_sequence_reverse_iterate (Some (fy_sequence h l s e)))
    with (fy_list_reverse_iterate l).
  apply fy_index_walk_spec.
Qed.

Lemma fy_mapping_at h l s e index :
  fy_node_mapping_get_by_index (Some (fy_mapping h l s e)) index =
  if (index >=? 0)%Z
  then List.nth_error l (Z.to_nat index)
  else List.nth_error (List.rev l) (Z.to_nat (- index - 1)).
Proof.
  unfold fy_node_mapping_get_by_index.
  change (fy_node_mapping_iterate (Some (fy_mapping h l s e))) with (fy_list_iterate l).
  change (fy_node_mapping_reverse_iterate (Some (fy_mapping h l s e)))
    with (fy_list_reverse_iterate l).
  apply fy_index_walk_spec.
Qed.

(** ** Parent links and comparison *)

Lemma fy_set_parent_addr pp n : fy_addr (fy_set_parent pp n) = fy_addr n.
Proof. destruct n; reflexivity. Qed.

Lemma fy_set_parent_twice pp qq n :
  fy_set_parent pp (fy_set_parent qq n) = fy_set_parent pp n.
Proof. destruct n; reflexivity. Qed.

Lemma fy_set_parent_height pp n : fy_node_height (fy_set_parent pp n) = fy_node_height n.
Proof. destruct n; reflexivity. Qed.

(** The comparison does not read the parent link. *)
Lemma fy_node_compare_set_parent pp k k' :
  fy_node_compare (option_map (fy_set_parent pp) k) k' = fy_node_compare k k'.
Proof.
  rewrite !fy_node_compare_eq.
  destruct k as [n|]; [|reflexivity].
  destruct n as [h t|h l s e|h l s e]; reflexivity.
Qed.

Lemma fy_node_compare_refl k : fy_node_compare k k = true.
Proof.
  rewrite fy_node_compare_eq, fy_ptr_eqb_refl. reflexivity.
Qed.

(** ** Lookup of a value *)

Lemma fy_pair_list_lookup_value_found pre :
  forall fynp post fyn_key,
    Forall (fun q : fy_node_pair => fy_node_compare (key q) fyn_key = false) pre ->
    fy_node_compare (key fynp) fyn_key = true ->
    fy_pair_list_lookup_value (pre ++ fynp :: post) fyn_key = value fynp.
Proof.
  induction pre as [|q r IH]; intros fynp post fyn_key Hpre Hk; simpl.
  - now rewrite Hk.
  - inversion Hpre as [|x xs Hq Hr]; subst. rewrite Hq. now apply IH.
Qed.

Lemma fy_pair_list_lookup_value_none l fyn_key :
  Forall (fun q : fy_node_pair => fy_node_compare (key q) fyn_key = false) l ->
  fy_pair_list_lookup_value l fyn_key = None.
Proof.
  induction 1 as [|q r Hq _ IH]; simpl; [reflexivity|]. now rewrite Hq.
Qed.

Lemma fy_pair_list_lookup_value_app l r fyn_key :
  Forall (fun q : fy_node_pair => fy_node_compare (key q) fyn_key = false) l ->
  fy_pair_list_lookup_value (l ++ r) fyn_key = fy_pair_list_lookup_value r fyn_key.
Proof.
  induction 1 as [|q t Hq _ IH]; simpl; [reflexivity|]. now rewrite Hq.
Qed.

Lemma fy_pair_list_lookup_value_snoc l (p : fy_node_pair) fyn_key :
  fy_node_compare (key p) fyn_key = false ->
  fy_pair_list_lookup_value (l ++ [p]) fyn_key = fy_pair_list_lookup_value l fyn_key.
Proof.
  intros Hp. induction l as [|q r IH]; simpl.
  - now rewrite Hp.
  - now rewrite IH.
Qed.

(** X1.  [fy_node_mapping_lookup_value_by_key] answers with the value of the
    pair that [fy_node_mapping_lookup_pair] finds, the first pair whose key
    compares equal to the key asked for, and with NULL when there is no such
    pair; a NULL node and a node that is no mapping give NULL. *)
Theorem fy_node_mapping_lookup_value_by_key_spec :
  (forall h l s e fyn_key,
      fy_node_mapping_lookup_value_by_key (Some (fy_mapping h l s e)) fyn_key =
      match fy_node_mapping_lookup_pair (fy_mapping h l s e) fyn_key with
      | Some i => match List.nth_error l i with
                  | Some fynp => value fynp
                  | None => None
                  end
      | None => None
      end) /\
  (forall h pre fynp post s e fyn_key,
      Forall (fun q : fy_node_pair => fy_node_compare (key q) fyn_key = false) pre ->
      fy_node_compare (key fynp) fyn_key = true ->
      fy_node_mapping_lookup_value_by_key
        (Some (fy_mapping h (pre ++ fynp :: post) s e)) fyn_key = value fynp) /\
  (forall fyn fyn_key,
      fy_node_get_type fyn <> FYNT_MAPPING ->
      fy_node_mapping_lookup_value_by_key fyn fyn_key = None).
Proof.
  split; [|split].
  - intros h l s e fyn_key.
    unfold fy_node_mapping_lookup_value_by_key, fy_node_mapping_lookup_pair. simpl.
    destruct (fy_pair_list_lookup l fyn_key 0) as [i|] eqn:E.
    + destruct (fy_pair_list_lookup_some _ _ _ E) as (pre & p & post & -> & -> & Hpre & Hk).
      rewrite fy_pair_list_lookup_value_found by assumption.
      simpl. now rewrite fy_nth_error_middle.
    + apply fy_pair_list_lookup_none in E. now apply fy_pair_list_lookup_value_none.
  - intros h pre fynp post s e fyn_key Hpre Hk.
    unfold fy_node_mapping_lookup_value_by_key. simpl.
    now apply fy_pair_list_lookup_value_found.
  - intros [n|] fyn_key H; [|reflexivity].
    unfold fy_node_mapping_lookup_value_by_key.
    destruct n; simpl in *; congruence.
Qed.

(** ** Insertion into a mapping *)

(** What a successful insertion has checked and built. *)
Lemma fy_node_mapping_pair_insert_prepare_some m fyn_key fyn_value fynp :
  fy_node_mapping_pair_insert_prepare (Some m) fyn_key fyn_value = Some fynp ->
  exists h l s e,
    m = fy_mapping h l s e /\
    Forall (fun q : fy_node_pair => fy_node_compare (key q) fyn_key = false) l /\
    fynp = mk_pair (option_map (fy_set_parent None) fyn_key)
                   (option_map (fy_set_parent (Some (fyn_addr h))) fyn_value).
Proof.
  unfold fy_node_mapping_pair_insert_prepare. intros H.
  destruct m as [h t|h l s e|h l s e]; try discriminate.
  simpl in H.
  destruct (fy_node_mapping_key_is_duplicate (fy_mapping h l s e) fyn_key) eqn:D;
    [discriminate|].
  inversion H; subst. exists h, l, s, e.
  split; [reflexivity|]. split; [|reflexivity].
  eapply fy_key_is_duplicate_false; eauto.
Qed.

Lemma fy_nth_error_rev_last (A : Type) (l : list A) x :
  List.nth_error (List.rev (l ++ [x])) 0 = Some x.
Proof. rewrite rev_app_distr. reflexivity. Qed.

(** X2.  A pair that [fy_node_mapping_append] accepted is found again: the
    mapping has one item more, the new pair is its last item, looking the
    key up gives the value that went in (its parent now the mapping), and
    every key that does not compare equal to the new one is looked up as
    before. *)
Theorem fy_node_mapping_append_lookup m fyn_key fyn_value m' :
  fy_node_mapping_append (Some m) fyn_key fyn_value = (0%Z, m') ->
  fy_node_mapping_item_count m' = (fy_node_mapping_item_count (Some m) + 1)%Z /\
  fy_node_mapping_get_by_index m' (-1) =
    Some (mk_pair (option_map (fy_set_parent None) fyn_key)
                  (option_map (fy_set_parent (Some (fy_addr m))) fyn_value)) /\
  fy_node_mapping_lookup_value_by_key m' fyn_key =
    option_map (fy_set_parent (Some (fy_addr m))) fyn_value /\
  (forall k, fy_node_compare fyn_key k = false ->
             fy_node_mapping_lookup_value_by_key m' k =
             fy_node_mapping_lookup_value_by_key (Some m) k).
Proof.
  unfold fy_node_mapping_append. intros H.
  destruct (fy_node_mapping_pair_insert_prepare (Some m) fyn_key fyn_value) as [fynp|] eqn:P;
    [|discriminate].
  destruct (fy_node_mapping_pair_insert_prepare_some _ _ _ P)
    as (h & l & s & e & -> & Hl & ->).
  inversion H; subst; clear H. cbn [option_map fy_with_mapping fy_mapping_of fy_addr fy_hdr].
  unfold fy_list_add_tail.
  split; [|split; [|split]].
  - simpl. rewrite length_app. simpl. lia.
  - rewrite fy_mapping_at. simpl Z.geb. cbv iota.
    change (Z.to_nat (- -1 - 1)) with 0. apply fy_nth_error_rev_last.
  - unfold fy_node_mapping_lookup_value_by_key. simpl.
    rewrite fy_pair_list_lookup_value_app by assumption. simpl.
    now rewrite fy_node_compare_set_parent, fy_node_compare_refl.
  - intros k Hk. unfold fy_node_mapping_lookup_value_by_key. simpl.
    apply fy_pair_list_lookup_value_snoc. simpl.
    now rewrite fy_node_compare_set_parent.
Qed.

(** X3.  A pair that [fy_node_mapping_prepend] accepted is the first item:
    position 0 holds it, the items that were there follow one position
    later, and looking the key up gives the value that went in. *)
Theorem fy_node_mapping_prepend_first m fyn_key fyn_value m' :
  fy_node_mapping_prepend (Some m) fyn_key fyn_value = (0%Z, m') ->
  fy_node_mapping_item_count m' = (fy_node_mapping_item_count (Some m) + 1)%Z /\
  fy_node_mapping_get_by_index m' 0 =
    Some (mk_pair (option_map (fy_set_parent None) fyn_key)
                  (option_map (fy_set_parent (Some (fy_addr m))) fyn_value)) /\
  (forall index, (0 <= index)%Z ->
                 fy_node_mapping_get_by_index m' (index + 1) =
                 fy_node_mapping_get_by_index (Some m) index) /\
  fy_node_mapping_lookup_value_by_key m' fyn_key =
    option_map (fy_set_parent (Some (fy_addr m))) fyn_value.
Proof.
  unfold fy_node_mapping_prepend. intros H.
  destruct (fy_node_mapping_pair_insert_prepare (Some m) fyn_key fyn_value) as [fynp|] eqn:P;
    [|discriminate].
  destruct (fy_node_mapping_pair_insert_prepare_some _ _ _ P)
    as (h & l & s & e & -> & Hl & ->).
  inversion H; subst; clear H. cbn [option_map fy_with_mapping fy_mapping_of fy_addr fy_hdr].
  unfold fy_list_add.
  split; [|split; [|split]].
  - simpl. lia.
  - rewrite fy_mapping_at. reflexivity.
  - intros index Hi. rewrite !fy_mapping_at.
    replace (index + 1 >=? 0)%Z with true by (symmetry; rewrite Z.geb_leb; apply Z.leb_le; lia).
    replace (index >=? 0)%Z with true by (symmetry; rewrite Z.geb_leb; apply Z.leb_le; lia).
    replace (Z.to_nat (index + 1)) with (S (Z.to_nat index)) by lia. reflexivity.
  - unfold fy_node_mapping_lookup_value_by_key. simpl.
    now rewrite fy_node_compare_set_parent, fy_node_compare_refl.
Qed.

(** X4.  Appending a pair and removing it by its key gives the mapping back
    as it was, and the value that went in comes out with no parent. *)
Theorem fy_node_mapping_append_remove m fyn_key fyn_value m' :
  fy_node_mapping_append (Some m) fyn_key fyn_value = (0%Z, Some m') ->
  fy_node_mapping_remove_by_key m' fyn_key =
  (option_map (fy_set_parent None) fyn_value, m).
Proof.
  unfold fy_node_mapping_append. intros H.
  destruct (fy_node_mapping_pair_insert_prepare (Some m) fyn_key fyn_value) as [fynp|] eqn:P;
    [|discriminate].
  destruct (fy_node_mapping_pair_insert_prepare_some _ _ _ P)
    as (h & l & s & e & -> & Hl & ->).
  inversion H; subst; clear H. cbn [fy_with_mapping fy_mapping_of].
  unfold fy_list_add_tail, fy_node_mapping_remove_by_key, fy_node_mapping_lookup_pair.
  cbn [fy_mapping_of].
  rewrite fy_pair_list_lookup_found
    by (auto; simpl; now rewrite fy_node_compare_set_parent, fy_node_compare_refl).
  cbn [Nat.add]. rewrite fy_nth_error_middle. cbn [fy_with_mapping fy_mapping_of value].
  rewrite fy_list_del_middle, app_nil_r.
  destruct fyn_value as [v|]; simpl; [|reflexivity].
  now rewrite fy_set_parent_twice.
Qed.

(** ** The sequence calls *)

Lemma fy_node_list_index_found pre :
  forall x post p i,
    Forall (fun y => fy_addr y <> p) pre ->
    fy_addr x = p ->
    fy_node_list_index (pre ++ x :: post) p i = Some (i + List.length pre).
Proof.
  induction pre as [|y r IH]; intros x post p i Hpre Hx; simpl.
  - rewrite Hx, Nat.eqb_refl. f_equal. lia.
  - inversion Hpre as [|? ? Hy Hr]; subst.
    destruct (Nat.eqb_spec (fy_addr y) (fy_addr x)) as [E|_]; [contradiction|].
    rewrite IH by auto. f_equal. lia.
Qed.

Lemma fy_node_list_index_none l :
  forall p i, Forall (fun y => fy_addr y <> p) l -> fy_node_list_index l p i = None.
Proof.
  induction l as [|y r IH]; intros p i H; simpl; [reflexivity|].
  inversion H as [|? ? Hy Hr]; subst.
  destruct (Nat.eqb_spec (fy_addr y) p) as [E|_]; [contradiction|]. now apply IH.
Qed.

Lemma fy_nth_error_snoc_old (A : Type) (l : list A) x i :
  i < List.length l -> List.nth_error (l ++ [x]) i = List.nth_error l i.
Proof. intros H. now rewrite nth_error_app1. Qed.

(** X5.  [fy_node_sequence_append] and [fy_node_sequence_prepend] on a
    sequence and a node: the node, its parent set to the sequence, becomes
    the last (the first) item, the count grows by one and the items that were
    there keep their order.  A NULL node and a target that is NULL or no
    sequence give -1 and change nothing. *)
Theorem fy_node_sequence_append_prepend :
  (forall h l s e n,
      let fyn_seq := Some (fy_sequence h l s e) in
      let fyn := fy_set_parent (Some (fyn_addr h)) n in
      let after_append := snd (fy_node_sequence_append fyn_seq (Some n)) in
      let after_prepend := snd (fy_node_sequence_prepend fyn_seq (Some n)) in
      fst (fy_node_sequence_append fyn_seq (Some n)) = 0%Z /\
      fst (fy_node_sequence_prepend fyn_seq (Some n)) = 0%Z /\
      fy_node_sequence_item_count after_append = (fy_node_sequence_item_count fyn_seq + 1)%Z /\
      fy_node_sequence_item_count after_prepend = (fy_node_sequence_item_count fyn_seq + 1)%Z /\
      fy_node_sequence_get_by_index after_append (-1) = Some fyn /\
      fy_node_sequence_get_by_index after_prepend 0 = Some fyn /\
      (forall index, (0 <= index < fy_node_sequence_item_count fyn_seq)%Z ->
                     fy_node_sequence_get_by_index after_append index =
                     fy_node_sequence_get_by_index fyn_seq index) /\
      (forall index, (0 <= index)%Z ->
                     fy_node_sequence_get_by_index after_prepend (index + 1) =
                     fy_node_sequence_get_by_index fyn_seq index)) /\
  (forall fyn_seq fyn,
      fy_node_get_type fyn_seq <> FYNT_SEQUENCE \/ fyn = None ->
      fy_node_sequence_append fyn_seq fyn = ((-1)%Z, fyn_seq) /\
      fy_node_sequence_prepend fyn_seq fyn = ((-1)%Z, fyn_seq)).
Proof.
  split.
  - intros h l s e n. cbn zeta.
    unfold fy_node_sequence_append, fy_node_sequence_prepend, fy_list_add_tail, fy_list_add.
    cbn [fy_node_sequence_insert_prepare fy_type fy_node_type_eqb negb fst snd option_map
         fy_with_sequence fy_sequence_of fy_addr fy_hdr].
    repeat split.
    + simpl. rewrite length_app. simpl. lia.
    + simpl. lia.
    + rewrite fy_sequence_at. simpl Z.geb. cbv iota.
      change (Z.to_nat (- -1 - 1)) with 0. apply fy_nth_error_rev_last.
    + intros index Hi. rewrite !fy_sequence_at. simpl in Hi.
      replace (index >=? 0)%Z with true by (symmetry; rewrite Z.geb_leb; apply Z.leb_le; lia).
      apply fy_nth_error_snoc_old. lia.
    + intros index Hi. rewrite !fy_sequence_at.
      replace (index + 1 >=? 0)%Z with true
        by (symmetry; rewrite Z.geb_leb; apply Z.leb_le; lia).
      replace (index >=? 0)%Z with true by (symmetry; rewrite Z.geb_leb; apply Z.leb_le; lia).
      replace (Z.to_nat (index + 1)) with (S (Z.to_nat index)) by lia. reflexivity.
  - intros fyn_seq fyn H.
    unfold fy_node_sequence_append, fy_node_sequence_prepend, fy_node_sequence_insert_prepare.
    destruct fyn_seq as [q|]; [|split; reflexivity].
    destruct fyn as [n|]; [|split; reflexivity].
    destruct H as [H|H]; [|discriminate].
    destruct q; simpl in *; try (split; reflexivity). congruence.
Qed.

Lemma fy_list_insert_before_middle (A : Type) (pre : list A) x n post :
  fy_list_insert_before (pre ++ x :: post) (List.length pre) n = pre ++ n :: x :: post.
Proof.
  unfold fy_list_insert_before. induction pre as [|y r IH]; simpl; [reflexivity|].
  f_equal. exact IH.
Qed.

(** X6.  [fy_node_sequence_insert_before] and [fy_node_sequence_insert_after]
    link the node in right before and right after the mark, the first item at
    the mark's address, and set its parent; the other items stay as they
    are.  A mark that is no item of the sequence gives -1 and changes nothing,
    and so does a NULL node. *)
Theorem fy_node_sequence_insert_at_mark h pre fyn_mark post s e :
  Forall (fun y => fy_addr y <> fy_addr fyn_mark) pre ->
  let fyn_seq := Some (fy_sequence h (pre ++ fyn_mark :: post) s e) in
  (forall n,
      fy_node_sequence_insert_before fyn_seq (Some (fy_addr fyn_mark)) (Some n) =
      Some (0%Z, Some (fy_sequence h (pre ++ fy_set_parent (Some (fyn_addr h)) n
                                          :: fyn_mark :: post) s e)) /\
      fy_node_sequence_insert_after fyn_seq (Some (fy_addr fyn_mark)) (Some n) =
      Some (0%Z, Some (fy_sequence h (pre ++ fyn_mark
                                          :: fy_set_parent (Some (fyn_addr h)) n :: post) s e))) /\
  (forall p fyn,
      Forall (fun y => fy_addr y <> p) (pre ++ fyn_mark :: post) ->
      fy_node_sequence_insert_before fyn_seq (Some p) fyn = Some ((-1)%Z, fyn_seq) /\
      fy_node_sequence_insert_after fyn_seq (Some p) fyn = Some ((-1)%Z, fyn_seq)) /\
  fy_node_sequence_insert_before fyn_seq (Some (fy_addr fyn_mark)) None
    = Some ((-1)%Z, fyn_seq) /\
  fy_node_sequence_insert_after fyn_seq (Some (fy_addr fyn_mark)) None
    = Some ((-1)%Z, fyn_seq).
Proof.
  intros Hpre fyn_seq. subst fyn_seq.
  assert (I : fy_node_list_index (pre ++ fyn_mark :: post) (fy_addr fyn_mark) 0
              = Some (List.length pre))
    by (now rewrite fy_node_list_index_found).
  unfold fy_node_sequence_insert_before, fy_node_sequence_insert_after,
    fy_node_sequence_contains_node.
  cbn [fy_type fy_node_type_eqb negb fy_sequence_of fy_node_sequence_insert_prepare
       fy_with_sequence fy_addr fy_hdr].
  split; [|split; [|split]].
  - intros n. rewrite I. cbn [negb].
    now rewrite fy_list_insert_before_middle, fy_list_insert_after_middle.
  - intros p fyn Hp. now rewrite (@fy_node_list_index_none _ _ 0 Hp).
  - now rewrite I.
  - now rewrite I.
Qed.

(** X7.  [fy_node_sequence_remove] unlinks the first item at the address it
    is given and returns it with its parent cleared; an address that no item
    has gives NULL and changes nothing.  A node that was appended is removed
    again by its address, and the sequence is as it was before the two
    calls, when no older item has that address. *)
Theorem fy_node_sequence_remove_spec h s e :
  (forall pre x post,
      Forall (fun y => fy_addr y <> fy_addr x) pre ->
      fy_node_sequence_remove (Some (fy_sequence h (pre ++ x :: post) s e)) (Some (fy_addr x))
      = Some (Some (fy_set_parent None x), Some (fy_sequence h (pre ++ post) s e))) /\
  (forall l p,
      Forall (fun y => fy_addr y <> p) l ->
      fy_node_sequence_remove (Some (fy_sequence h l s e)) (Some p)
      = Some (None, Some (fy_sequence h l s e))) /\
  (forall l n,
      Forall (fun y => fy_addr y <> fy_addr n) l ->
      fy_node_sequence_remove
        (snd (fy_node_sequence_append (Some (fy_sequence h l s e)) (Some n)))
        (Some (fy_addr n))
      = Some (Some (fy_set_parent None n), Some (fy_sequence h l s e))).
Proof.
  assert (R : forall pre x post,
             Forall (fun y => fy_addr y <> fy_addr x) pre ->
             fy_node_sequence_remove (Some (fy_sequence h (pre ++ x :: post) s e))
                                     (Some (fy_addr x))
             = Some (Some (fy_set_parent None x), Some (fy_sequence h (pre ++ post) s e))).
  { intros pre x post Hpre.
    unfold fy_node_sequence_remove, fy_node_sequence_contains_node.
    cbn [fy_type fy_node_type_eqb negb fy_sequence_of fy_with_sequence].
    rewrite fy_node_list_index_found by auto. cbn [negb Nat.add].
    now rewrite fy_nth_error_middle, fy_list_del_middle. }
  split; [exact R|split].
  - intros l p Hl.
    unfold fy_node_sequence_remove, fy_node_sequence_contains_node.
    cbn [fy_type fy_node_type_eqb negb fy_sequence_of].
    now rewrite (@fy_node_list_index_none _ _ 0 Hl).
  - intros l n Hl.
    unfold fy_node_sequence_append, fy_list_add_tail.
    cbn [fy_node_sequence_insert_prepare fy_type fy_node_type_eqb negb snd option_map
         fy_with_sequence fy_sequence_of fy_addr fy_hdr].
    rewrite <- (fy_set_parent_addr (Some (fyn_addr h)) n).
    rewrite R by (now rewrite fy_set_parent_addr).
    now rewrite fy_set_parent_twice, app_nil_r.
Qed.

(** ** Positions and iteration *)

Lemma fy_at_in_range (A : Type) (l : list A) index :
  (if (index >=? 0)%Z
   then List.nth_error l (Z.to_nat index)
   else List.nth_error (List.rev l) (Z.to_nat (- index - 1))) <> None <->
  (- Z.of_nat (List.length l) <= index < Z.of_nat (List.length l))%Z.
Proof.
  destruct (index >=? 0)%Z eqn:G; rewrite Z.geb_leb in G;
    [apply Z.leb_le in G|apply Z.leb_gt in G].
  - rewrite nth_error_Some. lia.
  - rewrite nth_error_Some, length_rev. lia.
Qed.

Lemma fy_at_from_back (A : Type) (l : list A) index :
  (0 <= index < Z.of_nat (List.length l))%Z ->
  List.nth_error l (Z.to_nat index) =
  List.nth_error (List.rev l) (Z.to_nat (- (index - Z.of_nat (List.length l)) - 1)).
Proof.
  intros H. rewrite nth_error_rev.
  replace (Nat.ltb (Z.to_nat (- (index - Z.of_nat (List.length l)) - 1)) (List.length l))
    with true by (symmetry; apply Nat.ltb_lt; lia).
  f_equal. lia.
Qed.

(** X8.  The positions [fy_node_sequence_get_by_index] and
    [fy_node_mapping_get_by_index] answer are those the item count allows:
    an index gives an item exactly when it lies between minus the count and
    the count less one, and the indices [i] and [i - count] name the same
    item. *)
Theorem fy_get_by_index_range :
  (forall h l s e index,
      let fyn := Some (fy_sequence h l s e) in
      (fy_node_sequence_get_by_index fyn index <> None <->
       (- fy_node_sequence_item_count fyn <= index < fy_node_sequence_item_count fyn)%Z) /\
      ((0 <= index < fy_node_sequence_item_count fyn)%Z ->
       fy_node_sequence_get_by_index fyn index =
       fy_node_sequence_get_by_index fyn (index - fy_node_sequence_item_count fyn))) /\
  (forall h l s e index,
      let fyn := Some (fy_mapping h l s e) in
      (fy_node_mapping_get_by_index fyn index <> None <->
       (- fy_node_mapping_item_count fyn <= index < fy_node_mapping_item_count fyn)%Z) /\
      ((0 <= index < fy_node_mapping_item_count fyn)%Z ->
       fy_node_mapping_get_by_index fyn index =
       fy_node_mapping_get_by_index fyn (index - fy_node_mapping_item_count fyn))).
Proof.
  split; intros h l s e index fyn; subst fyn; cbn [fy_node_sequence_item_count
                                                     fy_node_mapping_item_count].
  - rewrite !fy_sequence_at. split; [apply fy_at_in_range|].
    intros H.
    replace (index >=? 0)%Z with true by (symmetry; rewrite Z.geb_leb; apply Z.leb_le; lia).
    replace (index - Z.of_nat (List.length l) >=? 0)%Z with false
      by (symmetry; rewrite Z.geb_leb; apply Z.leb_gt; lia).
    now apply fy_at_from_back.
  - rewrite !fy_mapping_at. split; [apply fy_at_in_range|].
    intros H.
    replace (index >=? 0)%Z with true by (symmetry; rewrite Z.geb_leb; apply Z.leb_le; lia).
    replace (index - Z.of_nat (List.length l) >=? 0)%Z with false
      by (symmetry; rewrite Z.geb_leb; apply Z.leb_gt; lia).
    now apply fy_at_from_back.
Qed.

Lemma fy_list_iterate_pass (A : Type) (l : list A) k :
  k <= List.length l ->
  Nat.iter (S k) (fy_list_iterate l) None =
  if Nat.ltb k (List.length l) then Some k else None.
Proof.
  induction k as [|k IH]; intros H.
  - reflexivity.
  - change (Nat.iter (S (S k)) (fy_list_iterate l) None)
      with (fy_list_iterate l (Nat.iter (S k) (fy_list_iterate l) None)).
    rewrite IH by lia.
    replace (Nat.ltb k (List.length l)) with true by (symmetry; apply Nat.ltb_lt; lia).
    reflexivity.
Qed.

Lemma fy_list_reverse_iterate_pass (A : Type) (l : list A) k :
  k <= List.length l ->
  Nat.iter (S k) (fy_list_reverse_iterate l) None =
  if Nat.ltb k (List.length l) then Some (List.length l - S k) else None.
Proof.
  induction k as [|k IH]; intros H.
  - simpl. destruct (List.length l) as [|n]; [reflexivity|].
    simpl. f_equal. lia.
  - change (Nat.iter (S (S k)) (fy_list_reverse_iterate l) None)
      with (fy_list_reverse_iterate l (Nat.iter (S k) (fy_list_reverse_iterate l) None)).
    rewrite IH by lia.
    replace (Nat.ltb k (List.length l)) with true by (symmetry; apply Nat.ltb_lt; lia).
    destruct (Nat.ltb (S k) (List.length l)) eqn:L.
    + apply Nat.ltb_lt in L. simpl.
      destruct (List.length l - S k) as [|p] eqn:E; [lia|]. f_equal. lia.
    + apply Nat.ltb_ge in L. replace (List.length l - S k) with 0 by lia. reflexivity.
Qed.

(** X9.  Call after call from a NULL iterator, [fy_node_sequence_iterate]
    hands out the items in list order and [fy_node_sequence_reverse_iterate]
    in the opposite order; the call after the last item returns NULL, which
    leaves the iterator as it was at the start, so that the calls that follow
    go through the items once more. *)
Theorem fy_node_sequence_iterate_pass h l s e k :
  k <= List.length l ->
  let fyn := Some (fy_sequence h l s e) in
  Nat.iter (S k) (fy_node_sequence_iterate fyn) None =
    (if Nat.ltb k (List.length l) then Some k else None) /\
  Nat.iter (S k) (fy_node_sequence_reverse_iterate fyn) None =
    (if Nat.ltb k (List.length l) then Some (List.length l - S k) else None) /\
  Nat.iter (S (List.length l) + S k) (fy_node_sequence_iterate fyn) None =
    Nat.iter (S k) (fy_node_sequence_iterate fyn) None /\
  Nat.iter (S (List.length l) + S k) (fy_node_sequence_reverse_iterate fyn) None =
    Nat.iter (S k) (fy_node_sequence_reverse_iterate fyn) None.
Proof.
  intros H fyn. subst fyn.
  change (fy_node_sequence_iterate (Some (fy_sequence h l s e))) with (fy_list_iterate l).
  change (fy_node_sequence_reverse_iterate (Some (fy_sequence h l s e)))
    with (fy_list_reverse_iterate l).
  split; [now apply fy_list_iterate_pass|].
  split; [now apply fy_list_reverse_iterate_pass|].
  split.
  - rewrite Nat.add_comm, Nat.iter_add.
    rewrite (@fy_list_iterate_pass _ l (List.length l)) by lia.
    now rewrite Nat.ltb_irrefl.
  - rewrite Nat.add_comm, Nat.iter_add.
    rewrite (@fy_list_reverse_iterate_pass _ l (List.length l)) by lia.
    now rewrite Nat.ltb_irrefl.
Qed.

(** ** Sorting *)

Lemma fy_fold_add_tail (l : list fy_sort_entry) :
  forall acc,
    List.fold_left (fun mapping (fynpi : fy_sort_entry) => fy_list_add_tail mapping (snd fynpi))
                   l acc = acc ++ List.map snd l.
Proof.
  induction l as [|x r IH]; intros acc; simpl; [now rewrite app_nil_r|].
  rewrite IH. unfold fy_list_add_tail. now rewrite <- app_assoc.
Qed.

Lemma fy_combine_seq_snd (A : Type) (l : list A) :
  forall a, List.map snd (List.combine (List.seq a (List.length l)) l) = l.
Proof.
  induction l as [|x r IH]; intros a; simpl; [reflexivity|]. now rewrite IH.
Qed.

Lemma fy_index_pairs_snd l : List.map snd (fy_index_pairs l) = l.
Proof. apply fy_combine_seq_snd. Qed.

(** What [fy_node_mapping_sort] leaves in a mapping. *)
Lemma fy_node_mapping_sort_perm h l s e key_cmp :
  exists l',
    fy_node_mapping_sort (Some (fy_mapping h l s e)) key_cmp
    = (0%Z, Some (fy_mapping h l' s e)) /\
    Permutation l' l.
Proof.
  unfold fy_node_mapping_sort, fy_node_mapping_sort_array.
  cbn [fy_node_mapping_item_count fy_mapping_of].
  replace (Z.of_nat (List.length l) <? 0)%Z with false by (symmetry; apply Z.ltb_ge; lia).
  rewrite Nat2Z.id. cbn [option_map fy_with_mapping].
  unfold fy_node_mapping_perform_sort.
  rewrite (@firstn_all2 _ (List.length l) (fy_index_pairs l))
    by (rewrite fy_index_pairs_length; lia).
  set (cmp := match key_cmp with Some f => f | None => fy_node_mapping_sort_cmp_default end).
  pose proof (qsort_r_permutes cmp (fy_index_pairs l)) as P.
  rewrite firstn_all2
    by (rewrite (Permutation_length P), fy_index_pairs_length; lia).
  rewrite fy_fold_add_tail. cbn [app].
  eexists. split; [reflexivity|].
  rewrite <- (fy_index_pairs_snd l) at 2. now apply Permutation_map.
Qed.

(** X10.  [fy_node_mapping_sort], with the default or with a caller's
    comparator, returns 0 on a mapping and leaves it with the pairs it had,
    each once, in the order the sort put them; a NULL and a node that is no
    mapping give -1 and stay as they are. *)
Theorem fy_node_mapping_sort_permutes :
  (forall h l s e key_cmp,
      exists l',
        fy_node_mapping_sort (Some (fy_mapping h l s e)) key_cmp
        = (0%Z, Some (fy_mapping h l' s e)) /\
        Permutation l' l /\
        fy_node_mapping_item_count (Some (fy_mapping h l' s e))
        = fy_node_mapping_item_count (Some (fy_mapping h l s e))) /\
  (forall fyn key_cmp,
      fy_node_get_type fyn <> FYNT_MAPPING ->
      fy_node_mapping_sort fyn key_cmp = ((-1)%Z, fyn)).
Proof.
  split.
  - intros h l s e key_cmp.
    destruct (fy_node_mapping_sort_perm h l s e key_cmp) as (l' & E & P).
    exists l'. split; [exact E|]. split; [exact P|].
    simpl. now rewrite (Permutation_length P).
  - intros [n|] key_cmp H; [|reflexivity].
    destruct n; simpl in H; try reflexivity. congruence.
Qed.

Section SortLoops.

Variable sort : fy_node -> option (Z * fy_node).

Lemma fy_sort_items_loop_reordered l :
  (forall x, In x l -> exists x', sort x = Some (0%Z, x') /\ fy_reordered x x') ->
  exists l', fy_sort_items_loop sort l = Some l' /\ Forall2 fy_reordered l l'.
Proof.
  induction l as [|x r IH]; intros H; simpl.
  - exists []. split; [reflexivity|constructor].
  - destruct (H x (or_introl eq_refl)) as (x' & -> & Rx).
    destruct IH as (r' & -> & Rr); [intros y Hy; apply H; now right|].
    exists (x' :: r'). split; [reflexivity|now constructor].
Qed.

Lemma fy_sort_opt_reordered fyn :
  (forall n, fyn = Some n -> exists n', sort n = Some (0%Z, n') /\ fy_reordered n n') ->
  exists fyn', fy_sort_opt sort fyn = Some (0%Z, fyn') /\ fy_reordered_opt fyn fyn'.
Proof.
  intros H. destruct fyn as [n|]; simpl.
  - destruct (H n eq_refl) as (n' & -> & R). exists (Some n'). split; [reflexivity|].
    now constructor.
  - exists None. split; [reflexivity|constructor].
Qed.

Lemma fy_sort_pairs_loop_reordered l :
  (forall (p : fy_node_pair) n,
      In p l -> key p = Some n \/ value p = Some n ->
      exists n', sort n = Some (0%Z, n') /\ fy_reordered n n') ->
  exists l',
    fy_sort_pairs_loop sort l = Some (0%Z, l') /\
    Forall2 (fun p q : fy_node_pair =>
               fy_reordered_opt (key p) (key q) /\ fy_reordered_opt (value p) (value q))
            l l'.
Proof.
  induction l as [|p r IH]; intros H; simpl.
  - exists []. split; [reflexivity|constructor].
  - destruct (@fy_sort_opt_reordered (key p)) as (k & -> & Rk).
    { intros n E. apply (H p n); [now left|now left]. }
    destruct (@fy_sort_opt_reordered (value p)) as (v & -> & Rv).
    { intros n E. apply (H p n); [now left|now right]. }
    destruct IH as (r' & -> & Rr).
    { intros q n Hq Hn. apply (H q n); [now right|exact Hn]. }
    simpl. exists (mk_pair k v :: r'). split; [reflexivity|].
    constructor; [split; assumption|assumption].
Qed.

End SortLoops.

(** [fy_node_sort] within a budget of as many nested calls as the node is
    high. *)
Lemma fy_node_sort_rec_reordered key_cmp d :
  forall fyn,
    fy_node_height fyn <= d ->
    exists fyn', fy_node_sort_rec d key_cmp fyn = Some (0%Z, fyn') /\ fy_reordered fyn fyn'.
Proof.
  induction d as [|d IH]; intros fyn H.
  - pose proof (fy_node_height_pos fyn). lia.
  - destruct fyn as [h t|h l s e|h l s e].
    + exists (fy_scalar h t). split; [reflexivity|constructor].
    + rewrite fy_node_height_sequence in H. cbn [fy_node_sort_rec].
      destruct (@fy_sort_items_loop_reordered (fy_node_sort_rec d key_cmp) l)
        as (l' & -> & R).
      { intros x Hx. apply IH. pose proof (fy_items_height_In x l Hx). lia. }
      exists (fy_sequence h l' s e). split; [reflexivity|now constructor].
    + rewrite fy_node_height_mapping in H. cbn [fy_node_sort_rec].
      destruct (fy_node_mapping_sort_perm h l s e key_cmp) as (l0 & -> & P).
      cbn [Z.eqb negb fy_mapping_of fy_with_mapping].
      destruct (@fy_sort_pairs_loop_reordered (fy_node_sort_rec d key_cmp) l0)
        as (l' & -> & R).
      { intros p n Hp Hn. apply IH.
        assert (Hl : In p l) by (eapply Permutation_in; eauto).
        destruct (fy_pairs_height_In _ _ Hl) as [Hk Hv].
        destruct Hn as [E|E]; rewrite E in *; simpl in *; lia. }
      exists (fy_mapping h l' s e). split; [reflexivity|].
      econstructor; eauto.
Qed.

(** X11.  [fy_node_sort] always returns 0, and what it leaves differs from
    what it was given only in the order of the pairs of the mappings in it, at any
    depth: scalars, the items of sequences and their order, and the pairs
    themselves are kept. *)
Theorem fy_node_sort_reorders fyn key_cmp :
  exists fyn',
    fy_node_sort fyn key_cmp = Some (0%Z, fyn') /\ fy_reordered_opt fyn fyn'.
Proof.
  unfold fy_node_sort. apply fy_sort_opt_reordered.
  intros n ->. apply fy_node_sort_rec_reordered. simpl. lia.
Qed.

(** ** The default comparator *)

Lemma fy_strncmp_opp n :
  forall s1 s2, strncmp s1 s2 n = (- strncmp s2 s1 n)%Z.
Proof.
  induction n as [|n IH]; intros s1 s2;
    destruct s1 as [|c1 r1], s2 as [|c2 r2]; try reflexivity.
  cbn [strncmp].
  destruct (Ascii.eqb_spec c1 c2) as [->|N].
  - rewrite Ascii.eqb_refl. destruct (Ascii.eqb c2 NUL); [reflexivity|apply IH].
  - destruct (Ascii.eqb_spec c2 c1) as [E|_]; [congruence|]. lia.
Qed.

Lemma fy_min_len_sym a b :
  (if Nat.ltb a b then a else b) = (if Nat.ltb b a then b else a).
Proof.
  destruct (Nat.ltb_spec a b), (Nat.ltb_spec b a); lia.
Qed.

(** X12.  The default comparator answers a swapped pair of arguments with
    the opposite value, so the order it describes does not depend on which
    way round the sort asks.  A pair whose key is a mapping comes before a
    pair whose key is a sequence, and both come before every pair whose key
    is a scalar or NULL. *)
Theorem fy_node_mapping_sort_cmp_default_swap :
  (forall fynp_a fynp_b,
      fy_node_mapping_sort_cmp_default fynp_a fynp_b =
      (- fy_node_mapping_sort_cmp_default fynp_b fynp_a)%Z) /\
  (forall (fynp_a fynp_b : fy_sort_entry),
      fy_node_get_type (key (snd fynp_a)) = FYNT_MAPPING ->
      key (snd fynp_a) <> None ->
      fy_node_get_type (key (snd fynp_b)) = FYNT_SEQUENCE ->
      fy_node_mapping_sort_cmp_default fynp_a fynp_b = (-1)%Z) /\
  (forall (fynp_a fynp_b : fy_sort_entry),
      fy_node_get_type (key (snd fynp_a)) <> FYNT_SCALAR ->
      fy_node_get_type (key (snd fynp_b)) = FYNT_SCALAR ->
      fy_node_mapping_sort_cmp_default fynp_a fynp_b = (-1)%Z).
Proof.
  split; [|split].
  - intros [ia [ka va]] [ib [kb vb]].
    unfold fy_node_mapping_sort_cmp_default, fy_sort_str. cbn [fst snd key].
    destruct ka as [[ha ta|ha la sa ea|ha la sa ea]|], kb as [[hb tb|hb lb sb eb|hb lb sb eb]|];
      cbn [fy_node_is_scalar fy_node_get_type fy_type fy_node_type_eqb fy_scalar_token
           negb String.length];
      try reflexivity;
      try (rewrite fy_min_len_sym; apply fy_strncmp_opp);
      destruct (Nat.ltb_spec ia ib), (Nat.ltb_spec ib ia); try reflexivity; lia.
  - intros [ia [ka va]] [ib [kb vb]]. cbn [fst snd key]. intros Ta Na Tb.
    unfold fy_node_mapping_sort_cmp_default, fy_sort_str. cbn [fst snd key].
    destruct ka as [[ha ta|ha la sa ea|ha la sa ea]|]; try discriminate; try congruence.
    destruct kb as [[hb tb|hb lb sb eb|hb lb sb eb]|]; try discriminate. reflexivity.
  - intros [ia [ka va]] [ib [kb vb]]. cbn [fst snd key]. intros Ta Tb.
    unfold fy_node_mapping_sort_cmp_default, fy_sort_str. cbn [fst snd key].
    destruct ka as [[ha ta|ha la sa ea|ha la sa ea]|]; simpl in Ta; try congruence;
      destruct kb as [[hb tb|hb lb sb eb|hb lb sb eb]|]; try discriminate; reflexivity.
Qed.

(** ** Anchors by node *)

Lemma fy_anchor_on_iff p fya : fy_anchor_on p fya = true <-> fya_fyn fya = Some p.
Proof.
  unfold fy_anchor_on. destruct (fya_fyn fya) as [q|]; [|split; discriminate].
  rewrite Nat.eqb_eq. split; congruence.
Qed.

Lemma fy_anchor_find_none p l :
  List.find (fy_anchor_on p) l = None <-> ~ In (Some p) (List.map fya_fyn l).
Proof.
  induction l as [|a r IH]; simpl; [tauto|].
  destruct (fy_anchor_on p a) eqn:E.
  - apply fy_anchor_on_iff in E. split; [discriminate|]. intros H. exfalso. apply H. now left.
  - rewrite IH. split; [|tauto].
    intros H [Ha|Hr]; [|tauto]. apply fy_anchor_on_iff in Ha. congruence.
Qed.

Lemma fy_anchor_list_del_node_absent p l :
  List.find (fy_anchor_on p) l = None -> fy_anchor_list_del_node l p = l.
Proof.
  induction l as [|a r IH]; simpl; [reflexivity|].
  destruct (fy_anchor_on p a); [discriminate|]. intros H. now rewrite IH.
Qed.

Lemma fy_anchor_list_del_node_spec p l :
  NoDup (List.map fya_fyn l) ->
  NoDup (List.map fya_fyn (fy_anchor_list_del_node l p)) /\
  ~ In (Some p) (List.map fya_fyn (fy_anchor_list_del_node l p)) /\
  (forall q, q <> p ->
             List.find (fy_anchor_on q) (fy_anchor_list_del_node l p) =
             List.find (fy_anchor_on q) l) /\
  (forall x, In x (List.map fya_fyn (fy_anchor_list_del_node l p)) ->
             In x (List.map fya_fyn l)).
Proof.
  induction l as [|a r IH]; simpl; intros H.
  - split; [constructor|]. split; [tauto|]. split; auto.
  - inversion H as [|x xs Hin Hnd]; subst.
    destruct (fy_anchor_on p a) eqn:E.
    + apply fy_anchor_on_iff in E. split; [exact Hnd|]. split; [congruence|]. split.
      * intros q Hq. destruct (fy_anchor_on q a) eqn:F; [|reflexivity].
        apply fy_anchor_on_iff in F. congruence.
      * intros x Hx. now right.
    + destruct (IH Hnd) as (N & A & F & S). simpl.
      split; [|split; [|split]].
      * constructor; [|exact N]. intros C. apply Hin. now apply S.
      * intros [C|C]; [|tauto]. apply fy_anchor_on_iff in C. congruence.
      * intros q Hq. destruct (fy_anchor_on q a); [reflexivity|]. now apply F.
      * intros x [C|C]; [now left|right; now apply S].
Qed.

(** The anchor list [fy_document_set_anchor] goes on with, once the anchor
    the node had is dropped. *)
Lemma fy_set_anchor_dropped fyd p :
  fy_anchors_one_per_node fyd ->
  let fyal :=
    match fy_document_lookup_anchor_by_node fyd (Some p), Some p with
    | Some _, Some p => fy_anchor_list_del_node (fyd_anchors fyd) p
    | _, _ => fyd_anchors fyd
    end in
  NoDup (List.map fya_fyn fyal) /\
  ~ In (Some p) (List.map fya_fyn fyal) /\
  (forall q, q <> p ->
             List.find (fy_anchor_on q) fyal = List.find (fy_anchor_on q) (fyd_anchors fyd)).
Proof.
  intros H. cbn zeta. unfold fy_document_lookup_anchor_by_node.
  destruct (List.find (fy_anchor_on p) (fyd_anchors fyd)) eqn:E.
  - destruct (@fy_anchor_list_del_node_spec p (fyd_anchors fyd) H) as (N & A & F & _). auto.
  - split; [exact H|]. split; [now apply fy_anchor_find_none|auto].
Qed.

(** X13.  In a document where no node carries two anchors,
    [fy_node_set_anchor] leaves the node with exactly the anchor it was
    given: [fy_node_get_anchor] returns it, its text is the name up to the
    NUL, the anchor the node had is gone, and the other nodes keep theirs.
    [fy_node_remove_anchor] leaves the node with none.  Both keep the
    document free of nodes with two anchors; a NULL node gives -1. *)
Theorem fy_node_set_anchor_get fyd p :
  fy_anchors_one_per_node fyd ->
  (forall text,
      let r := fy_node_set_anchor fyd (Some p) (Some text) SIZE_MAX in
      fst r = 0%Z /\
      fy_node_get_anchor (snd r) (Some p) = Some (fy_declared_anchor (p, text)) /\
      option_map fy_anchor_get_text (fy_node_get_anchor (snd r) (Some p))
      = Some (c_str text) /\
      fy_anchors_one_per_node (snd r) /\
      (forall q, q <> p ->
                 fy_node_get_anchor (snd r) (Some q) = fy_node_get_anchor fyd (Some q))) /\
  (let r := fy_node_remove_anchor fyd (Some p) in
   fst r = 0%Z /\
   fy_node_get_anchor (snd r) (Some p) = None /\
   fy_anchors_one_per_node (snd r) /\
   (forall q, q <> p ->
              fy_node_get_anchor (snd r) (Some q) = fy_node_get_anchor fyd (Some q))) /\
  (forall text len, fy_node_set_anchor fyd None text len = ((-1)%Z, fyd)).
Proof.
  intros H.
  pose proof (@fy_set_anchor_dropped fyd p H) as D. cbn zeta in D.
  destruct D as (N & A & F).
  split; [|split; [|reflexivity]].
  - intros text. cbn zeta.
    unfold fy_node_set_anchor, fy_document_set_anchor, fy_node_get_anchor,
      fy_anchors_one_per_node, fy_document_lookup_anchor_by_node in *.
    rewrite Z.eqb_refl.
    cbn [fst snd fy_document_with_anchors fyd_anchors fy_list_add List.map List.find].
    change (mk_anchor (Some p) (fy_anchor_token text (strlen text)))
      with (fy_declared_anchor (p, text)).
    assert (On : fy_anchor_on p (fy_declared_anchor (p, text)) = true)
      by (apply fy_anchor_on_iff; reflexivity).
    rewrite On. split; [reflexivity|]. split; [reflexivity|]. split.
    { cbn [option_map]. f_equal. unfold fy_declared_anchor, fy_anchor_get_text, fy_anchor_token.
      simpl. apply fy_substring_c_str. }
    split.
    + constructor; [exact A|exact N].
    + intros q Hq.
      destruct (fy_anchor_on q (fy_declared_anchor (p, text))) eqn:Oq.
      * apply fy_anchor_on_iff in Oq. simpl in Oq. congruence.
      * now apply F.
  - cbn zeta.
    unfold fy_node_remove_anchor, fy_node_set_anchor, fy_document_set_anchor,
      fy_node_get_anchor, fy_anchors_one_per_node, fy_document_lookup_anchor_by_node in *.
    cbn [fst snd fy_document_with_anchors fyd_anchors].
    split; [reflexivity|]. split; [now apply fy_anchor_find_none|].
    split; [exact N|exact F].
Qed.

(** ** Anchor names *)

Lemma fy_c_str_nul t :
  c_str t = t -> c_str (t ++ String NUL EmptyString) = t.
Proof.
  induction t as [|c r IH]; simpl; intros H.
  - reflexivity.
  - destruct (Ascii.eqb c NUL); [discriminate|]. inversion H as [E]. rewrite E.
    f_equal. now apply IH.
Qed.

Lemma fy_find_text_none t l :
  List.find (fun fya => String.eqb t (fy_anchor_get_text fya)) l = None <->
  ~ In t (List.map fy_anchor_get_text l).
Proof.
  induction l as [|a r IH]; simpl; [tauto|].
  destruct (String.eqb_spec t (fy_anchor_get_text a)) as [E|E].
  - split; [discriminate|]. intros H. exfalso. apply H. now left.
  - rewrite IH. split; [|tauto]. intros H [C|C]; [congruence|tauto].
Qed.

Lemma fy_lookup_by_token_find fyd anchor :
  c_str (fyt_text anchor) = fyt_text anchor ->
  fy_document_lookup_anchor_by_token fyd (Some anchor) =
  List.find (fun fya => String.eqb (fyt_text anchor) (fy_anchor_get_text fya))
            (fyd_anchors fyd).
Proof.
  intros H. unfold fy_document_lookup_anchor_by_token, fy_document_lookup_anchor.
  rewrite fy_anchor_list_scan_find. now rewrite fy_c_str_nul.
Qed.

(** X14.  [fy_parse_document_register_anchor] keeps the anchor names of a
    document distinct.  For a name without a NUL byte: a name that an anchor
    of the document has is refused with -1 and the document stays as it is;
    a new name is registered, the lookup by token then returns the new
    anchor on its node, and in both cases no two anchors share a name
    afterwards if none did before. *)
Theorem fy_parse_document_register_anchor_names fyd fyn anchor :
  c_str (fyt_text anchor) = fyt_text anchor ->
  (In (fyt_text anchor) (List.map fy_anchor_get_text (fyd_anchors fyd)) ->
   fy_parse_document_register_anchor fyd fyn anchor = ((-1)%Z, fyd)) /\
  (~ In (fyt_text anchor) (List.map fy_anchor_get_text (fyd_anchors fyd)) ->
   fst (fy_parse_document_register_anchor fyd fyn anchor) = 0%Z /\
   fy_document_lookup_anchor_by_token
     (snd (fy_parse_document_register_anchor fyd fyn anchor)) (Some anchor)
   = Some (mk_anchor (Some fyn) anchor)) /\
  (fy_anchor_names_distinct fyd ->
   fy_anchor_names_distinct (snd (fy_parse_document_register_anchor fyd fyn anchor))).
Proof.
  intros Hn. unfold fy_parse_document_register_anchor.
  rewrite (@fy_lookup_by_token_find fyd anchor Hn).
  destruct (List.find _ (fyd_anchors fyd)) as [fya|] eqn:E.
  - split; [reflexivity|]. split; [|auto].
    intros Hout. apply fy_find_text_none in Hout. congruence.
  - apply fy_find_text_none in E. split; [contradiction|]. split.
    + intros _. split; [reflexivity|]. cbn [snd].
      rewrite fy_lookup_by_token_find by exact Hn.
      cbn [fy_document_with_anchors fyd_anchors fy_list_add List.find].
      unfold fy_anchor_get_text at 1. cbn [fya_anchor fy_token_get_text].
      now rewrite String.eqb_refl.
    + intros Hd. unfold fy_anchor_names_distinct in *.
      cbn [snd fy_document_with_anchors fyd_anchors fy_list_add List.map].
      constructor; [exact E|exact Hd].
Qed.

(** ** Resolving a tree that has nothing to resolve *)

Lemma fy_keep_rc_ok ret_rc : fy_keep_rc ret_rc 0 = ret_rc.
Proof. reflexivity. Qed.

Section ResolvePlain.

Variable resolve : fy_document -> fy_ctx -> fy_node -> option fy_resolved.

Lemma fy_resolve_opt_keep fyd ctx x :
  (forall n, x = Some n -> forall fyd ctx, resolve fyd ctx n = Some (0%Z, n, fyd)) ->
  fy_resolve_opt resolve fyd ctx x = Some (0%Z, x, fyd).
Proof.
  intros H. destruct x as [n|]; simpl; [|reflexivity].
  now rewrite (H n eq_refl).
Qed.

Lemma fy_resolve_sequence_loop_keep h s e :
  forall post pre fyd ctx ret_rc,
    Forall (fun x => forall fyd ctx, resolve fyd ctx x = Some (0%Z, x, fyd)) post ->
    fy_resolve_sequence_loop resolve fyd ctx (fy_sequence h (pre ++ post) s e)
                             (List.length post) ret_rc
    = Some (ret_rc, fy_sequence h (pre ++ post) s e, fyd).
Proof.
  induction post as [|x post IH]; intros pre fyd ctx ret_rc H; [reflexivity|].
  cbn [fy_resolve_sequence_loop fy_sequence_of List.length].
  replace (List.length (pre ++ x :: post) - S (List.length post)) with (List.length pre)
    by (rewrite length_app; simpl; lia).
  rewrite fy_nth_error_middle.
  inversion H as [|? ? Hx Hr]; subst.
  rewrite Hx. cbn [fy_with_sequence]. rewrite fy_list_set_middle, fy_keep_rc_ok.
  change (pre ++ x :: post) with (pre ++ [x] ++ post). rewrite app_assoc.
  now apply IH.
Qed.

Lemma fy_resolve_mapping_loop_keep h s e :
  forall post pre fyd ctx ret_rc,
    Forall (fun p : fy_node_pair =>
              fy_node_pair_is_merge_key p = false /\
              forall n, key p = Some n \/ value p = Some n ->
                        forall fyd ctx, resolve fyd ctx n = Some (0%Z, n, fyd)) post ->
    fy_resolve_mapping_loop resolve fyd ctx (fy_mapping h (pre ++ post) s e)
                            (List.length post) ret_rc
    = Some (ret_rc, fy_mapping h (pre ++ post) s e, fyd).
Proof.
  induction post as [|p post IH]; intros pre fyd ctx ret_rc H; [reflexivity|].
  cbn [fy_resolve_mapping_loop fy_mapping_of List.length].
  replace (List.length (pre ++ p :: post) - S (List.length post)) with (List.length pre)
    by (rewrite length_app; simpl; lia).
  rewrite fy_nth_error_middle.
  inversion H as [|? ? (Hm & Hkv) Hr]; subst.
  rewrite Hm.
  rewrite (@fy_resolve_opt_keep _ _ (key p)) by (intros n E; apply Hkv; now left).
  rewrite (@fy_resolve_opt_keep _ _ (value p)) by (intros n E; apply Hkv; now right).
  cbn [fy_with_mapping]. rewrite fy_list_set_middle, !fy_keep_rc_ok.
  replace (mk_pair (key p) (value p)) with p by (now destruct p).
  change (pre ++ p :: post) with (pre ++ [p] ++ post). rewrite app_assoc.
  now apply IH.
Qed.

End ResolvePlain.

Lemma fy_existsb_false (A : Type) (f : A -> bool) l :
  List.existsb f l = false -> forall x, In x l -> f x = false.
Proof.
  intros H x Hx. destruct (f x) eqn:E; [|reflexivity].
  assert (List.existsb f l = true) by (apply existsb_exists; eauto). congruence.
Qed.

(** A node without aliases and without merge pairs comes back from the
    resolver as it went in. *)
Lemma fy_resolve_anchor_node_plain d :
  forall fyn fyd ctx,
    fy_node_has_alias fyn = false ->
    fy_node_has_merge_key fyn = false ->
    fy_node_height fyn <= d ->
    fy_resolve_anchor_node d fyd ctx fyn = Some (0%Z, fyn, fyd).
Proof.
  induction d as [|d IH]; intros fyn fyd ctx Ha Hm Hh.
  - pose proof (fy_node_height_pos fyn). lia.
  - cbn [fy_resolve_anchor_node].
    destruct fyn as [h t|h l s e|h l s e]; cbn [fy_node_has_alias fy_node_has_merge_key] in Ha, Hm;
      apply orb_false_iff in Ha; destruct Ha as [Ha1 Ha2]; rewrite Ha1.
    + reflexivity.
    + rewrite fy_node_height_sequence in Hh.
      apply (@fy_resolve_sequence_loop_keep (fy_resolve_anchor_node d) h s e l [] fyd ctx 0%Z).
      apply Forall_forall. intros x Hx fyd1 ctx1. apply IH.
      * now apply (fy_existsb_false _ _ Ha2).
      * now apply (fy_existsb_false _ _ Hm).
      * pose proof (fy_items_height_In x l Hx). lia.
    + rewrite fy_node_height_mapping in Hh.
      apply (@fy_resolve_mapping_loop_keep (fy_resolve_anchor_node d) h s e l [] fyd ctx 0%Z).
      apply Forall_forall. intros p Hp.
      pose proof (fy_existsb_false _ _ Ha2 p Hp) as A.
      pose proof (fy_existsb_false _ _ Hm p Hp) as M. cbv beta in A, M.
      destruct (fy_pairs_height_In _ _ Hp) as [Hk Hv].
      apply orb_false_iff in M. destruct M as [M1 M2]. split; [exact M1|].
      destruct p as [k v]. cbn [key value] in *.
      apply orb_false_iff in A. destruct A as [Ak Av].
      apply orb_false_iff in M2. destruct M2 as [Mk Mv].
      intros n [E|E] fyd1 ctx1; subst; apply IH; simpl in *; auto; lia.
Qed.

(** X15.  A tree that holds no alias and no merge pair has nothing to
    resolve: [fy_resolve_anchor_node] returns 0 and leaves the node and the
    document as they are, and [fy_document_resolve] returns 0 and changes
    nothing but the parent links it sets afresh. *)
Theorem fy_document_resolve_plain :
  (forall depth fyn fyd ctx,
      fy_node_has_alias fyn = false ->
      fy_node_has_merge_key fyn = false ->
      fy_node_height fyn <= depth ->
      fy_resolve_anchor_node depth fyd ctx fyn = Some (0%Z, fyn, fyd)) /\
  (forall depth fyd root,
      fyd_root fyd = Some root ->
      fy_node_has_alias root = false ->
      fy_node_has_merge_key root = false ->
      fy_node_height root <= depth ->
      fy_document_resolve depth fyd =
      Some (0%Z, mk_document (fyd_anchors fyd)
                             (Some (fy_resolve_parent_node root None)) (fyd_brk fyd))).
Proof.
  split.
  - intros depth. apply fy_resolve_anchor_node_plain.
  - intros depth fyd root Hr Ha Hm Hh. unfold fy_document_resolve. rewrite Hr.
    now rewrite fy_resolve_anchor_node_plain.
Qed.

(** ** A merge pair with a value that cannot be merged *)








(** ** Copies *)

Lemma fy_node_copy_node_sequence h l s e fyd :
  fy_node_copy_node (fy_sequence h l s e) fyd =
  let (h', fyd1) := fy_node_alloc_hdr fyd in
  let h' := fy_hdr_with h' (fyn_style h) (fyn_tag h) in
  let '(items, fyd2) := fy_copy_items fy_node_copy_node l fyd1 in
  match items with
  | None => (None, fyd2)
  | Some items =>
    fy_node_copy_anchor fyd2 (fy_sequence h l s e) (fy_sequence h' items None None)
  end.
Proof. reflexivity. Qed.

Lemma fy_node_copy_node_mapping h l s e fyd :
  fy_node_copy_node (fy_mapping h l s e) fyd =
  let (h', fyd1) := fy_node_alloc_hdr fyd in
  let h' := fy_hdr_with h' (fyn_style h) (fyn_tag h) in
  let '(pairs, fyd2) := fy_copy_pairs fy_node_copy_node l fyd1 in
  fy_node_copy_anchor fyd2 (fy_mapping h l s e) (fy_mapping h' pairs None None).
Proof. reflexivity. Qed.

(** Within one document whose anchor names are C strings, the anchor step
    of a copy finds the name and leaves everything as it is. *)
Lemma fy_node_copy_anchor_same_document fyd fyn_from fyn :
  fy_anchor_names_c_strings fyd ->
  fy_node_copy_anchor fyd fyn_from fyn = (Some fyn, fyd).
Proof.
  intros H. unfold fy_node_copy_anchor.
  destruct (List.find _ (fyd_anchors fyd)) as [fya|] eqn:E; [|reflexivity].
  apply find_some in E. destruct E as [Hin _].
  unfold fy_anchor_names_c_strings in H. rewrite Forall_forall in H.
  rewrite fy_lookup_by_token_find by (apply (H fya Hin)).
  destruct (List.find _ (fyd_anchors fyd)) as [x|] eqn:F; [reflexivity|].
  pose proof (find_none _ _ F fya Hin) as C. cbv beta in C.
  unfold fy_anchor_get_text in C at 1. simpl in C.
  change (fyt_text (fya_anchor fya)) with (fy_anchor_get_text fya) in C.
  now rewrite String.eqb_refl in C.
Qed.

Lemma fy_fresh_nodes_nil fyd : fy_fresh_nodes fyd [] fyd.
Proof.
  unfold fy_fresh_nodes. repeat split; auto; try contradiction. constructor.
Qed.

Lemma fy_fresh_nodes_app fyd a1 fyd1 a2 fyd2 :
  fy_fresh_nodes fyd a1 fyd1 -> fy_fresh_nodes fyd1 a2 fyd2 ->
  fy_fresh_nodes fyd (a1 ++ a2) fyd2.
Proof.
  intros (A1 & R1 & B1 & I1 & N1) (A2 & R2 & B2 & I2 & N2).
  unfold fy_fresh_nodes. split; [congruence|]. split; [congruence|]. split; [lia|]. split.
  - intros a Ha. apply in_app_or in Ha. destruct Ha as [Ha|Ha].
    + specialize (I1 a Ha). lia.
    + specialize (I2 a Ha). lia.
  - apply NoDup_app; auto.
    intros a H1 H2. specialize (I1 a H1). specialize (I2 a H2). lia.
Qed.

Lemma fy_fresh_nodes_alloc fyd :
  fy_fresh_nodes fyd [fyd_brk fyd] (snd (fy_node_alloc_hdr fyd)).
Proof.
  unfold fy_fresh_nodes. simpl.
  split; [reflexivity|]. split; [reflexivity|]. split; [lia|]. split.
  - intros a [<-|[]]. lia.
  - constructor; [simpl; tauto|constructor].
Qed.

Lemma fy_fresh_nodes_names fyd addrs fyd' :
  fy_fresh_nodes fyd addrs fyd' ->
  fy_anchor_names_c_strings fyd -> fy_anchor_names_c_strings fyd'.
Proof.
  intros (A & _) H. unfold fy_anchor_names_c_strings in *. now rewrite A.
Qed.

Section CopyLoops.

Variable copy : fy_node -> fy_document -> option fy_node * fy_document.
Variable d : nat.
Hypothesis copy_ok :
  forall n fyd,
    fy_node_height n <= d -> fy_anchor_names_c_strings fyd ->
    exists c fyd',
      copy n fyd = (Some c, fyd') /\ fy_same_content n c /\
      fy_fresh_nodes fyd (fy_node_addrs c) fyd'.

Lemma fy_copy_opt_ok k fyd :
  fy_height k <= d -> fy_anchor_names_c_strings fyd ->
  exists kt fyd',
    match k with
    | Some n => copy n fyd
    | None => (None, fyd)
    end = (kt, fyd') /\
    fy_same_content_opt k kt /\ fy_fresh_nodes fyd (fy_opt_addrs kt) fyd'.
Proof.
  intros Hh Hn. destruct k as [n|].
  - destruct (copy_ok n Hh Hn) as (c & fyd' & -> & S & F).
    exists (Some c), fyd'. split; [reflexivity|]. split; [now constructor|exact F].
  - exists None, fyd. split; [reflexivity|]. split; [constructor|apply fy_fresh_nodes_nil].
Qed.

Lemma fy_copy_items_ok l :
  forall fyd,
    Forall (fun x => fy_node_height x <= d) l -> fy_anchor_names_c_strings fyd ->
    exists l' fyd',
      fy_copy_items copy l fyd = (Some l', fyd') /\
      Forall2 fy_same_content l l' /\
      fy_fresh_nodes fyd (List.flat_map fy_node_addrs l') fyd'.
Proof.
  induction l as [|x r IH]; intros fyd Hl Hn.
  - exists [], fyd. split; [reflexivity|]. split; [constructor|apply fy_fresh_nodes_nil].
  - inversion Hl as [|? ? Hx Hr]; subst. cbn [fy_copy_items].
    destruct (copy_ok x Hx Hn) as (c & fyd1 & -> & S & F).
    destruct (IH fyd1 Hr (fy_fresh_nodes_names F Hn)) as (r' & fyd2 & -> & S2 & F2).
    exists (c :: r'), fyd2. split; [reflexivity|]. split; [now constructor|].
    simpl. eapply fy_fresh_nodes_app; eauto.
Qed.

Lemma fy_copy_pairs_ok l :
  forall fyd,
    Forall (fun p : fy_node_pair => fy_height (key p) <= d /\ fy_height (value p) <= d) l ->
    fy_anchor_names_c_strings fyd ->
    exists l' fyd',
      fy_copy_pairs copy l fyd = (l', fyd') /\
      Forall2 (fun p q : fy_node_pair =>
                 fy_same_content_opt (key p) (key q) /\
                 fy_same_content_opt (value p) (value q)) l l' /\
      fy_fresh_nodes fyd
        (List.flat_map (fun p : fy_node_pair =>
                          let (k, v) := p in fy_opt_addrs k ++ fy_opt_addrs v) l') fyd'.
Proof.
  induction l as [|[k v] r IH]; intros fyd Hl Hn.
  - exists [], fyd. split; [reflexivity|]. split; [constructor|apply fy_fresh_nodes_nil].
  - inversion Hl as [|? ? [Hk Hv] Hr]; subst. cbn [key value] in Hk, Hv.
    cbn [fy_copy_pairs].
    destruct (@fy_copy_opt_ok k fyd Hk Hn) as (kt & fyd1 & -> & Sk & Fk).
    pose proof (fy_fresh_nodes_names Fk Hn) as Hn1.
    destruct (@fy_copy_opt_ok v fyd1 Hv Hn1) as (vt & fyd2 & -> & Sv & Fv).
    pose proof (fy_fresh_nodes_names Fv Hn1) as Hn2.
    destruct (IH fyd2 Hr Hn2) as (r' & fyd3 & -> & S3 & F3).
    exists (mk_pair kt vt :: r'), fyd3. split; [reflexivity|].
    split; [constructor; [split; assumption|assumption]|].
    simpl. eapply fy_fresh_nodes_app; [|exact F3].
    eapply fy_fresh_nodes_app; eauto.
Qed.

End CopyLoops.

(** A copy within a document whose anchor names are C strings. *)
Lemma fy_node_copy_node_ok d :
  forall n fyd,
    fy_node_height n <= d -> fy_anchor_names_c_strings fyd ->
    exists c fyd',
      fy_node_copy_node n fyd = (Some c, fyd') /\ fy_same_content n c /\
      fy_fresh_nodes fyd (fy_node_addrs c) fyd'.
Proof.
  induction d as [|d IH]; intros n fyd Hh Hn.
  - pose proof (fy_node_height_pos n). lia.
  - pose proof (fy_fresh_nodes_alloc fyd) as Fa.
    pose proof (fy_fresh_nodes_names Fa Hn) as Hn1.
    destruct n as [h t|h l s e|h l s e].
    + cbn [fy_node_copy_node fy_node_alloc_hdr].
      cbn [fy_node_alloc_hdr snd] in Fa, Hn1.
      rewrite fy_node_copy_anchor_same_document by exact Hn1.
      eexists _, _. split; [reflexivity|]. split; [constructor|exact Fa].
    + rewrite fy_node_height_sequence in Hh.
      rewrite fy_node_copy_node_sequence. cbn [fy_node_alloc_hdr].
      cbn [fy_node_alloc_hdr snd] in Fa, Hn1.
      assert (Hl : Forall (fun x => fy_node_height x <= d) l)
        by (apply fy_items_height_Forall; lia).
      destruct (@fy_copy_items_ok fy_node_copy_node d IH l _ Hl Hn1)
        as (l' & fyd2 & -> & S & F).
      rewrite fy_node_copy_anchor_same_document by (exact (fy_fresh_nodes_names F Hn1)).
      eexists _, _. split; [reflexivity|]. split; [now constructor|].
      apply (fy_fresh_nodes_app Fa F).
    + rewrite fy_node_height_mapping in Hh.
      rewrite fy_node_copy_node_mapping. cbn [fy_node_alloc_hdr].
      cbn [fy_node_alloc_hdr snd] in Fa, Hn1.
      assert (Hl : Forall (fun p : fy_node_pair =>
                             fy_height (key p) <= d /\ fy_height (value p) <= d) l)
        by (apply fy_pairs_height_Forall; lia).
      destruct (@fy_copy_pairs_ok fy_node_copy_node d IH l _ Hl Hn1)
        as (l' & fyd2 & -> & S & F).
      rewrite fy_node_copy_anchor_same_document by (exact (fy_fresh_nodes_names F Hn1)).
      eexists _, _. split; [reflexivity|]. split; [now constructor|].
      apply (fy_fresh_nodes_app Fa F).
Qed.

(** X17.  Within a document whose anchor names are C strings, [fy_node_copy]
    of a node of that document succeeds and builds a tree of the same shape
    with the same scalar tokens out of newly allocated nodes: every node of
    the copy lies at an address the document had not given out before, no two
    of them at the same one, the root keeps type and style, and the anchors
    and the root of the document are as they were.  A NULL source gives
    NULL. *)
Theorem fy_node_copy_fresh fyd n :
  fy_anchor_names_c_strings fyd ->
  (exists c fyd',
      fy_node_copy fyd (Some n) = (Some c, fyd') /\
      fy_same_content n c /\
      fy_type c = fy_type n /\ fy_style c = fy_style n /\
      fy_fresh_nodes fyd (fy_node_addrs c) fyd') /\
  fy_node_copy fyd None = (None, fyd).
Proof.
  intros H. split; [|reflexivity].
  destruct (@fy_node_copy_node_ok (fy_node_height n) n fyd (le_n _) H)
    as (c & fyd' & E & S & F).
  exists c, fyd'. cbn [fy_node_copy]. split; [exact E|]. split; [exact S|].
  destruct (fy_node_copy_node_same _ _ E) as (T & Y & _). auto.
Qed.

(** ** A copy compares equal to its source *)










Section SortParametric.

(** A sort that looks at the entries only through the comparator puts two
    arrays that the comparator cannot tell apart in the same order. *)
Hypothesis qsort_r_parametric :
  forall (f : fy_sort_entry -> fy_sort_entry) (cmp : fy_sort_fn) l,
    (forall a b, In a l -> In b l -> cmp (f a) (f b) = cmp a b) ->
    qsort_r cmp (List.map f l) = List.map f (qsort_r cmp l).



End SortParametric.

(** ** Freeing nodes and the anchors on them *)

Lemma fy_filter_filter (A : Type) (f g : A -> bool) l :
  List.filter f (List.filter g l) = List.filter (fun x => g x && f x) l.
Proof.
  induction l as [|x r IH]; simpl; [reflexivity|].
  destruct (g x); simpl; [destruct (f x); now rewrite IH|exact IH].
Qed.

Lemma fy_anchors_drop_nodes addrs :
  forall fyd,
    List.fold_left fy_anchors_drop_node addrs fyd =
    fy_document_with_anchors fyd
      (List.filter (fun fya => negb (List.existsb (fun p => fy_anchor_on p fya) addrs))
                   (fyd_anchors fyd)).
Proof.
  induction addrs as [|p r IH]; intros fyd; simpl.
  - destruct fyd as [al root brk]. unfold fy_document_with_anchors. simpl. f_equal.
    induction al as [|a t IHt]; simpl; [reflexivity|]. now rewrite <- IHt.
  - rewrite IH. unfold fy_anchors_drop_node, fy_document_with_anchors. simpl. f_equal.
    rewrite fy_filter_filter. apply filter_ext. intros a.
    now rewrite negb_orb.
Qed.

Lemma fy_find_filter (A : Type) (f g : A -> bool) l :
  (forall x, f x = true -> g x = true) ->
  List.find f (List.filter g l) = List.find f l.
Proof.
  intros H. induction l as [|x r IH]; simpl; [reflexivity|].
  destruct (g x) eqn:G; simpl.
  - destruct (f x); [reflexivity|exact IH].
  - destruct (f x) eqn:F; [|exact IH]. rewrite (H x F) in G. discriminate.
Qed.

Lemma fy_find_filter_none (A : Type) (f g : A -> bool) l :
  (forall x, f x = true -> g x = false) ->
  List.find f (List.filter g l) = None.
Proof.
  intros H. induction l as [|x r IH]; simpl; [reflexivity|].
  destruct (g x) eqn:G; simpl; [|exact IH].
  destruct (f x) eqn:F; [|exact IH]. rewrite (H x F) in G. discriminate.
Qed.

(** X19.  [fy_node_free] takes with it the anchors that sit on the node or
    on a node below it, and only those: afterwards no freed node has an
    anchor, every other node has the anchor it had, and an anchor that stays
    keeps its place in the list. *)
Theorem fy_node_free_anchors fyd n :
  let fyd' := fy_node_free fyd (Some n) in
  fyd_anchors fyd' =
    List.filter (fun fya => negb (List.existsb (fun p => fy_anchor_on p fya) (fy_node_addrs n)))
                (fyd_anchors fyd) /\
  (forall p, In p (fy_node_addrs n) ->
             fy_document_lookup_anchor_by_node fyd' (Some p) = None) /\
  (forall q, ~ In q (fy_node_addrs n) ->
             fy_document_lookup_anchor_by_node fyd' (Some q) =
             fy_document_lookup_anchor_by_node fyd (Some q)) /\
  fyd_root fyd' = fyd_root fyd /\
  fy_node_free fyd None = fyd.
Proof.
  cbn zeta. unfold fy_node_free. rewrite fy_anchors_drop_nodes.
  unfold fy_document_lookup_anchor_by_node. cbn [fy_document_with_anchors fyd_anchors fyd_root].
  split; [reflexivity|]. split; [|split; [|split; reflexivity]].
  - intros p Hp. apply fy_find_filter_none. intros a Ha.
    apply negb_false_iff. apply existsb_exists. exists p. auto.
  - intros q Hq. apply fy_find_filter. intros a Ha.
    apply negb_true_iff. destruct (List.existsb _ _) eqn:E; [|reflexivity].
    apply existsb_exists in E. destruct E as (p & Hp & Hpa).
    apply fy_anchor_on_iff in Ha. apply fy_anchor_on_iff in Hpa.
    assert (p = q) by congruence. subst. contradiction.
Qed.

(** ** Inserting into the root *)











(** ** Resolving an alias *)


(** ** The loader and the anchor names *)

Lemma fy_load_register_anchor_names fyd fyn anchor :
  fy_token_c_string anchor ->
  fy_anchor_names_distinct fyd ->
  fy_anchor_names_distinct (snd (fy_load_register_anchor fyd fyn anchor)).
Proof.
  intros Hc Hd. destruct anchor as [t|]; [|exact Hd]. simpl in *.
  unfold fy_parse_document_register_anchor.
  rewrite (@fy_lookup_by_token_find fyd t Hc).
  destruct (List.find _ (fyd_anchors fyd)) as [fya|] eqn:E; [exact Hd|].
  apply fy_find_text_none in E. unfold fy_anchor_names_distinct in *.
  cbn [snd fy_document_with_anchors fyd_anchors fy_list_add List.map].
  constructor; [exact E|exact Hd].
Qed.

Lemma fy_load_scalar_names fyd fye r fyd' :
  fy_event_c_string fye ->
  fy_anchor_names_distinct fyd ->
  fy_parse_document_load_scalar fyd fye = (r, fyd') ->
  fy_anchor_names_distinct fyd'.
Proof.
  unfold fy_parse_document_load_scalar. cbn [fy_node_alloc_hdr]. intros Hc Hd.
  destruct fye; try (intros H; inversion H; subst; exact Hd).
  cbn [fy_hdr_with fyn_addr].
  pose proof (@fy_load_register_anchor_names
                (mk_document (fyd_anchors fyd) (fyd_root fyd) (S (fyd_brk fyd)))
                (fyd_brk fyd) anchor Hc Hd) as R.
  destruct (fy_load_register_anchor _ _ _) as [rc fyd1]. cbn [snd] in R.
  destruct (rc =? 0)%Z; intros H; inversion H; subst; exact R.
Qed.

Lemma fy_some_event (P : fy_event -> Prop) fye :
  P fye -> forall x, Some fye = Some x -> P x.
Proof. intros H x E. inversion E; subst. exact H. Qed.

(** The five loaders, by induction on the fuel: the anchor names stay
    distinct and the events left over are events of the stream. *)
Lemma fy_load_names fuel :
  (forall fyd fyp fyep r fyd' fyp',
      fy_anchor_names_distinct fyd ->
      (forall fye, fyep = Some fye -> fy_event_c_string fye) ->
      Forall fy_event_c_string fyp ->
      fy_parse_document_load_node fuel fyd fyp fyep = Some (r, fyd', fyp') ->
      fy_anchor_names_distinct fyd' /\ Forall fy_event_c_string fyp') /\
  (forall fyd fyp anchor tag ss r fyd' fyp',
      fy_anchor_names_distinct fyd -> fy_token_c_string anchor ->
      Forall fy_event_c_string fyp ->
      fy_parse_document_load_sequence fuel fyd fyp anchor tag ss = Some (r, fyd', fyp') ->
      fy_anchor_names_distinct fyd' /\ Forall fy_event_c_string fyp') /\
  (forall fyd fyp h ss items r fyd' fyp',
      fy_anchor_names_distinct fyd -> Forall fy_event_c_string fyp ->
      fy_load_sequence_loop fuel fyd fyp h ss items = Some (r, fyd', fyp') ->
      fy_anchor_names_distinct fyd' /\ Forall fy_event_c_string fyp') /\
  (forall fyd fyp anchor tag ms r fyd' fyp',
      fy_anchor_names_distinct fyd -> fy_token_c_string anchor ->
      Forall fy_event_c_string fyp ->
      fy_parse_document_load_mapping fuel fyd fyp anchor tag ms = Some (r, fyd', fyp') ->
      fy_anchor_names_distinct fyd' /\ Forall fy_event_c_string fyp') /\
  (forall fyd fyp h ms pairs r fyd' fyp',
      fy_anchor_names_distinct fyd -> Forall fy_event_c_string fyp ->
      fy_load_mapping_loop fuel fyd fyp h ms pairs = Some (r, fyd', fyp') ->
      fy_anchor_names_distinct fyd' /\ Forall fy_event_c_string fyp').
Proof.
  induction fuel as [|fuel (IHnode & IHseq & IHseql & IHmap & IHmapl)].
  { repeat split; intros; discriminate. }
  split; [|split; [|split; [|split]]].
  - intros fyd fyp fyep r fyd' fyp' Hd He Hp H. simpl in H.
    destruct fyep as [fye|]; [|inversion H; subst; auto].
    specialize (He fye eq_refl).
    destruct fye; try (inversion H; subst; auto; fail).
    + eapply IHmap; eauto.
    + eapply IHseq; eauto.
    + destruct (fy_parse_document_load_scalar fyd _) as [r1 fyd1] eqn:E.
      inversion H; subst. split; [|exact Hp]. eapply fy_load_scalar_names; eauto.
  - intros fyd fyp anchor tag ss r fyd' fyp' Hd Hc Hp H. simpl in H.
    pose proof (@fy_load_register_anchor_names
                  (mk_document (fyd_anchors fyd) (fyd_root fyd) (S (fyd_brk fyd)))
                  (fyd_brk fyd) anchor Hc Hd) as R.
    destruct (fy_load_register_anchor _ _ _) as [rc fyd1]. cbn [snd] in R.
    destruct (negb (rc =? 0)%Z); [inversion H; subst; auto|].
    eapply IHseql; eauto.
  - intros fyd fyp h ss items r fyd' fyp' Hd Hp H. simpl in H.
    destruct fyp as [|fye fyp]; [inversion H; subst; auto|].
    inversion Hp as [|? ? Hfye Hrest]; subst.
    assert (Hstep :
      match fy_parse_document_load_node fuel fyd fyp (Some fye) with
      | Some (fy_ok fyn_item, fyd0, fyp0) =>
        fy_load_sequence_loop fuel fyd0 fyp0 h ss (fy_list_add_tail items fyn_item)
      | Some (fy_error ec, fyd0, fyp0) => Some (fy_error ec, fyd0, fyp0)
      | None => None
      end = Some (r, fyd', fyp') ->
      fy_anchor_names_distinct fyd' /\ Forall fy_event_c_string fyp').
    { destruct (fy_parse_document_load_node fuel fyd fyp (Some fye))
        as [[[[item|ec] fyd1] fyp1]|] eqn:E; try discriminate.
      - intros H1.
        destruct (IHnode _ _ _ _ _ _ Hd (fy_some_event _ Hfye) Hrest E) as [Hd1 Hp1].
        eapply IHseql; eauto.
      - intros H1. inversion H1; subst.
        apply (IHnode _ _ _ _ _ _ Hd (fy_some_event _ Hfye) Hrest E). }
    destruct fye; try (apply Hstep; exact H).
    inversion H; subst. auto.
  - intros fyd fyp anchor tag ms r fyd' fyp' Hd Hc Hp H. simpl in H.
    pose proof (@fy_load_register_anchor_names
                  (mk_document (fyd_anchors fyd) (fyd_root fyd) (S (fyd_brk fyd)))
                  (fyd_brk fyd) anchor Hc Hd) as R.
    destruct (fy_load_register_anchor _ _ _) as [rc fyd1]. cbn [snd] in R.
    destruct (negb (rc =? 0)%Z); [inversion H; subst; auto|].
    eapply IHmapl; eauto.
  - intros fyd fyp h ms pairs r fyd' fyp' Hd Hp H. simpl in H.
    destruct fyp as [|fye fyp]; [inversion H; subst; auto|].
    inversion Hp as [|? ? Hfye Hrest]; subst.
    assert (Hstep :
      match fy_parse_document_load_node fuel fyd fyp (Some fye) with
      | Some (fy_ok fyn_key, fyd0, fyp0) =>
        if fy_node_mapping_key_is_duplicate (fy_mapping h pairs ms None) (Some fyn_key)
        then Some (fy_error (mk_error_ctx "duplicate key"
                                          (fy_node_get_start_mark (Some fyn_key))
                                          (fy_node_get_end_mark (Some fyn_key))),
                   fyd0, fyp0)
        else
          match fyp0 with
          | [] => Some (fy_error_msg "missing mapping value", fyd0, [])
          | fye0 :: fyp1 =>
            match fy_parse_document_load_node fuel fyd0 fyp1 (Some fye0) with
            | Some (fy_ok fyn_value, fyd2, fyp2) =>
              fy_load_mapping_loop fuel fyd2 fyp2 h ms
                (fy_list_add_tail pairs (mk_pair (Some fyn_key) (Some fyn_value)))
            | Some (fy_error ec, fyd2, fyp2) => Some (fy_error ec, fyd2, fyp2)
            | None => None
            end
          end
      | Some (fy_error ec, fyd0, fyp0) => Some (fy_error ec, fyd0, fyp0)
      | None => None
      end = Some (r, fyd', fyp') ->
      fy_anchor_names_distinct fyd' /\ Forall fy_event_c_string fyp').
    { destruct (fy_parse_document_load_node fuel fyd fyp (Some fye))
        as [[[[k|ec] fyd1] fyp1]|] eqn:Ek; try discriminate.
      - destruct (IHnode _ _ _ _ _ _ Hd (fy_some_event _ Hfye) Hrest Ek)
          as [Hd1 Hp1].
        destruct (fy_node_mapping_key_is_duplicate _ _);
          [intros H1; inversion H1; subst; auto|].
        destruct fyp1 as [|fye1 fyp1]; [intros H1; inversion H1; subst; auto|].
        inversion Hp1 as [|? ? Hfye1 Hrest1]; subst.
        destruct (fy_parse_document_load_node fuel fyd1 fyp1 (Some fye1))
          as [[[[v|ec] fyd2] fyp2]|] eqn:Ev; try discriminate.
        + destruct (IHnode _ _ _ _ _ _ Hd1 (fy_some_event _ Hfye1) Hrest1 Ev) as [Hd2 Hp2].
          intros H1. eapply IHmapl; eauto.
        + intros H1. inversion H1; subst.
          apply (IHnode _ _ _ _ _ _ Hd1 (fy_some_event _ Hfye1) Hrest1 Ev).
      - intros H1. inversion H1; subst.
        apply (IHnode _ _ _ _ _ _ Hd (fy_some_event _ Hfye) Hrest Ek). }
    destruct fye; try (apply Hstep; exact H).
    inversion H; subst. auto.
Qed.

Lemma fy_load_register_anchor_dup fyd fyn (a : fy_token) :
  c_str (fyt_text a) = fyt_text a ->
  In (fyt_text a) (List.map fy_anchor_get_text (fyd_anchors fyd)) ->
  fy_load_register_anchor fyd fyn (Some a) = ((-1)%Z, fyd).
Proof.
  intros Hc Hin. cbn [fy_load_register_anchor].
  unfold fy_parse_document_register_anchor.
  rewrite (@fy_lookup_by_token_find fyd a Hc).
  destruct (List.find _ (fyd_anchors fyd)) as [fya|] eqn:E; [reflexivity|].
  apply fy_find_text_none in E. contradiction.
Qed.

(** X23.  Loading keeps the anchor names of a document distinct.  When the
    anchors the events declare have names without a NUL byte, whatever
    [fy_parse_document_load_node] returns, a node or an error, a document
    that had no two anchors of one name has none afterwards; and a scalar, a
    sequence or a mapping event that declares a name the document already
    has ends the load with the error "duplicate anchor", the anchors left as
    they were. *)
Theorem fy_load_anchor_names :
  (forall fuel fyd fyp fyep r fyd' fyp',
      fy_anchor_names_distinct fyd ->
      (forall fye, fyep = Some fye -> fy_event_c_string fye) ->
      Forall fy_event_c_string fyp ->
      fy_parse_document_load_node fuel fyd fyp fyep = Some (r, fyd', fyp') ->
      fy_anchor_names_distinct fyd') /\
  (forall fuel fyd fyp (a : fy_token) tag t,
      c_str (fyt_text a) = fyt_text a ->
      In (fyt_text a) (List.map fy_anchor_get_text (fyd_anchors fyd)) ->
      let fyd' := mk_document (fyd_anchors fyd) (fyd_root fyd) (S (fyd_brk fyd)) in
      fy_parse_document_load_node (S fuel) fyd fyp (Some (FYET_SCALAR (Some a) tag t))
      = Some (fy_error_msg "duplicate anchor", fyd', fyp) /\
      fy_parse_document_load_node (S (S fuel)) fyd fyp (Some (FYET_SEQUENCE_START (Some a) tag t))
      = Some (fy_error_msg "duplicate anchor", fyd', fyp) /\
      fy_parse_document_load_node (S (S fuel)) fyd fyp (Some (FYET_MAPPING_START (Some a) tag t))
      = Some (fy_error_msg "duplicate anchor", fyd', fyp)).
Proof.
  split.
  - intros fuel fyd fyp fyep r fyd' fyp' Hd He Hp H.
    apply (proj1 (fy_load_names fuel) _ _ _ _ _ _ Hd He Hp H).
  - intros fuel fyd fyp a tag t Hc Hin fyd'.
    assert (Hin' : In (fyt_text a) (List.map fy_anchor_get_text (fyd_anchors fyd')))
      by exact Hin.
    pose proof (fy_load_register_anchor_dup fyd' (fyd_brk fyd) a Hc Hin') as R.
    split; [|split].
    + cbn [fy_parse_document_load_node]. unfold fy_parse_document_load_scalar.
      cbn [fy_node_alloc_hdr fy_hdr_with fyn_addr]. fold fyd'. now rewrite R.
    + cbn [fy_parse_document_load_node fy_parse_document_load_sequence
           fy_node_alloc_hdr fy_hdr_with fyn_addr]. fold fyd'. now rewrite R.
    + cbn [fy_parse_document_load_node fy_parse_document_load_mapping
           fy_node_alloc_hdr fy_hdr_with fyn_addr]. fold fyd'. now rewrite R.
Qed.

(** ** Membership in a sequence (fy_node_sequence_contains_node) *)

Lemma fy_node_list_index_in l :
  forall p i, fy_node_list_index l p i <> None <-> In p (List.map fy_addr l).
Proof.
  induction l as [|y r IH]; intros p i; simpl.
  - split; [congruence|intros []].
  - destruct (Nat.eqb_spec (fy_addr y) p) as [E|N].
    + split; [now left|congruence].
    + rewrite IH. split; [now right|intros [E|H]; [contradiction|exact H]].
Qed.

(** X24.  [fy_node_sequence_contains_node] on a sequence and a node is true
    exactly when an item of the sequence is that node.  On a NULL sequence, a
    NULL node or a target that is no sequence the function returns -1, which
    a caller reads as true. *)
Theorem fy_node_sequence_contains_node_spec :
  (forall h l s e p,
      fy_node_sequence_contains_node (Some (fy_sequence h l s e)) (Some p) = true <->
      In p (List.map fy_addr l)) /\
  (forall fyn_seq fyn,
      fyn_seq = None \/ fyn = None \/ fy_node_get_type fyn_seq <> FYNT_SEQUENCE ->
      fy_node_sequence_contains_node fyn_seq fyn = true).
Proof.
  split.
  - intros h l s e p. unfold fy_node_sequence_contains_node. simpl.
    rewrite <- (fy_node_list_index_in l p 0).
    destruct (fy_node_list_index l p 0); split; congruence.
  - intros fyn_seq fyn H. unfold fy_node_sequence_contains_node.
    destruct fyn_seq as [sq|]; [|reflexivity].
    destruct fyn as [p|]; [|reflexivity].
    destruct H as [H|[H|H]]; try discriminate.
    simpl in H. destruct (fy_type sq); try reflexivity. contradiction.
Qed.

(** ** The return code of the resolver *)







Section ResolveCode.

Variable resolve : fy_document -> fy_ctx -> fy_node -> option fy_resolved.

Hypothesis resolve_rc :
  forall fyd ctx fyn r,
    resolve fyd ctx fyn = Some r -> (fst (fst r) = 0 \/ fst (fst r) = -1)%Z.




End ResolveCode.



End Document.

(** * The model run on concrete documents *)

Lemma fy_sort_insert_permutes (A : Type) (cmp : A -> A -> Z) x l :
  Permutation (fy_sort_insert cmp x l) (x :: l).
Proof.
  induction l as [|y r IH]; simpl; [apply Permutation_refl|].
  destruct (cmp y x <=? 0)%Z; [|apply Permutation_refl].
  eapply perm_trans; [apply perm_skip, IH|apply perm_swap].
Qed.

Lemma fy_stable_sort_permutes (A : Type) (cmp : A -> A -> Z) l :
  Permutation (fy_stable_sort cmp l) l.
Proof.
  induction l as [|x r IH]; simpl; [apply perm_nil|].
  eapply perm_trans; [apply fy_sort_insert_permutes|apply perm_skip, IH].
Qed.

Lemma fy_qsort_permutes : forall cmp l, Permutation (fy_qsort cmp l) l.
Proof. intros. apply fy_stable_sort_permutes. Qed.

Lemma fy_addrs_disjoint_ok l1 l2 :
  fy_addrs_disjoint l1 l2 = true -> forall a, In a l1 -> In a l2 -> False.
Proof.
  unfold fy_addrs_disjoint. intros H a H1 H2.
  rewrite forallb_forall in H. specialize (H a H1).
  apply negb_true_iff in H.
  assert (List.existsb (Nat.eqb a) l2 = true).
  { apply existsb_exists. exists a. split; [exact H2|apply Nat.eqb_refl]. }
  congruence.
Qed.

Lemma fy_same_heap_disjointb n1 n2 :
  fy_addrs_disjoint (fy_node_addrs n1) (fy_node_addrs n2) = true ->
  fy_same_heap (Some n1) (Some n2).
Proof.
  intros H. apply fy_same_heap_disjoint. now apply fy_addrs_disjoint_ok.
Qed.


(** C5.  The default comparator does not order scalar keys by their bytes,
    and it breaks no tie between scalar keys: it compares the two texts with
    [strncmp] over the length of the shorter one, so the key [a] and the key
    [ab] get 0 in either order, and so do two pairs with the same key text
    at different positions.  The position decides only between two sequence
    keys or two mapping keys.  With a sort that keeps the order of what
    compares 0, the mapping [{a: 1, ab: 2}] and the mapping [{ab: 2, a: 1}]
    then come out of [fy_node_compare] as different. *)
Theorem fy_node_mapping_sort_cmp_default_prefix :
  fy_node_mapping_sort_cmp_default (0, prefix_pair_a) (1, prefix_pair_ab) = 0%Z /\
  fy_node_mapping_sort_cmp_default (1, prefix_pair_ab) (0, prefix_pair_a) = 0%Z /\
  fy_node_mapping_sort_cmp_default (0, prefix_pair_a) (1, prefix_pair_a) = 0%Z /\
  fy_node_compare fy_qsort prefix_map_1 prefix_map_2 = false.
Proof.
  repeat split; vm_compute; reflexivity.
Qed.

(** An alias in key position that names a plain [<<] scalar: the document
    [[ &m <<, { *m : 1 } ]] resolves without error, and the resolved tree
    holds a pair whose key is the plain scalar [<<]. *)
Lemma fy_alias_key_leaves_merge_key :
  match fy_parse_load_document_root fy_qsort 30 3 true fy_empty_document alias_key_events with
  | Some (fy_ok fyd) => option_map fy_node_has_merge_key (fyd_root fyd) = Some true
  | _ => False
  end.
Proof.
  vm_compute. reflexivity.
Qed.



(** Three copies of [{a: 1, ab: 2}] at different addresses. *)
Lemma fy_node_compare_equivalence_witness :
  (fy_same_heap (prefix_map_at 40) (prefix_map_at 50) /\
   fy_same_heap (prefix_map_at 50) (prefix_map_at 60) /\
   fy_node_compare fy_qsort (prefix_map_at 40) (prefix_map_at 50) = true /\
   fy_node_compare fy_qsort (prefix_map_at 50) (prefix_map_at 60) = true) /\
  fy_node_compare fy_qsort (prefix_map_at 40) (prefix_map_at 60) = true.
Proof.
  assert (H1 : fy_same_heap (prefix_map_at 40) (prefix_map_at 50))
    by (apply fy_same_heap_disjointb; reflexivity).
  assert (H2 : fy_same_heap (prefix_map_at 50) (prefix_map_at 60))
    by (apply fy_same_heap_disjointb; reflexivity).
  assert (H3 : fy_node_compare fy_qsort (prefix_map_at 40) (prefix_map_at 50) = true)
    by reflexivity.
  assert (H4 : fy_node_compare fy_qsort (prefix_map_at 50) (prefix_map_at 60) = true)
    by reflexivity.
  split; [auto|].
  exact (proj2 (proj2 (@fy_node_compare_equivalence fy_qsort fy_qsort_permutes))
               _ _ _ H1 H2 H3 H4).
Defined.

(** The name [a] declared on node 1 and again on node 3. *)
Lemma fy_document_lookup_anchor_most_recent_witness :
  (NoDup (List.map fst [(1, "a"); (2, "b"); (3, "a")]%string) /\
   Forall (fun d : ptr * string =>
             fy_document_lookup_anchor_by_node fy_empty_document (Some (fst d)) = None)
          [(1, "a"); (2, "b"); (3, "a")]%string) /\
  fy_document_lookup_anchor
    (fy_anchor_declare_all fy_empty_document [(1, "a"); (2, "b"); (3, "a")]%string) "a"
  = Some (fy_declared_anchor (3, "a"%string)).
Proof.
  assert (H1 : NoDup (List.map fst [(1, "a"); (2, "b"); (3, "a")]%string)).
  { repeat (constructor; [simpl; intuition discriminate|]). constructor. }
  assert (H2 : Forall (fun d : ptr * string =>
                         fy_document_lookup_anchor_by_node fy_empty_document (Some (fst d))
                         = None)
                      [(1, "a"); (2, "b"); (3, "a")]%string).
  { repeat (constructor; [reflexivity|]). constructor. }
  split; [auto|].
  exact (@fy_document_lookup_anchor_most_recent fy_empty_document _ "a"%string H1 H2).
Defined.

(** Removing the key [ab] from [{a: 1, ab: 2}]. *)
Lemma fy_node_mapping_remove_by_key_spec_witness :
  fy_node_mapping_remove_by_key fy_qsort
    (fy_mapping merge_hdr [prefix_pair_a; prefix_pair_ab] None None) (fy_scalar_at 70 "ab")
  = (option_map (fy_set_parent None) (value prefix_pair_ab),
     fy_mapping merge_hdr [prefix_pair_a] None None).
Proof.
  refine (proj1 (@fy_node_mapping_remove_by_key_spec fy_qsort merge_hdr
                   [prefix_pair_a; prefix_pair_ab] None None (fy_scalar_at 70 "ab"))
                [prefix_pair_a] prefix_pair_ab [] eq_refl _ _).
  - constructor; [reflexivity|constructor].
  - reflexivity.
Defined.


(** The root of the hand-built document: its merge pair is expanded and
    unlinked, and no pair of the result has the key [<<]. *)
Lemma fy_resolve_no_merge_key_witness :
  Forall (fun p : fy_node_pair => fy_node_is_alias (key p) = false) merge_root_pairs /\
  exists fyn' fyd',
    fy_resolve_anchor_node fy_qsort 3 merge_document (fun r => r) merge_root
    = Some (0%Z, fyn', fyd') /\
    exists l', fyn' = fy_mapping merge_hdr l' None None /\ fy_no_merge_pairs l'.
Proof.
  assert (Hl : Forall (fun p : fy_node_pair => fy_node_is_alias (key p) = false)
                      merge_root_pairs)
    by (repeat (constructor; [reflexivity|]); constructor).
  split; [exact Hl|].
  eexists _, _.
  refine (let E := _ in
          conj E (proj1 (@fy_resolve_no_merge_key fy_qsort fy_qsort_permutes)
                        3 merge_document (fun r => r) merge_hdr merge_root_pairs
                        None None _ _ Hl E)).
  vm_compute. reflexivity.
Defined.



(** Scenario S5: the second [k] ends the load with the error at its marks,
    line 1, column 0. *)
Lemma fy_s5_duplicate_key :
  fy_parse_load_document_root fy_qsort 30 3 true fy_empty_document s5_events
  = Some (fy_error fy_document
            (mk_error_ctx "duplicate key" (Some (mk_mark 5 1 0)) (Some (mk_mark 6 1 1)))).
Proof.
  vm_compute. reflexivity.
Qed.

(** * The operations on nodes, run on concrete documents *)




(** The pair [zz: 9] appended to, and put in front of, [{a: 1, ab: 2}]. *)
Lemma fy_node_mapping_append_lookup_witness :
  exists m',
    fy_node_mapping_append fy_qsort
      (Some (fy_mapping merge_hdr [prefix_pair_a; prefix_pair_ab] None None))
      (fy_scalar_at 70 "zz") (fy_scalar_at 71 "9") = (0%Z, m') /\
    fy_node_mapping_lookup_value_by_key fy_qsort m' (fy_scalar_at 70 "zz")
    = option_map (fy_set_parent (Some 20)) (fy_scalar_at 71 "9").
Proof.
  eexists.
  refine (let E := _ in
          conj E (proj1 (proj2 (proj2
            (@fy_node_mapping_append_lookup fy_qsort fy_qsort_permutes
               (fy_mapping merge_hdr [prefix_pair_a; prefix_pair_ab] None None)
               (fy_scalar_at 70 "zz") (fy_scalar_at 71 "9") _ E))))).
  vm_compute. reflexivity.
Defined.

Lemma fy_node_mapping_prepend_first_witness :
  exists m',
    fy_node_mapping_prepend fy_qsort
      (Some (fy_mapping merge_hdr [prefix_pair_a; prefix_pair_ab] None None))
      (fy_scalar_at 70 "zz") (fy_scalar_at 71 "9") = (0%Z, m') /\
    fy_node_mapping_get_by_index m' 0
    = Some (mk_pair (fy_scalar_at 70 "zz")
                    (option_map (fy_set_parent (Some 20)) (fy_scalar_at 71 "9"))).
Proof.
  eexists.
  refine (let E := _ in
          conj E (proj1 (proj2
            (@fy_node_mapping_prepend_first fy_qsort fy_qsort_permutes
               (fy_mapping merge_hdr [prefix_pair_a; prefix_pair_ab] None None)
               (fy_scalar_at 70 "zz") (fy_scalar_at 71 "9") _ E)))).
  vm_compute. reflexivity.
Defined.

Lemma fy_node_mapping_append_remove_witness :
  exists m',
    fy_node_mapping_append fy_qsort
      (Some (fy_mapping merge_hdr [prefix_pair_a; prefix_pair_ab] None None))
      (fy_scalar_at 70 "zz") (fy_scalar_at 71 "9") = (0%Z, Some m') /\
    fy_node_mapping_remove_by_key fy_qsort m' (fy_scalar_at 70 "zz")
    = (fy_scalar_at 71 "9",
       fy_mapping merge_hdr [prefix_pair_a; prefix_pair_ab] None None).
Proof.
  eexists.
  refine (let E := _ in
          conj E (@fy_node_mapping_append_remove fy_qsort fy_qsort_permutes
                    (fy_mapping merge_hdr [prefix_pair_a; prefix_pair_ab] None None)
                    (fy_scalar_at 70 "zz") (fy_scalar_at 71 "9") _ E)).
  vm_compute. reflexivity.
Defined.

(** The sequence [[x, y]] at address 40, and [z] put before [y]. *)
Lemma fy_node_sequence_insert_at_mark_witness :
  Forall (fun y => fy_addr y <> 42) [fy_plain_scalar 41 "x"] /\
  fy_node_sequence_insert_before
    (Some (fy_sequence (mk_hdr 40 None FYNS_FLOW None)
             [fy_plain_scalar 41 "x"; fy_plain_scalar 42 "y"] None None))
    (Some 42) (Some (fy_plain_scalar 43 "z"))
  = Some (0%Z,
          Some (fy_sequence (mk_hdr 40 None FYNS_FLOW None)
                  [fy_plain_scalar 41 "x";
                   fy_set_parent (Some 40) (fy_plain_scalar 43 "z");
                   fy_plain_scalar 42 "y"] None None)).
Proof.
  assert (H : Forall (fun y => fy_addr y <> fy_addr (fy_plain_scalar 42 "y"))
                     [fy_plain_scalar 41 "x"])
    by (repeat constructor; discriminate).
  split; [exact H|].
  exact (proj1 (proj1 (@fy_node_sequence_insert_at_mark
                         (mk_hdr 40 None FYNS_FLOW None) [fy_plain_scalar 41 "x"]
                         (fy_plain_scalar 42 "y") [] None None H)
                      (fy_plain_scalar 43 "z"))).
Defined.

(** The second call of the iterator on [[x, y]] hands out the item at
    position 1. *)
Lemma fy_node_sequence_iterate_pass_witness :
  1 <= List.length [fy_plain_scalar 41 "x"; fy_plain_scalar 42 "y"] /\
  Nat.iter 2
    (fy_node_sequence_iterate
       (Some (fy_sequence (mk_hdr 40 None FYNS_FLOW None)
                [fy_plain_scalar 41 "x"; fy_plain_scalar 42 "y"] None None)))
    None = Some 1.
Proof.
  assert (H : 1 <= List.length [fy_plain_scalar 41 "x"; fy_plain_scalar 42 "y"])
    by (simpl; lia).
  split; [exact H|].
  exact (proj1 (@fy_node_sequence_iterate_pass
                  (mk_hdr 40 None FYNS_FLOW None)
                  [fy_plain_scalar 41 "x"; fy_plain_scalar 42 "y"] None None 1 H)).
Defined.

(** The default sort of [{ab: 2, a: 1}], and of the whole tree. *)
Lemma fy_node_mapping_sort_permutes_witness :
  exists l',
    fy_node_mapping_sort fy_qsort
      (Some (fy_mapping merge_hdr [prefix_pair_ab; prefix_pair_a] None None)) None
    = (0%Z, Some (fy_mapping merge_hdr l' None None)) /\
    Permutation l' [prefix_pair_ab; prefix_pair_a] /\
    fy_node_mapping_item_count (Some (fy_mapping merge_hdr l' None None))
    = fy_node_mapping_item_count
        (Some (fy_mapping merge_hdr [prefix_pair_ab; prefix_pair_a] None None)).
Proof.
  exact (proj1 (@fy_node_mapping_sort_permutes fy_qsort fy_qsort_permutes)
               merge_hdr [prefix_pair_ab; prefix_pair_a] None None None).
Defined.

Lemma fy_node_sort_reorders_witness :
  exists fyn',
    fy_node_sort fy_qsort (Some merge_root) None = Some (0%Z, fyn') /\
    fy_reordered_opt (Some merge_root) fyn'.
Proof.
  exact (@fy_node_sort_reorders fy_qsort fy_qsort_permutes (Some merge_root) None).
Defined.

(** The node at address 32 of the hand-built document, anchored [d], gets
    the anchor [e]. *)
Lemma fy_node_set_anchor_get_witness :
  fy_anchors_one_per_node merge_document /\
  fy_node_get_anchor
    (snd (fy_node_set_anchor merge_document (Some 32) (Some "e"%string) SIZE_MAX))
    (Some 32)
  = Some (fy_declared_anchor (32, "e"%string)).
Proof.
  assert (H : fy_anchors_one_per_node merge_document)
    by (constructor; [intros []|constructor]).
  split; [exact H|].
  exact (proj1 (proj2 (proj1 (@fy_node_set_anchor_get merge_document 32 H)
                             "e"%string))).
Defined.

(** A second anchor of the name [d] is refused. *)
Lemma fy_parse_document_register_anchor_names_witness :
  c_str (fyt_text (fy_anchor_token "d" 1)) = fyt_text (fy_anchor_token "d" 1) /\
  fy_parse_document_register_anchor merge_document 31 (fy_anchor_token "d" 1)
  = ((-1)%Z, merge_document).
Proof.
  assert (H : c_str (fyt_text (fy_anchor_token "d" 1)) = fyt_text (fy_anchor_token "d" 1))
    by reflexivity.
  split; [exact H|].
  exact (proj1 (@fy_parse_document_register_anchor_names
                  merge_document 31 (fy_anchor_token "d" 1) H)
               (or_introl eq_refl)).
Defined.


(** The anchor names of the hand-built document are C strings. *)
Lemma merge_document_c_strings : fy_anchor_names_c_strings merge_document.
Proof. constructor; [reflexivity|constructor]. Qed.

(** A copy of the mapping [{ a: 1 }] of the hand-built document. *)
Lemma fy_node_copy_fresh_witness :
  fy_anchor_names_c_strings merge_document /\
  exists c fyd',
    fy_node_copy merge_document (Some merge_defaults) = (Some c, fyd') /\
    fy_same_content merge_defaults c /\
    fy_type c = fy_type merge_defaults /\ fy_style c = fy_style merge_defaults /\
    fy_fresh_nodes merge_document (fy_node_addrs c) fyd'.
Proof.
  split; [exact merge_document_c_strings|].
  exact (proj1 (@fy_node_copy_fresh merge_document merge_defaults
                  merge_document_c_strings)).
Defined.





